(** * GUI_Music_Streamer: playlists, queues and history

    A shallow embedding of [src/linked_list_playlist.py] and
    [src/stacks_queues_music.py], and the properties of the containers
    that the specification states about them.

    Python values are modelled as follows.
    - A song dictionary is the record [Song]; its keys are the ones
      [MusicPlaylistManager._extract_song_info] produces.
    - Text is a [string] of code points below 256; [lower] is [str.lower]
      on that range.
    - Integers are [Z].
    - [SongNode] objects live in an arena (a list indexed by address);
      a reference is an address, [None] is [None].  Object identity is
      address equality.
    - A [while] loop takes a fuel argument and answers [Timeout] when the
      fuel runs out; dereferencing [None] answers [Raise]. *)

From Stdlib Require Import ZArith String Ascii Lia.
From stdpp Require Import base option list gmap strings sorting.

Local Open Scope Z_scope.

(** ** Text *)

Module Text.

(** [str.lower] on one code point: A-Z and the Latin-1 capitals
    (U+00C0 to U+00DE without the multiplication sign U+00D7) move up by
    32, everything else stays. *)
Definition lower_char (c : ascii) : ascii :=
  let n := N_of_ascii c in
  if ((65 <=? n)%N && (n <=? 90)%N)
     || ((192 <=? n)%N && (n <=? 222)%N && negb (n =? 215)%N)
  then ascii_of_N (n + 32) else c.

Fixpoint lower (s : string) : string :=
  match s with
  | EmptyString => EmptyString
  | String c s' => String (lower_char c) (lower s')
  end.

(** [needle in hay] for two strings: substring test. *)
Fixpoint py_in (needle hay : string) : bool :=
  String.prefix needle hay
  || match hay with
     | EmptyString => false
     | String _ hay' => py_in needle hay'
     end.

(** [a.lower() == b.lower()] *)
Definition eq_nocase (a b : string) : bool := String.eqb (lower a) (lower b).

(** What [py_in] decides: [needle] occurs somewhere inside [hay]. *)
Definition Contains (needle hay : string) : Prop :=
  ∃ pre post : string, hay = pre +:+ needle +:+ post.

End Text.

(** ** Songs *)

Record Song := mkSong {
  filename : string;
  title : string;
  artist : string;
  file_type : string;
  file_path : string;
  file_size : Z
}.

#[global] Instance Song_eq_dec : EqDecision Song.
Proof. solve_decision. Defined.

(** ** Results of running a method *)

Inductive result (A : Type) : Type :=
| Ok (a : A)
| Raise        (* an exception escapes the method *)
| Timeout.     (* a loop has used up its fuel *)
Arguments Ok {A} a.
Arguments Raise {A}.
Arguments Timeout {A}.

#[global] Instance result_bind : MBind result := λ A B k m,
  match m with
  | Ok a => k a
  | Raise => Raise
  | Timeout => Timeout
  end.

(** ** stacks_queues_music.py *)

(** [list.sort(key=lambda x: x[1], reverse=True)]: the stable sort of the
    list by descending key.  Python's sort is stable, and [reverse=True]
    keeps the original order of elements with equal keys; the result of
    a stable sort is determined by that, so the insertion sort below
    computes the same list as Timsort. *)
Module PySort.
Section Sort.
Context {A : Type} (key : A → Z).

Fixpoint insert_desc (x : A) (l : list A) : list A :=
  match l with
  | [] => [x]
  | y :: l' => if key x <? key y then y :: insert_desc x l' else x :: y :: l'
  end.

Definition sort_desc (l : list A) : list A := foldr insert_desc [] l.

(** The order the sort establishes between an element and a later one. *)
Definition desc (x y : A) : Prop := key y ≤ key x.
End Sort.
End PySort.

Module SongQueue.
Definition t := list Song.
Definition init : t := [].
Definition enqueue (song : Song) (queue : t) : t := queue ++ [song].
Definition dequeue (queue : t) : option Song * t :=
  match queue with
  | [] => (None, queue)
  | s :: queue' => (Some s, queue')
  end.
Definition get_size (queue : t) : Z := Z.of_nat (length queue).
Definition clear_queue (queue : t) : t := [].
End SongQueue.

(** The priority queue stores [(song, priority)] pairs.  Its methods only
    read a song's title, so they are written once for any payload with a
    title; [PrioritySongQueue] instantiates them at [Song], and the
    theorems on insertion order instantiate them at songs tagged with the
    number of the [enqueue] call that brought them in. *)
Module PriorityQueueOver.
Section Q.
Context {E : Type} (title_of : E → string).

Definition enqueue (song : E) (priority : Z) (queue : list (E * Z))
  : list (E * Z) :=
  PySort.sort_desc snd (queue ++ [(song, priority)]).

Definition dequeue (queue : list (E * Z)) : option E * list (E * Z) :=
  match queue with
  | [] => (None, queue)
  | e :: queue' => (Some e.1, queue')
  end.

(** The [for i, (song, priority) in enumerate(self.queue)] loop of
    [upvote], at index [i] with [rest] still to visit. *)
Fixpoint upvote_loop (song_title : string) (queue : list (E * Z))
    (i : nat) (rest : list (E * Z)) : bool * list (E * Z) :=
  match rest with
  | [] => (false, queue)
  | (song, priority) :: rest' =>
      if Text.eq_nocase (title_of song) song_title
      then (true, PySort.sort_desc snd (<[i := (song, priority + 1)]> queue))
      else upvote_loop song_title queue (S i) rest'
  end.

Definition upvote (song_title : string) (queue : list (E * Z))
  : bool * list (E * Z) :=
  upvote_loop song_title queue 0%nat queue.
End Q.
End PriorityQueueOver.

Module PrioritySongQueue.
Definition t := list (Song * Z).
Definition init : t := [].
Definition enqueue : Song → Z → t → t := PriorityQueueOver.enqueue.
Definition dequeue : t → option Song * t := PriorityQueueOver.dequeue.
Definition upvote : string → t → bool * t := PriorityQueueOver.upvote title.
Definition get_size (queue : t) : Z := Z.of_nat (length queue).
Definition clear_queue (queue : t) : t := [].
End PrioritySongQueue.

Module ListeningHistoryStack.
Definition t := list Song.
Definition init : t := [].
Definition push (song : Song) (stack : t) : t := stack ++ [song].
Definition get_size (stack : t) : Z := Z.of_nat (length stack).

(** The condition of the list comprehension in [search_history]. *)
Definition matches (query : string) (song : Song) : bool :=
  Text.py_in (Text.lower query) (Text.lower (title song))
  || Text.py_in (Text.lower query) (Text.lower (artist song)).

(** The list comprehension of [search_history], as the loop it runs:
    [acc] is the list built so far. *)
Fixpoint search_loop (query : string) (acc : list Song) (stack : list Song)
  : list Song :=
  match stack with
  | [] => acc
  | song :: stack' =>
      if matches query song
      then search_loop query (acc ++ [song]) stack'
      else search_loop query acc stack'
  end.

Definition search_history (query : string) (stack : t) : list Song :=
  search_loop query [] stack.
End ListeningHistoryStack.

(** The audio device is pygame's mixer, a third-party capability: its
    state type and its two calls are parameters.  A call either returns
    or raises; [pygame.error] is the failure the mixer reports for a file
    it cannot load or play. *)
Module Pygame.
Inductive exception := error | other_exception.
Inductive outcome := returned | raised (e : exception).

Class Mixer (M : Type) := {
  music_load : string → M → outcome * M;
  music_play : M → outcome * M;
  music_stop : M → M
}.
End Pygame.

Module MusicPlayerStacksQueues.
Section Player.
Context {M : Type} `{Pygame.Mixer M}.

Record t := mk {
  mixer : M;
  play_next_queue : SongQueue.t;
  party_queue : PrioritySongQueue.t;
  listening_history : ListeningHistoryStack.t;
  currently_playing : option Song
}.

Definition init (m : M) : t :=
  mk m SongQueue.init PrioritySongQueue.init ListeningHistoryStack.init None.

(** [try: load; play; ... except pygame.error: ...].  Only
    [pygame.error] is caught; any other exception leaves the method. *)
Definition play_song (song : Song) (p : t) : result t :=
  match Pygame.music_load (file_path song) (mixer p) with
  | (Pygame.raised Pygame.error, m) =>
      Ok (mk m (play_next_queue p) (party_queue p) (listening_history p) None)
  | (Pygame.raised Pygame.other_exception, _) => Raise
  | (Pygame.returned, m) =>
      match Pygame.music_play m with
      | (Pygame.raised Pygame.error, m') =>
          Ok (mk m' (play_next_queue p) (party_queue p) (listening_history p)
                None)
      | (Pygame.raised Pygame.other_exception, _) => Raise
      | (Pygame.returned, m') =>
          Ok (mk m' (play_next_queue p) (party_queue p)
                (ListeningHistoryStack.push song (listening_history p))
                (Some song))
      end
  end.

Definition stop_song (p : t) : t :=
  mk (Pygame.music_stop (mixer p)) (play_next_queue p) (party_queue p)
     (listening_history p) None.

Definition add_to_play_next (song : Song) (p : t) : t :=
  mk (mixer p) (SongQueue.enqueue song (play_next_queue p)) (party_queue p)
     (listening_history p) (currently_playing p).

(** [if song:] is the test for [None]: a song dictionary has keys and is
    true. *)
Definition play_next_song (p : t) : result t :=
  match SongQueue.dequeue (play_next_queue p) with
  | (Some song, queue) =>
      play_song song
        (mk (mixer p) queue (party_queue p) (listening_history p)
            (currently_playing p))
  | (None, _) => Ok p
  end.

Definition add_to_party_queue (song : Song) (priority : Z) (p : t) : t :=
  mk (mixer p) (play_next_queue p)
     (PrioritySongQueue.enqueue song priority (party_queue p))
     (listening_history p) (currently_playing p).

Definition play_from_party_queue (p : t) : result t :=
  match PrioritySongQueue.dequeue (party_queue p) with
  | (Some song, queue) =>
      play_song song
        (mk (mixer p) (play_next_queue p) queue (listening_history p)
            (currently_playing p))
  | (None, _) => Ok p
  end.

(** The result of the upvote is only printed. *)
Definition upvote_song_in_party_queue (song_title : string) (p : t) : t :=
  mk (mixer p) (play_next_queue p)
     (PrioritySongQueue.upvote song_title (party_queue p)).2
     (listening_history p) (currently_playing p).
End Player.
Arguments t M : clear implicits.
End MusicPlayerStacksQueues.

(** ** linked_list_playlist.py *)

Module LinkedListPlaylist.

Abbreviation addr := nat.

Record SongNode := mkNode {
  song_data : Song;
  next : option addr;
  previous : option addr
}.

(** The playlist object together with the arena of the nodes it has
    allocated.  Nodes are never shared between playlists, so each
    playlist carries its own arena; a node that is unlinked stays in the
    arena as garbage. *)
Record t := mk {
  nodes : list SongNode;
  head : option addr;
  tail : option addr;
  current_node : option addr;
  size : Z
}.

Definition init : t := mk [] None None None 0.

Definition is_empty (pl : t) : bool := bool_decide (head pl = None).
Definition get_size (pl : t) : Z := size pl.

(** Reading the object behind a reference. *)
Definition node_at (h : list SongNode) (a : addr) : result SongNode :=
  match h !! a with
  | Some n => Ok n
  | None => Raise
  end.

(** [r.attr] where [r] may be [None]: AttributeError on [None]. *)
Definition deref (r : option addr) : result addr :=
  match r with
  | Some a => Ok a
  | None => Raise
  end.

Definition set_next (h : list SongNode) (a : addr) (v : option addr)
  : result (list SongNode) :=
  n ← node_at h a; Ok (<[a := mkNode (song_data n) v (previous n)]> h).

Definition set_previous (h : list SongNode) (a : addr) (v : option addr)
  : result (list SongNode) :=
  n ← node_at h a; Ok (<[a := mkNode (song_data n) (next n) v]> h).

Definition add_song_at_end (song_data : Song) (pl : t) : result t :=
  let new_node := length (nodes pl) in
  let h := nodes pl ++ [mkNode song_data None None] in
  if is_empty pl then
    Ok (mk h (Some new_node) (Some new_node) (Some new_node) (size pl + 1))
  else
    h ← set_previous h new_node (tail pl);
    tl ← deref (tail pl);
    h ← set_next h tl (Some new_node);
    Ok (mk h (head pl) (Some new_node) (current_node pl) (size pl + 1)).

Definition add_song_at_beginning (song_data : Song) (pl : t) : result t :=
  let new_node := length (nodes pl) in
  let h := nodes pl ++ [mkNode song_data None None] in
  if is_empty pl then
    Ok (mk h (Some new_node) (Some new_node) (Some new_node) (size pl + 1))
  else
    h ← set_next h new_node (head pl);
    hd ← deref (head pl);
    h ← set_previous h hd (Some new_node);
    Ok (mk h (Some new_node) (tail pl) (current_node pl) (size pl + 1)).

(** The [while current:] loop of [insert_song_after]. *)
Fixpoint insert_after_loop (fuel : nat) (target_song_title : string)
    (song : Song) (pl : t) (current : option addr) : result (bool * t) :=
  match current with
  | None => Ok (false, pl)
  | Some cur =>
      match fuel with
      | O => Timeout
      | S fuel' =>
          n ← node_at (nodes pl) cur;
          if Text.eq_nocase (title (song_data n)) target_song_title then
            let new_node := length (nodes pl) in
            let h := nodes pl ++ [mkNode song (next n) (Some cur)] in
            '(h, tl) ← match next n with
                       | Some nx =>
                           h ← set_previous h nx (Some new_node);
                           Ok (h, tail pl)
                       | None => Ok (h, Some new_node)
                       end;
            h ← set_next h cur (Some new_node);
            Ok (true, mk h (head pl) tl (current_node pl) (size pl + 1))
          else insert_after_loop fuel' target_song_title song pl (next n)
      end
  end.

Definition insert_song_after (fuel : nat) (target_song_title : string)
    (song : Song) (pl : t) : result (bool * t) :=
  if is_empty pl then Ok (false, pl)
  else insert_after_loop fuel target_song_title song pl (head pl).

(** The [while current:] loop of [insert_song_before]. *)
Fixpoint insert_before_loop (fuel : nat) (target_song_title : string)
    (song : Song) (pl : t) (current : option addr) : result (bool * t) :=
  match current with
  | None => Ok (false, pl)
  | Some cur =>
      match fuel with
      | O => Timeout
      | S fuel' =>
          n ← node_at (nodes pl) cur;
          if Text.eq_nocase (title (song_data n)) target_song_title then
            let new_node := length (nodes pl) in
            let h := nodes pl ++ [mkNode song (Some cur) (previous n)] in
            '(h, hd) ← match previous n with
                       | Some pv =>
                           h ← set_next h pv (Some new_node);
                           Ok (h, head pl)
                       | None => Ok (h, Some new_node)
                       end;
            h ← set_previous h cur (Some new_node);
            Ok (true, mk h hd (tail pl) (current_node pl) (size pl + 1))
          else insert_before_loop fuel' target_song_title song pl (next n)
      end
  end.

Definition insert_song_before (fuel : nat) (target_song_title : string)
    (song : Song) (pl : t) : result (bool * t) :=
  if is_empty pl then Ok (false, pl)
  else insert_before_loop fuel target_song_title song pl (head pl).

(** The [while current:] loop of [remove_song].  The node is read again
    after the first pointer update, as the source does. *)
Fixpoint remove_loop (fuel : nat) (song_title : string) (pl : t)
    (current : option addr) : result (bool * t) :=
  match current with
  | None => Ok (false, pl)
  | Some cur =>
      match fuel with
      | O => Timeout
      | S fuel' =>
          n ← node_at (nodes pl) cur;
          if Text.eq_nocase (title (song_data n)) song_title then
            let cn :=
              if bool_decide (current_node pl = Some cur) then
                match next n with
                | Some nx => Some nx
                | None =>
                    match previous n with
                    | Some pv => Some pv
                    | None => None
                    end
                end
              else current_node pl in
            '(h, hd) ← match previous n with
                       | Some pv =>
                           h ← set_next (nodes pl) pv (next n);
                           Ok (h, head pl)
                       | None => Ok (nodes pl, next n)
                       end;
            n ← node_at h cur;
            '(h, tl) ← match next n with
                       | Some nx =>
                           h ← set_previous h nx (previous n);
                           Ok (h, tail pl)
                       | None => Ok (h, previous n)
                       end;
            Ok (true, mk h hd tl cn (size pl - 1))
          else remove_loop fuel' song_title pl (next n)
      end
  end.

Definition remove_song (fuel : nat) (song_title : string) (pl : t)
  : result (bool * t) :=
  if is_empty pl then Ok (false, pl)
  else remove_loop fuel song_title pl (head pl).

Definition with_current (pl : t) (c : option addr) : t :=
  mk (nodes pl) (head pl) (tail pl) c (size pl).

Definition next_song (pl : t) : result (option Song * t) :=
  match current_node pl with
  | None => Ok (None, pl)
  | Some c =>
      n ← node_at (nodes pl) c;
      match next n with
      | None => Ok (None, pl)
      | Some nx =>
          m ← node_at (nodes pl) nx;
          Ok (Some (song_data m), with_current pl (Some nx))
      end
  end.

Definition previous_song (pl : t) : result (option Song * t) :=
  match current_node pl with
  | None => Ok (None, pl)
  | Some c =>
      n ← node_at (nodes pl) c;
      match previous n with
      | None => Ok (None, pl)
      | Some pv =>
          m ← node_at (nodes pl) pv;
          Ok (Some (song_data m), with_current pl (Some pv))
      end
  end.

Definition get_current_song (pl : t) : result (option Song) :=
  match current_node pl with
  | None => Ok None
  | Some c => n ← node_at (nodes pl) c; Ok (Some (song_data n))
  end.

Definition go_to_first_song (pl : t) : result (option Song * t) :=
  if is_empty pl then Ok (None, pl)
  else
    c ← deref (head pl);
    n ← node_at (nodes pl) c;
    Ok (Some (song_data n), with_current pl (head pl)).

Definition go_to_last_song (pl : t) : result (option Song * t) :=
  if is_empty pl then Ok (None, pl)
  else
    c ← deref (tail pl);
    n ← node_at (nodes pl) c;
    Ok (Some (song_data n), with_current pl (tail pl)).

(** A traversal that follows one link from node to node and records what
    it visits: [display_playlist], the first loop of [shuffle_playlist]
    and the GUI's [save_playlists] walk [next] from [head]. *)
Fixpoint walk (link : SongNode → option addr) (fuel : nat)
    (h : list SongNode) (current : option addr)
  : result (list (addr * Song)) :=
  match current with
  | None => Ok []
  | Some cur =>
      match fuel with
      | O => Timeout
      | S fuel' =>
          n ← node_at h cur;
          rest ← walk link fuel' h (link n);
          Ok ((cur, song_data n) :: rest)
      end
  end.

Definition forward (fuel : nat) (pl : t) : result (list (addr * Song)) :=
  walk next fuel (nodes pl) (head pl).

Definition backward (fuel : nat) (pl : t) : result (list (addr * Song)) :=
  walk previous fuel (nodes pl) (tail pl).

(** The [while current:] loop of [search_song]. *)
Fixpoint search_loop (fuel : nat) (query : string) (h : list SongNode)
    (current : option addr) : result (option addr) :=
  match current with
  | None => Ok None
  | Some cur =>
      match fuel with
      | O => Timeout
      | S fuel' =>
          n ← node_at h cur;
          if Text.py_in (Text.lower query) (Text.lower (title (song_data n)))
             || Text.py_in (Text.lower query)
                  (Text.lower (artist (song_data n)))
          then Ok (Some cur)
          else search_loop fuel' query h (next n)
      end
  end.

Definition search_song (fuel : nat) (query : string) (pl : t)
  : result (option addr) :=
  if is_empty pl then Ok None
  else search_loop fuel query (nodes pl) (head pl).

(** The link-flipping loop of [reverse_playlist]:
    [current.next, current.previous = current.previous, current.next]
    and then [current = current.previous], read after the swap. *)
Fixpoint flip_loop (fuel : nat) (h : list SongNode) (current : option addr)
  : result (list SongNode) :=
  match current with
  | None => Ok h
  | Some cur =>
      match fuel with
      | O => Timeout
      | S fuel' =>
          n ← node_at h cur;
          let h := <[cur := mkNode (song_data n) (previous n) (next n)]> h in
          n ← node_at h cur;
          flip_loop fuel' h (previous n)
      end
  end.

(** The cursor re-scan of [reverse_playlist]: the first node from [temp]
    on whose song equals the cursor's song; the cursor stays where it is
    when the walk ends without a match. *)
Fixpoint rescan_loop (fuel : nat) (h : list SongNode) (cursor : addr)
    (temp : option addr) : result addr :=
  match temp with
  | None => Ok cursor
  | Some tmp =>
      match fuel with
      | O => Timeout
      | S fuel' =>
          n ← node_at h tmp;
          c ← node_at h cursor;
          if bool_decide (song_data n = song_data c) then Ok tmp
          else rescan_loop fuel' h cursor (next n)
      end
  end.

Definition reverse_playlist (fuel : nat) (pl : t) : result t :=
  if size pl <=? 1 then Ok pl
  else
    let hd := tail pl in
    let tl := head pl in
    h ← flip_loop fuel (nodes pl) hd;
    cn ← match current_node pl with
         | None => Ok None
         | Some c => c' ← rescan_loop fuel h c hd; Ok (Some c')
         end;
    Ok (mk h hd tl cn (size pl)).

(** [songs[i], songs[j] = songs[j], songs[i]]; an index outside the list
    is an IndexError. *)
Definition swap_items (i j : nat) (songs : list Song) : result (list Song) :=
  match songs !! j, songs !! i with
  | Some sj, Some si => Ok (<[j := si]> (<[i := sj]> songs))
  | _, _ => Raise
  end.

(** The swap loop of [shuffle_playlist].  [rnd k] is the raw value behind
    the [k]-th call of [random.randint(0, self.size - 1)], which is
    reduced into the range; [count] iterations remain. *)
Fixpoint swap_loop (rnd : nat → nat) (n : nat) (count : nat) (k : nat)
    (songs : list Song) : result (list Song) :=
  match count with
  | O => Ok songs
  | S count' =>
      let i := (rnd k `mod` n)%nat in
      let j := (rnd (S k) `mod` n)%nat in
      songs ← (if bool_decide (i ≠ j) then swap_items i j songs
               else Ok songs);
      swap_loop rnd n count' (S (S k)) songs
  end.

(** [for song in songs: self.add_song_at_end(song)] *)
Fixpoint add_all (songs : list Song) (pl : t) : result t :=
  match songs with
  | [] => Ok pl
  | song :: songs' => pl ← add_song_at_end song pl; add_all songs' pl
  end.

Definition shuffle_playlist (rnd : nat → nat) (fuel : nat) (pl : t)
  : result t :=
  if size pl <=? 1 then Ok pl
  else
    visited ← walk next fuel (nodes pl) (head pl);
    songs ← swap_loop rnd (Z.to_nat (size pl)) (Z.to_nat (size pl * 2)) 0%nat
              (visited.*2);
    pl ← add_all songs (mk (nodes pl) None None (current_node pl) 0);
    Ok (with_current pl (head pl)).

End LinkedListPlaylist.

Module PlaylistManager.

Record t := mk {
  playlists : gmap string LinkedListPlaylist.t;
  current_playlist_name : option string
}.

Definition init : t := mk ∅ None.

(** [description] is only printed. *)
Definition create_playlist (name : string) (description : string) (pm : t)
  : bool * t :=
  match playlists pm !! name with
  | Some _ => (false, pm)
  | None =>
      (true, mk (<[name := LinkedListPlaylist.init]> (playlists pm))
                (Some name))
  end.

Definition delete_playlist (name : string) (pm : t) : bool * t :=
  match playlists pm !! name with
  | None => (false, pm)
  | Some _ =>
      let cur := if bool_decide (current_playlist_name pm = Some name)
                 then None else current_playlist_name pm in
      (true, mk (delete name (playlists pm)) cur)
  end.

Definition switch_playlist (name : string) (pm : t) : bool * t :=
  match playlists pm !! name with
  | None => (false, pm)
  | Some _ => (true, mk (playlists pm) (Some name))
  end.

(** [if not self.current_playlist_name] is also true for the empty
    string. *)
Definition get_current_playlist (pm : t) : option LinkedListPlaylist.t :=
  match current_playlist_name pm with
  | None => None
  | Some name => if String.eqb name "" then None else playlists pm !! name
  end.

(** [song_library[:max_songs]]: a negative bound counts from the end. *)
Definition slice_to (max_songs : Z) (song_library : list Song) : list Song :=
  if 0 <=? max_songs then take (Z.to_nat max_songs) song_library
  else take (length song_library - Z.to_nat (- max_songs)) song_library.

(** [music_manager.get_song_library()] is the list [song_library]. *)
Definition create_playlist_from_library (name : string)
    (song_library : list Song) (max_songs : Z) (description : string)
    (pm : t) : result (bool * t) :=
  let '(created, pm) := create_playlist name description pm in
  if negb created then Ok (false, pm)
  else
    match song_library with
    | [] => Ok (false, pm)
    | _ =>
        let songs_to_add := slice_to max_songs song_library in
        match playlists pm !! name with
        | None => Raise
        | Some current_playlist =>
            current_playlist ←
              LinkedListPlaylist.add_all songs_to_add current_playlist;
            Ok (true, mk (<[name := current_playlist]> (playlists pm))
                        (current_playlist_name pm))
        end
    end.

(** A [LinkedListPlaylist] object is always true, so
    [if not current_playlist] is the test for [None].  The playlist object
    is changed in place: the catalog entry under the current name is the
    changed playlist. *)
Definition add_song_to_current_playlist (song_data : Song) (pm : t)
  : result (bool * t) :=
  match get_current_playlist pm, current_playlist_name pm with
  | Some current_playlist, Some name =>
      current_playlist ←
        LinkedListPlaylist.add_song_at_end song_data current_playlist;
      Ok (true, mk (<[name := current_playlist]> (playlists pm))
                  (current_playlist_name pm))
  | _, _ => Ok (false, pm)
  end.

End PlaylistManager.

(** ** main_gui.py: where playlist descriptions are kept *)

Module GUIMusicPlayer.

Record t := mk {
  playlist_manager : PlaylistManager.t;
  playlist_descriptions : gmap string string
}.

(** The "Create New" callback of [handle_playlists]:
    [create_playlist(name) or playlist_descriptions.update({name: desc})
     or ...].  [or] stops at the first true operand; [dict.update]
    returns [None].  The operands after it only redraw, save and show a
    message. *)
Definition on_create_new (name desc : string) (g : t) : t :=
  let '(created, pm) :=
    PlaylistManager.create_playlist name "" (playlist_manager g) in
  if created then mk pm (playlist_descriptions g)
  else mk pm (<[name := desc]> (playlist_descriptions g)).

End GUIMusicPlayer.

(** ** Traces of party-queue calls *)

Module PartyTrace.

Inductive call :=
| Enqueue (song : Song) (priority : Z)
| Upvote (song_title : string).

Definition is_enqueue (c : call) : bool :=
  match c with
  | Enqueue _ _ => true
  | Upvote _ => false
  end.

(** Running the calls on a [PrioritySongQueue]. *)
Fixpoint run_from (calls : list call) (queue : PrioritySongQueue.t)
  : PrioritySongQueue.t :=
  match calls with
  | [] => queue
  | Enqueue song priority :: calls' =>
      run_from calls' (PrioritySongQueue.enqueue song priority queue)
  | Upvote song_title :: calls' =>
      run_from calls' (PrioritySongQueue.upvote song_title queue).2
  end.

Definition run (calls : list call) : PrioritySongQueue.t :=
  run_from calls PrioritySongQueue.init.

(** The same run with every song tagged by the number of the [enqueue]
    call that brought it in ([k] is the number of the next one). *)
Definition tagged := (Song * nat)%type.
Definition tagged_title (s : tagged) : string := title s.1.
Definition prio (e : tagged * Z) : Z := e.2.
Definition tag (e : tagged * Z) : nat := e.1.2.
Definition untag (e : tagged * Z) : Song * Z := (e.1.1, e.2).

Fixpoint run_tagged_from (k : nat) (calls : list call)
    (queue : list (tagged * Z)) : list (tagged * Z) :=
  match calls with
  | [] => queue
  | Enqueue song priority :: calls' =>
      run_tagged_from (S k) calls'
        (PriorityQueueOver.enqueue (song, k) priority queue)
  | Upvote song_title :: calls' =>
      run_tagged_from k calls'
        (PriorityQueueOver.upvote tagged_title song_title queue).2
  end.

Definition run_tagged (calls : list call) : list (tagged * Z) :=
  run_tagged_from 0 calls [].

(** Non-increasing priority, and increasing tags at equal priority. *)
Definition by_priority_then_tag (x y : tagged * Z) : Prop :=
  prio y ≤ prio x ∧ (prio x = prio y → (tag x < tag y)%nat).

End PartyTrace.

(** ** A fake mixer for examples: it refuses the empty path *)

Module FakeMixer.
Definition load (path : string) (loaded : list string)
  : Pygame.outcome * list string :=
  if String.eqb path "" then (Pygame.raised Pygame.error, loaded)
  else (Pygame.returned, path :: loaded).

#[global] Instance fake : Pygame.Mixer (list string) := {|
  Pygame.music_load := load;
  Pygame.music_play := λ loaded, (Pygame.returned, loaded);
  Pygame.music_stop := λ loaded, loaded
|}.

(** A mixer that accepts every path. *)
#[global] Instance willing : Pygame.Mixer unit := {|
  Pygame.music_load := λ _ m, (Pygame.returned, m);
  Pygame.music_play := λ m, (Pygame.returned, m);
  Pygame.music_stop := λ m, m
|}.
End FakeMixer.

(** ** Sample songs *)

Module Sample.
Definition song (artist title : string) : Song :=
  mkSong (artist ++ " - " ++ title) title artist ".mp3"
    ("music/" ++ artist ++ " - " ++ title ++ ".mp3") 1000.
Definition sun : Song := song "X" "Sun".
Definition moon : Song := song "Y" "Moon".
Definition star : Song := song "Z" "Star".
Definition silent : Song := mkSong "" "Silent" "Nobody" ".mp3" "" 0.
Definition comet : Song := song "W" "Comet".

(** The playlist after adding Sun, Moon and Star at the end, and the
    chain of its nodes. *)
Definition road_trip : LinkedListPlaylist.t :=
  LinkedListPlaylist.mk
    [LinkedListPlaylist.mkNode sun (Some 1%nat) None;
     LinkedListPlaylist.mkNode moon (Some 2%nat) (Some 0%nat);
     LinkedListPlaylist.mkNode star None (Some 1%nat)]
    (Some 0%nat) (Some 2%nat) (Some 0%nat) 3.

Definition road_trip_chain : list (nat * Song) :=
  [(0%nat, sun); (1%nat, moon); (2%nat, star)].

(** The arena of [road_trip] once [reverse_playlist] has run its
    link-flipping loop on it: only Star, the old tail, has its links
    swapped. *)
Definition road_trip_flipped : list LinkedListPlaylist.SongNode :=
  [LinkedListPlaylist.mkNode sun (Some 1%nat) None;
   LinkedListPlaylist.mkNode moon (Some 2%nat) (Some 0%nat);
   LinkedListPlaylist.mkNode star (Some 1%nat) None].

(** The playlist after adding Sun and Moon at the end, and what one
    [reverse_playlist] makes of it. *)
Definition duo : LinkedListPlaylist.t :=
  LinkedListPlaylist.mk
    [LinkedListPlaylist.mkNode sun (Some 1%nat) None;
     LinkedListPlaylist.mkNode moon None (Some 0%nat)]
    (Some 0%nat) (Some 1%nat) (Some 0%nat) 2.

Definition duo_reversed : LinkedListPlaylist.t :=
  LinkedListPlaylist.mk
    [LinkedListPlaylist.mkNode sun (Some 1%nat) None;
     LinkedListPlaylist.mkNode moon (Some 0%nat) None]
    (Some 1%nat) (Some 0%nat) (Some 0%nat) 2.

(** A catalog with the one playlist [road_trip], selected. *)
Definition catalog : PlaylistManager.t :=
  PlaylistManager.mk {["Road Trip" := road_trip]} (Some "Road Trip").

(** A player on the fake mixer with nothing queued, and the same with the
    song the mixer refuses waiting in the play-next queue. *)
Definition player : MusicPlayerStacksQueues.t (list string) :=
  MusicPlayerStacksQueues.init [].

Definition player_waiting : MusicPlayerStacksQueues.t (list string) :=
  MusicPlayerStacksQueues.add_to_play_next silent player.
End Sample.


(** ** The shape of a playlist *)

Module Shape.
Import LinkedListPlaylist.

#[global] Instance SongNode_eq_dec : EqDecision SongNode.
Proof. solve_decision. Defined.

(** The address a link into the chain [l] holds: its first node, or [q]
    when the chain is empty. *)
Definition first (l : list (addr * Song)) (q : option addr) : option addr :=
  match l with
  | [] => q
  | e :: _ => Some e.1
  end.

(** The address a link back into the chain [l] holds: its last node, or
    [p] when the chain is empty. *)
Fixpoint lastp (p : option addr) (l : list (addr * Song)) : option addr :=
  match l with
  | [] => p
  | e :: l' => lastp (Some e.1) l'
  end.

(** [dseg h p l q]: in the arena [h] the nodes listed in [l], each with
    its song, are linked to one another in both directions; the first
    one points back to [p] and the last one points on to [q]. *)
Fixpoint dseg (h : list SongNode) (p : option addr)
    (l : list (addr * Song)) (q : option addr) : Prop :=
  match l with
  | [] => True
  | e :: l' =>
      h !! e.1 = Some (mkNode e.2 (first l' q) p) ∧ dseg h (Some e.1) l' q
  end.

(** The playlist is the doubly-linked list of the nodes [l], from [head]
    to [tail], without repetition, and [size] counts them. *)
Definition wf (pl : t) (l : list (addr * Song)) : Prop :=
  dseg (nodes pl) None l None
  ∧ NoDup l.*1
  ∧ head pl = first l None
  ∧ tail pl = lastp None l
  ∧ size pl = Z.of_nat (length l).

(** The cursor is unset exactly on the empty playlist and otherwise on
    one of its nodes. *)
Definition cursor_ok (pl : t) (l : list (addr * Song)) : Prop :=
  match current_node pl with
  | None => l = []
  | Some c => c ∈ l.*1
  end.

(** [reaches h start a]: following [next] from [start] arrives at the
    node [a]. *)
Inductive reaches (h : list SongNode) : option addr → addr → Prop :=
| reaches_here a : reaches h (Some a) a
| reaches_next a n b :
    h !! a = Some n → reaches h (next n) b → reaches h (Some a) b.

(** No entry of the chain has the title, compared without case. *)
Definition no_match (song_title : string) (l : list (addr * Song)) : Prop :=
  Forall (λ e, Text.eq_nocase (title e.2) song_title = false) l.

(** The scan shared by [insert_song_after], [insert_song_before] and
    [remove_song]: the first node from [current] on whose title is
    [song_title], compared without case. *)
Fixpoint find_title (fuel : nat) (song_title : string) (h : list SongNode)
    (current : option addr) : result (option addr) :=
  match current with
  | None => Ok None
  | Some cur =>
      match fuel with
      | O => Timeout
      | S fuel' =>
          n ← node_at h cur;
          if Text.eq_nocase (title (song_data n)) song_title then Ok (Some cur)
          else find_title fuel' song_title h (next n)
      end
  end.
End Shape.

(** ** Traces of playlist calls *)

Module PlaylistTrace.
Import LinkedListPlaylist.

Inductive call :=
| AddAtEnd (song : Song)
| AddAtBeginning (song : Song)
| InsertAfter (target_song_title : string) (song : Song)
| InsertBefore (target_song_title : string) (song : Song)
| Remove (song_title : string)
| Next
| Previous
| GoToFirst
| GoToLast
| Reverse
| Shuffle (rnd : nat → nat).

(** The calls that add or remove a song. *)
Definition is_edit (c : call) : bool :=
  match c with
  | AddAtEnd _ | AddAtBeginning _ | InsertAfter _ _ | InsertBefore _ _
  | Remove _ => true
  | _ => false
  end.

Definition is_reverse (c : call) : bool :=
  match c with
  | Reverse => true
  | _ => false
  end.

Definition run_call (fuel : nat) (c : call) (pl : t) : result t :=
  match c with
  | AddAtEnd song => add_song_at_end song pl
  | AddAtBeginning song => add_song_at_beginning song pl
  | InsertAfter target song =>
      r ← insert_song_after fuel target song pl; Ok r.2
  | InsertBefore target song =>
      r ← insert_song_before fuel target song pl; Ok r.2
  | Remove song_title => r ← remove_song fuel song_title pl; Ok r.2
  | Next => r ← next_song pl; Ok r.2
  | Previous => r ← previous_song pl; Ok r.2
  | GoToFirst => r ← go_to_first_song pl; Ok r.2
  | GoToLast => r ← go_to_last_song pl; Ok r.2
  | Reverse => reverse_playlist fuel pl
  | Shuffle rnd => shuffle_playlist rnd fuel pl
  end.

Fixpoint run_from (fuel : nat) (calls : list call) (pl : t) : result t :=
  match calls with
  | [] => Ok pl
  | c :: calls' => pl ← run_call fuel c pl; run_from fuel calls' pl
  end.

Definition run (fuel : nat) (calls : list call) : result t :=
  run_from fuel calls init.
End PlaylistTrace.

(** ** linked_list_playlist.py: the loader function *)

(** [load_playlist_from_library(music_manager, max_songs)];
    [music_manager.get_song_library()] is the list [song_library]. *)
Definition load_playlist_from_library (song_library : list Song)
    (max_songs : Z) : result LinkedListPlaylist.t :=
  match song_library with
  | [] => Ok LinkedListPlaylist.init
  | _ =>
      LinkedListPlaylist.add_all
        (PlaylistManager.slice_to max_songs song_library)
        LinkedListPlaylist.init
  end.

(** ** Traces of catalog calls *)

Module CatalogTrace.

Inductive call :=
| Create (name description : string)
| Delete (name : string)
| Switch (name : string)
| AddSong (song : Song)
| CreateFromLibrary (name : string) (song_library : list Song)
    (max_songs : Z) (description : string).

Definition run_call (c : call) (pm : PlaylistManager.t)
  : result PlaylistManager.t :=
  match c with
  | Create name description =>
      Ok (PlaylistManager.create_playlist name description pm).2
  | Delete name => Ok (PlaylistManager.delete_playlist name pm).2
  | Switch name => Ok (PlaylistManager.switch_playlist name pm).2
  | AddSong song =>
      r ← PlaylistManager.add_song_to_current_playlist song pm; Ok r.2
  | CreateFromLibrary name song_library max_songs description =>
      r ← PlaylistManager.create_playlist_from_library name song_library
            max_songs description pm;
      Ok r.2
  end.

Fixpoint run_from (calls : list call) (pm : PlaylistManager.t)
  : result PlaylistManager.t :=
  match calls with
  | [] => Ok pm
  | c :: calls' => pm ← run_call c pm; run_from calls' pm
  end.

Definition run (calls : list call) : result PlaylistManager.t :=
  run_from calls PlaylistManager.init.

(** The current name, if set, is a key, and every playlist in the catalog
    is a well-formed list with its cursor on one of its nodes (or unset
    when it is empty). *)
Definition sound (pm : PlaylistManager.t) : Prop :=
  (∀ name, PlaylistManager.current_playlist_name pm = Some name →
     is_Some (PlaylistManager.playlists pm !! name))
  ∧ (∀ name pl, PlaylistManager.playlists pm !! name = Some pl →
       ∃ l, Shape.wf pl l ∧ Shape.cursor_ok pl l).

End CatalogTrace.

(** ** Traces of orchestrator calls *)

Module PlayerTrace.
Section Trace.
Context {M : Type} `{Pygame.Mixer M}.

Inductive call :=
| Play (song : Song)
| Stop
| AddToPlayNext (song : Song)
| PlayNext
| AddToPartyQueue (song : Song) (priority : Z)
| PlayFromPartyQueue
| UpvoteInPartyQueue (song_title : string).

Definition run_call (c : call) (p : MusicPlayerStacksQueues.t M)
  : result (MusicPlayerStacksQueues.t M) :=
  match c with
  | Play song => MusicPlayerStacksQueues.play_song song p
  | Stop => Ok (MusicPlayerStacksQueues.stop_song p)
  | AddToPlayNext song => Ok (MusicPlayerStacksQueues.add_to_play_next song p)
  | PlayNext => MusicPlayerStacksQueues.play_next_song p
  | AddToPartyQueue song priority =>
      Ok (MusicPlayerStacksQueues.add_to_party_queue song priority p)
  | PlayFromPartyQueue => MusicPlayerStacksQueues.play_from_party_queue p
  | UpvoteInPartyQueue song_title =>
      Ok (MusicPlayerStacksQueues.upvote_song_in_party_queue song_title p)
  end.

Fixpoint run_from (calls : list call) (p : MusicPlayerStacksQueues.t M)
  : result (MusicPlayerStacksQueues.t M) :=
  match calls with
  | [] => Ok p
  | c :: calls' => p ← run_call c p; run_from calls' p
  end.

(** A song that is playing is the last entry of the history. *)
Definition playing_is_latest (p : MusicPlayerStacksQueues.t M) : Prop :=
  ∀ song, MusicPlayerStacksQueues.currently_playing p = Some song →
    last (MusicPlayerStacksQueues.listening_history p) = Some song.
End Trace.
End PlayerTrace.

(** ** recursive_playlist_shuffle.py *)

(** The random draws are parameters: [coin k] is the outcome of the test
    [random.random() < 0.5] at the draw numbered [k], and [sample k l] is
    the list [random.sample(l, len(l))] returns at that draw.  Every
    function takes the number of the next draw and returns it with its
    result.  The recursion is bounded by the source's own depth counter;
    [budget] is the number of levels left before [depth] passes 50. *)
Module RecursiveShuffle.
Section Random.
Context (coin : nat → bool) (sample : nat → list Song → list Song).

(** The [while] loop of the [depth > 50] branch of
    [merge_with_random_order], with the two [extend] calls after it. *)
Fixpoint fallback_merge (left : list Song)
  : nat → list Song → list Song * nat :=
  fix same_left (k : nat) (right : list Song) {struct right} :=
    match left, right with
    | [], _ => (right, k)
    | _, [] => (left, k)
    | l0 :: left', r0 :: right' =>
        if coin k then
          let '(result, k') := fallback_merge left' (S k) right in
          (l0 :: result, k')
        else
          let '(result, k') := same_left (S k) right' in
          (r0 :: result, k')
    end.

Fixpoint merge_from (budget : nat) (depth : Z) (k : nat)
    (left right : list Song) : list Song * nat :=
  if 50 <? depth then fallback_merge left k right
  else
    match left, right with
    | [], _ => (right, k)
    | _, [] => (left, k)
    | l0 :: left', r0 :: _ =>
        match budget with
        | O => fallback_merge left k right
        | S budget' =>
            if coin k then
              (* [left[0]] + merge_with_random_order(left[1:], right, ...) *)
              let '(result, k') :=
                merge_from budget' (depth + 1) (S k) left' right in
              (l0 :: result, k')
            else
              (* [right[0]] + merge_with_random_order(left, right, ...) *)
              let '(result, k') :=
                merge_from budget' (depth + 1) (S k) left right in
              (r0 :: result, k')
        end
    end.

Definition merge_with_random_order (k : nat) (left right : list Song)
    (depth : Z) : list Song * nat :=
  merge_from (Z.to_nat (51 - depth)) depth k left right.

Fixpoint shuffle_from (budget : nat) (depth : Z) (k : nat)
    (playlist : list Song) : list Song * nat :=
  if 50 <? depth then (sample k playlist, S k)
  else if (length playlist <=? 1)%nat then (playlist, k)
  else if (length playlist =? 2)%nat then
    (if coin k then playlist else reverse playlist, S k)
  else
    match budget with
    | O => (sample k playlist, S k)
    | S budget' =>
        let mid := (length playlist / 2)%nat in
        let left_half := take mid playlist in
        let right_half := drop mid playlist in
        let '(shuffled_left, k) :=
          shuffle_from budget' (depth + 1) k left_half in
        let '(shuffled_right, k) :=
          shuffle_from budget' (depth + 1) k right_half in
        merge_with_random_order k shuffled_left shuffled_right (depth + 1)
    end.

Definition recursive_shuffle_playlist (k : nat) (playlist : list Song)
    (depth : Z) : list Song * nat :=
  shuffle_from (Z.to_nat (51 - depth)) depth k playlist.
End Random.

(** [result] holds [left] and [right], each in its own order, has every
    song at least as often as the two lists together, and has no song from
    elsewhere. *)
Definition covers (left right result : list Song) : Prop :=
  left `sublist_of` result
  ∧ right `sublist_of` result
  ∧ left ++ right ⊆+ result
  ∧ ∀ song, song ∈ result → song ∈ left ++ right.
End RecursiveShuffle.

(** ** Lists_and_Tuples.py *)

(** The queries of [MusicPlaylistManager] read [self.song_library] only;
    they are functions of that list. *)
Module MusicPlaylistManager.

Definition filter_songs_by_artist (artist_name : string)
    (song_library : list Song) : list Song :=
  List.filter (λ song, Text.eq_nocase (artist song) artist_name) song_library.

Definition filter_songs_by_file_type (file_type_name : string)
    (song_library : list Song) : list Song :=
  List.filter
    (λ song, String.eqb (file_type song) (Text.lower file_type_name))
    song_library.

Definition search_songs (query : string) (song_library : list Song)
  : list Song :=
  let query_lower := Text.lower query in
  foldl
    (λ results song,
       if Text.py_in query_lower (Text.lower (title song))
          || Text.py_in query_lower (Text.lower (artist song))
       then results ++ [song] else results)
    [] song_library.

(** The counting loop of [get_library_statistics]:
    [artist_counts[artist] = artist_counts.get(artist, 0) + 1].  The
    dictionary the method returns holds these entries, listed by
    descending count. *)
Definition artist_counts (song_library : list Song) : gmap string Z :=
  foldl
    (λ counts song,
       <[artist song := default 0 (counts !! artist song) + 1]> counts)
    ∅ song_library.


(** The songs whose artist is exactly [artist_name]. *)
Definition credited_to (artist_name : string) (song_library : list Song)
  : list Song :=
  List.filter (λ song, String.eqb (artist song) artist_name) song_library.

End MusicPlaylistManager.
(** * Properties *)

(** ** Text *)

Lemma lower_char_idemp c : Text.lower_char (Text.lower_char c) = Text.lower_char c.
Proof. destruct c as [[] [] [] [] [] [] [] []]; reflexivity. Qed.

Lemma lower_idemp s : Text.lower (Text.lower s) = Text.lower s.
Proof.
  induction s as [|c s IH]; simpl; [done|].
  by rewrite lower_char_idemp, IH.
Qed.

Lemma append_String c s t : (String c s +:+ t) = String c (s +:+ t).
Proof. reflexivity. Qed.

Lemma append_Empty t : ("" +:+ t) = t.
Proof. reflexivity. Qed.

Lemma string_prefix_app n h :
  String.prefix n h = true ↔ ∃ post, h = n +:+ post.
Proof.
  revert h. induction n as [|a n IH]; intros h.
  - destruct h; simpl; (split; [eauto|done]).
  - destruct h as [|b h]; simpl.
    + split; [done|]. intros [post Hp]. discriminate.
    + destruct (Ascii.ascii_dec a b) as [->|Hne].
      * rewrite IH. split; intros [post Hp]; exists post;
          rewrite append_String in *; congruence.
      * split; [done|]. intros [post Hp]. rewrite append_String in Hp.
        congruence.
Qed.

Lemma py_in_Contains n h : Text.py_in n h = true ↔ Text.Contains n h.
Proof.
  unfold Text.Contains. induction h as [|b h IH].
  - change (Text.py_in n "") with (String.prefix n "" || false).
    rewrite orb_false_r, string_prefix_app. split.
    + intros [post Hp]. by exists EmptyString, post.
    + intros [[|c pre] [post Hp]];
        [rewrite append_Empty in Hp; eauto
        |rewrite append_String in Hp; discriminate].
  - change (Text.py_in n (String b h))
      with (String.prefix n (String b h) || Text.py_in n h).
    rewrite orb_true_iff, string_prefix_app, IH. split.
    + intros [[post Hp]|(pre & post & Hp)].
      * by exists EmptyString, post.
      * exists (String b pre), post. rewrite append_String. by rewrite Hp.
    + intros [[|c pre] [post Hp]].
      * left. rewrite append_Empty in Hp. eauto.
      * right. rewrite append_String in Hp. exists pre, post. congruence.
Qed.

(** ** History search (C8) *)

Lemma search_loop_filter query acc stack :
  ListeningHistoryStack.search_loop query acc stack
  = acc ++ List.filter (ListeningHistoryStack.matches query) stack.
Proof.
  revert acc. induction stack as [|song stack IH]; intros acc; simpl.
  - by rewrite app_nil_r.
  - destruct (ListeningHistoryStack.matches query song); rewrite IH; [|done].
    by rewrite <- app_assoc.
Qed.

(** C8. [search_history] returns exactly the entries whose title or artist
    contains the query when both sides are lowercased, in the order they
    have in the stack (oldest first); the case of the query does not
    matter, so ["ABC"] and ["abc"] give the same result. *)
Theorem search_history_exact (stack : list Song) (query : string) :
  (∀ song, ListeningHistoryStack.matches query song = true
           ↔ Text.Contains (Text.lower query) (Text.lower (title song))
             ∨ Text.Contains (Text.lower query) (Text.lower (artist song)))
  ∧ ListeningHistoryStack.search_history query stack
    = List.filter (ListeningHistoryStack.matches query) stack
  ∧ ListeningHistoryStack.search_history (Text.lower query) stack
    = ListeningHistoryStack.search_history query stack
  ∧ ListeningHistoryStack.search_history "ABC" stack
    = ListeningHistoryStack.search_history "abc" stack.
Proof.
  split; [|split; [|split]].
  - intros song. unfold ListeningHistoryStack.matches.
    by rewrite orb_true_iff, !py_in_Contains.
  - unfold ListeningHistoryStack.search_history. by rewrite search_loop_filter.
  - unfold ListeningHistoryStack.search_history. rewrite !search_loop_filter.
    f_equal. apply List.filter_ext. intros song.
    unfold ListeningHistoryStack.matches. by rewrite lower_idemp.
  - unfold ListeningHistoryStack.search_history. by rewrite !search_loop_filter.
Qed.

(** ** Orchestrator: play (C5) *)

(** C5. When the mixer fails, that is, raises [pygame.error] at load or at
    play, [play_song] returns normally (no exception leaves it), nothing
    is playing afterwards and the history is as before; when both calls
    return, the song is the one playing and it has been pushed on the
    history. *)
Theorem play_song_outcome {M : Type} `{Pygame.Mixer M}
    (song : Song) (p : MusicPlayerStacksQueues.t M) :
  let load := Pygame.music_load (file_path song)
                (MusicPlayerStacksQueues.mixer p) in
  let play := Pygame.music_play load.2 in
  ((load.1 = Pygame.raised Pygame.error
    ∨ load.1 = Pygame.returned ∧ play.1 = Pygame.raised Pygame.error) →
   ∃ p', MusicPlayerStacksQueues.play_song song p = Ok p'
         ∧ MusicPlayerStacksQueues.currently_playing p' = None
         ∧ MusicPlayerStacksQueues.listening_history p'
           = MusicPlayerStacksQueues.listening_history p)
  ∧ ((load.1 = Pygame.returned ∧ play.1 = Pygame.returned) →
     ∃ p', MusicPlayerStacksQueues.play_song song p = Ok p'
           ∧ MusicPlayerStacksQueues.currently_playing p' = Some song
           ∧ MusicPlayerStacksQueues.listening_history p'
             = ListeningHistoryStack.push song
                 (MusicPlayerStacksQueues.listening_history p)).
Proof.
  intros load play. subst play load.
  unfold MusicPlayerStacksQueues.play_song.
  destruct (Pygame.music_load _ _) as [[|[]] m]; simpl;
    destruct (Pygame.music_play m) as [[|[]] m']; simpl;
    (split; [intros [?|[? ?]]|intros [? ?]]); try discriminate; eauto.
Qed.

Lemma play_song_outcome_witness :
  (∃ p', MusicPlayerStacksQueues.play_song Sample.silent
           (MusicPlayerStacksQueues.init ["music/a.mp3"]) = Ok p'
         ∧ MusicPlayerStacksQueues.currently_playing p' = None
         ∧ MusicPlayerStacksQueues.listening_history p' = [])
  ∧ (∃ p', MusicPlayerStacksQueues.play_song Sample.sun
             (MusicPlayerStacksQueues.init []) = Ok p'
           ∧ MusicPlayerStacksQueues.currently_playing p' = Some Sample.sun
           ∧ MusicPlayerStacksQueues.listening_history p' = [Sample.sun]).
Proof.
  split.
  - apply (play_song_outcome Sample.silent
             (MusicPlayerStacksQueues.init ["music/a.mp3"])).
    left. reflexivity.
  - apply (play_song_outcome Sample.sun (MusicPlayerStacksQueues.init [])).
    split; reflexivity.
Defined.

(** ** Catalog: create (C2, C10) *)

(** C2, as the code has it.  [create_playlist] on a name that is already a
    key returns false and changes nothing; on a new name it returns true,
    puts an empty playlist under the name, leaves the other entries alone
    and selects the name.  The description has no effect on the result:
    the catalog has no place to keep it. *)
Theorem create_playlist_spec (name description : string)
    (pm : PlaylistManager.t) :
  (is_Some (PlaylistManager.playlists pm !! name) →
   PlaylistManager.create_playlist name description pm = (false, pm))
  ∧ (PlaylistManager.playlists pm !! name = None →
     ∃ pm', PlaylistManager.create_playlist name description pm = (true, pm')
       ∧ PlaylistManager.playlists pm' !! name = Some LinkedListPlaylist.init
       ∧ (∀ other, other ≠ name →
            PlaylistManager.playlists pm' !! other
            = PlaylistManager.playlists pm !! other)
       ∧ PlaylistManager.current_playlist_name pm' = Some name)
  ∧ (∀ description',
       PlaylistManager.create_playlist name description' pm
       = PlaylistManager.create_playlist name description pm).
Proof.
  unfold PlaylistManager.create_playlist. split; [|split].
  - intros [pl Hpl]. by rewrite Hpl.
  - intros Hnone. rewrite Hnone. eexists. split; [done|]. simpl.
    split; [by rewrite lookup_insert_eq|]. split; [|done].
    intros other Hne. by rewrite lookup_insert_ne.
  - done.
Qed.

Lemma create_playlist_spec_witness :
  PlaylistManager.create_playlist "Road Trip" "for the car"
    (PlaylistManager.mk {["Road Trip" := LinkedListPlaylist.init]} None)
  = (false,
     PlaylistManager.mk {["Road Trip" := LinkedListPlaylist.init]} None)
  ∧ ∃ pm', PlaylistManager.create_playlist "Road Trip" "for the car"
             PlaylistManager.init = (true, pm')
       ∧ PlaylistManager.playlists pm' !! "Road Trip"
         = Some LinkedListPlaylist.init
       ∧ (∀ other, other ≠ "Road Trip" →
            PlaylistManager.playlists pm' !! other
            = PlaylistManager.playlists PlaylistManager.init !! other)
       ∧ PlaylistManager.current_playlist_name pm' = Some "Road Trip".
Proof.
  split.
  - apply (create_playlist_spec "Road Trip" "for the car"
             (PlaylistManager.mk {["Road Trip" := LinkedListPlaylist.init]}
                None)).
    simpl. rewrite lookup_singleton_eq. eauto.
  - apply (create_playlist_spec "Road Trip" "for the car" PlaylistManager.init).
    reflexivity.
Defined.

(** C2 as stated fails: no way of reading the catalog gives back the
    description that [create_playlist] was called with, and the GUI's own
    table of descriptions has no entry for the name after its "Create New"
    callback has created the playlist. *)
Lemma create_playlist_forgets_description :
  (¬ ∃ description_of : PlaylistManager.t → string → option string,
       ∀ description,
         description_of
           (PlaylistManager.create_playlist "Road Trip" description
              PlaylistManager.init).2 "Road Trip"
         = Some description)
  ∧ GUIMusicPlayer.playlist_descriptions
      (GUIMusicPlayer.on_create_new "Road Trip" "for the car"
         (GUIMusicPlayer.mk PlaylistManager.init ∅)) !! "Road Trip" = None.
Proof.
  split; [|reflexivity].
  intros [description_of Hd].
  pose proof (Hd "for the car") as H1. pose proof (Hd "") as H2.
  change (PlaylistManager.create_playlist "Road Trip" "for the car"
            PlaylistManager.init)
    with (PlaylistManager.create_playlist "Road Trip" ""
            PlaylistManager.init) in H1.
  rewrite H1 in H2. discriminate.
Qed.

(** C10. [create_playlist_from_library] with a new name and an empty
    library returns false, and the empty playlist it has created stays in
    the catalog as the current selection. *)
Theorem create_from_empty_library_keeps_playlist (name description : string)
    (max_songs : Z) (pm : PlaylistManager.t) :
  PlaylistManager.playlists pm !! name = None →
  ∃ pm' pl,
    PlaylistManager.create_playlist_from_library name [] max_songs
      description pm = Ok (false, pm')
    ∧ PlaylistManager.playlists pm' !! name = Some pl
    ∧ LinkedListPlaylist.is_empty pl = true
    ∧ LinkedListPlaylist.get_size pl = 0
    ∧ PlaylistManager.current_playlist_name pm' = Some name
    ∧ (∀ other, other ≠ name →
         PlaylistManager.playlists pm' !! other
         = PlaylistManager.playlists pm !! other).
Proof.
  intros Hnone. unfold PlaylistManager.create_playlist_from_library,
    PlaylistManager.create_playlist. rewrite Hnone. simpl.
  eexists _, LinkedListPlaylist.init. split; [done|]. simpl.
  rewrite lookup_insert_eq. repeat split; try done.
  intros other Hne. by rewrite lookup_insert_ne.
Qed.

Lemma create_from_empty_library_witness :
  ∃ pm' pl,
    PlaylistManager.create_playlist_from_library "Road Trip" [] 10 ""
      PlaylistManager.init = Ok (false, pm')
    ∧ PlaylistManager.playlists pm' !! "Road Trip" = Some pl
    ∧ LinkedListPlaylist.is_empty pl = true
    ∧ LinkedListPlaylist.get_size pl = 0
    ∧ PlaylistManager.current_playlist_name pm' = Some "Road Trip"
    ∧ (∀ other, other ≠ "Road Trip" →
         PlaylistManager.playlists pm' !! other
         = PlaylistManager.playlists PlaylistManager.init !! other).
Proof.
  apply (create_from_empty_library_keeps_playlist "Road Trip" "" 10
           PlaylistManager.init).
  reflexivity.
Defined.

(** ** Party queue: order (C1) *)

Section SortFacts.
Context {A : Type} (key : A → Z).

Lemma insert_desc_front y l :
  Forall (λ z, key z ≤ key y) l → PySort.insert_desc key y l = y :: l.
Proof.
  destruct l as [|z l]; [done|]. intros Hall. apply Forall_cons_1 in Hall as [Hz _].
  simpl. destruct (Z.ltb_spec (key y) (key z)); [lia|done].
Qed.

(** One element [x] out of place in front of its slot: the stable sort
    moves it left past the smaller keys and touches nothing else. *)
Lemma sort_desc_one_moved pre x lo :
  StronglySorted (PySort.desc key) (pre ++ lo) →
  Forall (λ z, key z ≤ key x) lo →
  ∃ hi mid, pre = hi ++ mid
    ∧ PySort.sort_desc key (pre ++ x :: lo) = hi ++ x :: mid ++ lo
    ∧ Forall (λ z, key x ≤ key z) hi
    ∧ Forall (λ z, key z < key x) mid.
Proof.
  intros Hsorted Hlo. induction pre as [|y pre IH].
  - exists [], []. simpl. split; [done|]. split; [|by split].
    change (PySort.sort_desc key (x :: lo))
      with (PySort.insert_desc key x (PySort.sort_desc key lo)).
    assert (Hid : PySort.sort_desc key lo = lo).
    { clear Hlo. simpl in Hsorted. induction lo as [|z lo IHlo]; [done|].
      apply StronglySorted_inv in Hsorted as [Hs Hz].
      change (PySort.sort_desc key (z :: lo))
        with (PySort.insert_desc key z (PySort.sort_desc key lo)).
      rewrite IHlo by done. by apply insert_desc_front. }
    rewrite Hid. by apply insert_desc_front.
  - simpl in Hsorted. apply StronglySorted_inv in Hsorted as [Hs Hy].
    destruct (IH Hs) as (hi & mid & -> & Heq & Hhi & Hmid).
    change (PySort.sort_desc key ((y :: hi ++ mid) ++ x :: lo))
      with (PySort.insert_desc key y
              (PySort.sort_desc key ((hi ++ mid) ++ x :: lo))).
    rewrite Heq.
    rewrite !Forall_app in Hy. destruct Hy as [[Hyhi Hymid] Hylo].
    destruct (Z.le_gt_cases (key x) (key y)) as [Hxy|Hyx].
    + exists (y :: hi), mid. split; [done|]. split; [|split; [|done]].
      * rewrite insert_desc_front; [done|].
        rewrite Forall_app, Forall_cons, Forall_app. done.
      * by constructor.
    + assert (hi = []) as ->.
      { destruct hi as [|z hi]; [done|].
        apply Forall_cons_1 in Hhi as [Hz _].
        apply Forall_cons_1 in Hyhi as [Hz' _]. unfold PySort.desc in Hz'. lia. }
      exists [], (y :: mid). split; [done|]. split; [|split; [done|]].
      * simpl. destruct (Z.ltb_spec (key y) (key x)); [|lia].
        rewrite insert_desc_front; [done|]. by rewrite Forall_app.
      * constructor; [lia|done].
Qed.

Lemma StronglySorted_lookup (R : A → A → Prop) l i j x y :
  StronglySorted R l → (i < j)%nat → l !! i = Some x → l !! j = Some y →
  R x y.
Proof.
  intros Hs. revert i j. induction Hs as [|a l Hs IH Ha]; intros i j Hij Hi Hj.
  - done.
  - destruct j as [|j]; [lia|]. simpl in Hj. destruct i as [|i].
    + simpl in Hi. injection Hi as ->.
      rewrite Forall_forall in Ha. apply Ha.
      by eapply list_elem_of_lookup_2.
    + simpl in Hi. apply (IH i j); [lia|done..].
Qed.
End SortFacts.

Section SortIsSorted.
Context {A : Type} (key : A → Z).

Lemma insert_desc_perm x l : PySort.insert_desc key x l ≡ₚ x :: l.
Proof.
  induction l as [|y l IH]; simpl; [done|].
  destruct (key x <? key y); [|done].
  rewrite IH. apply Permutation_swap.
Qed.

Lemma insert_desc_sorted x l :
  StronglySorted (PySort.desc key) l →
  StronglySorted (PySort.desc key) (PySort.insert_desc key x l).
Proof.
  induction 1 as [|y l Hs IH Hy]; simpl.
  - repeat constructor.
  - destruct (Z.ltb_spec (key x) (key y)) as [Hlt|Hge].
    + constructor; [done|]. rewrite insert_desc_perm.
      constructor; [unfold PySort.desc; lia|done].
    + constructor; [by constructor|].
      constructor; [done|].
      eapply Forall_impl; [exact Hy|]. unfold PySort.desc. intros z Hz. lia.
Qed.

Lemma sort_desc_sorted l : StronglySorted (PySort.desc key) (PySort.sort_desc key l).
Proof.
  induction l as [|x l IH]; simpl; [constructor|].
  by apply insert_desc_sorted.
Qed.

Lemma sort_desc_perm l : PySort.sort_desc key l ≡ₚ l.
Proof.
  induction l as [|x l IH]; simpl; [done|].
  by rewrite insert_desc_perm, IH.
Qed.
End SortIsSorted.

Section SortMap.
Context {A B : Type} (f : A → B) (keyA : A → Z) (keyB : B → Z).
Hypothesis key_f : ∀ a, keyB (f a) = keyA a.

Lemma insert_desc_fmap x l :
  PySort.insert_desc keyB (f x) (f <$> l) = f <$> PySort.insert_desc keyA x l.
Proof.
  induction l as [|y l IH]; csimpl; [done|].
  rewrite !key_f. destruct (keyA x <? keyA y); csimpl; [|done].
  by rewrite IH.
Qed.

Lemma sort_desc_fmap l :
  PySort.sort_desc keyB (f <$> l) = f <$> PySort.sort_desc keyA l.
Proof.
  induction l as [|x l IH]; [done|].
  change (PySort.sort_desc keyB (f <$> x :: l))
    with (PySort.insert_desc keyB (f x) (PySort.sort_desc keyB (f <$> l))).
  by rewrite IH, insert_desc_fmap.
Qed.
End SortMap.

Section PartyQueueFacts.
Context {E : Type} (title_of : E → string).

Abbreviation pkey := (@snd E Z).

Lemma enqueue_sorted song priority (queue : list (E * Z)) :
  StronglySorted (PySort.desc pkey) (PriorityQueueOver.enqueue song priority queue).
Proof. apply sort_desc_sorted. Qed.

Lemma enqueue_split song priority (queue : list (E * Z)) :
  StronglySorted (PySort.desc pkey) queue →
  ∃ hi lo, queue = hi ++ lo
    ∧ PriorityQueueOver.enqueue song priority queue
      = hi ++ (song, priority) :: lo
    ∧ Forall (λ e, priority ≤ e.2) hi
    ∧ Forall (λ e, e.2 < priority) lo.
Proof.
  intros Hs.
  destruct (sort_desc_one_moved pkey queue (song, priority) [])
    as (hi & mid & -> & Heq & Hhi & Hmid); [by rewrite app_nil_r|done|].
  exists hi, mid. unfold PriorityQueueOver.enqueue.
  rewrite Heq, app_nil_r. done.
Qed.

Lemma upvote_loop_spec song_title (pre rest : list (E * Z)) :
  Forall (λ e, Text.eq_nocase (title_of e.1) song_title = false) pre →
  (Forall (λ e, Text.eq_nocase (title_of e.1) song_title = false) rest
   ∧ PriorityQueueOver.upvote_loop title_of song_title (pre ++ rest)
       (length pre) rest = (false, pre ++ rest))
  ∨ (∃ mid s p lo, rest = mid ++ (s, p) :: lo
     ∧ Forall (λ e, Text.eq_nocase (title_of e.1) song_title = false)
         (pre ++ mid)
     ∧ Text.eq_nocase (title_of s) song_title = true
     ∧ PriorityQueueOver.upvote_loop title_of song_title (pre ++ rest)
         (length pre) rest
       = (true, PySort.sort_desc pkey ((pre ++ mid) ++ (s, p + 1) :: lo))).
Proof.
  revert pre. induction rest as [|[s p] rest IH]; intros pre Hpre.
  - left. by split.
  - simpl. destruct (Text.eq_nocase (title_of s) song_title) eqn:Hm.
    + right. exists [], s, p, rest. rewrite app_nil_r.
      split; [done|]. split; [done|]. split; [done|].
      do 2 f_equal.
      rewrite insert_app_r_alt, Nat.sub_diag by lia. done.
    + specialize (IH (pre ++ [(s, p)])).
      rewrite length_app, Nat.add_1_r, <- app_assoc in IH. simpl in IH.
      destruct IH as [[Hrest Heq]|(mid & s' & p' & lo & -> & Hno & Hs & Heq)].
      * rewrite Forall_app. split; [done|]. by repeat constructor.
      * left. split; [by constructor|done].
      * right. exists ((s, p) :: mid), s', p', lo.
        rewrite <- !app_assoc in *. simpl in *. done.
Qed.

Lemma upvote_sorted song_title (queue : list (E * Z)) :
  StronglySorted (PySort.desc pkey) queue →
  StronglySorted (PySort.desc pkey)
    (PriorityQueueOver.upvote title_of song_title queue).2.
Proof.
  intros Hs. unfold PriorityQueueOver.upvote.
  destruct (upvote_loop_spec song_title [] queue) as
    [[_ Heq]|(mid & s & p & lo & -> & _ & _ & Heq)]; [done|..];
    simpl in Heq; rewrite Heq; simpl; [done|].
  apply sort_desc_sorted.
Qed.

(** A successful upvote moves the first title match to the end of its
    new priority class and keeps everything else in place. *)
Lemma upvote_moves song_title (queue queue' : list (E * Z)) :
  StronglySorted (PySort.desc pkey) queue →
  PriorityQueueOver.upvote title_of song_title queue = (true, queue') →
  ∃ hi mid s p lo,
    queue = hi ++ mid ++ (s, p) :: lo
    ∧ queue' = hi ++ (s, p + 1) :: mid ++ lo
    ∧ Forall (λ e, p + 1 ≤ e.2) hi
    ∧ Forall (λ e, e.2 = p) mid
    ∧ Text.eq_nocase (title_of s) song_title = true
    ∧ Forall (λ e, Text.eq_nocase (title_of e.1) song_title = false)
        (hi ++ mid).
Proof.
  intros Hs. unfold PriorityQueueOver.upvote.
  destruct (upvote_loop_spec song_title [] queue) as
    [[_ Heq]|(pre & s & p & lo & -> & Hno & Hm & Heq)]; [done|..];
    simpl in Heq; rewrite Heq; [done|].
  intros [= <-]. simpl in Hno.
  apply StronglySorted_app in Hs as Hparts.
  destruct Hparts as (Hpre_lo & Hpre & Htail).
  apply StronglySorted_inv in Htail as [Hlo Hplo].
  destruct (sort_desc_one_moved pkey pre (s, p + 1) lo)
    as (hi & mid & -> & Hsort & Hhi & Hmid).
  - apply StronglySorted_app. split; [|done].
    intros x y Hx Hy. apply Hpre_lo; [done|]. by right.
  - eapply Forall_impl; [exact Hplo|]. unfold PySort.desc. simpl. intros z Hz. lia.
  - exists hi, mid, s, p, lo. rewrite <- app_assoc.
    split; [done|]. split; [done|]. split; [done|]. split; [|done].
    rewrite Forall_forall in Hmid |- *. intros e He.
    specialize (Hmid e He). simpl in Hmid.
    assert (PySort.desc pkey e (s, p)) as Hd.
    { apply Hpre_lo; [|by left]. apply elem_of_app. by right. }
    unfold PySort.desc in Hd. simpl in Hd. lia.
Qed.
End PartyQueueFacts.

Lemma StronglySorted_weaken {A} (R R' : A → A → Prop) l :
  (∀ x y, R x y → R' x y) → StronglySorted R l → StronglySorted R' l.
Proof.
  intros HR. induction 1 as [|x l Hs IH Hx]; constructor; [done|].
  eapply Forall_impl; [exact Hx|]. intros y. apply HR.
Qed.

Import PartyTrace.

Lemma run_tagged_from_sorted calls k queue :
  StronglySorted (PySort.desc snd) queue →
  StronglySorted (PySort.desc snd) (run_tagged_from k calls queue).
Proof.
  revert k queue. induction calls as [|[song priority|song_title] calls IH];
    intros k queue Hs; simpl; [done|..]; apply IH.
  - apply enqueue_sorted.
  - by apply upvote_sorted.
Qed.

(** Forgetting the tags gives the run on the real queue. *)
Lemma upvote_loop_untag song_title queue i rest :
  PriorityQueueOver.upvote_loop title song_title (untag <$> queue) i
    (untag <$> rest)
  = prod_map id (fmap untag)
      (PriorityQueueOver.upvote_loop tagged_title song_title queue i rest).
Proof.
  revert i. induction rest as [|[[s n] p] rest IH]; intros i; [done|].
  csimpl. unfold tagged_title at 1. simpl.
  destruct (Text.eq_nocase (title s) song_title); [|apply IH].
  unfold prod_map. simpl. f_equal.
  rewrite <- (sort_desc_fmap untag snd snd) by (by intros [[] ?]).
  f_equal. by rewrite list_fmap_insert.
Qed.

Lemma run_tagged_from_untag calls k queue :
  untag <$> run_tagged_from k calls queue = run_from calls (untag <$> queue).
Proof.
  revert k queue. induction calls as [|[song priority|song_title] calls IH];
    intros k queue; simpl; [done|..]; rewrite IH; f_equal.
  - unfold PrioritySongQueue.enqueue, PriorityQueueOver.enqueue.
    rewrite <- (sort_desc_fmap untag snd snd) by (by intros [[] ?]).
    by rewrite fmap_app.
  - unfold PrioritySongQueue.upvote, PriorityQueueOver.upvote.
    rewrite upvote_loop_untag.
    by destruct (PriorityQueueOver.upvote_loop _ _ _ _ _).
Qed.

Lemma run_enqueues_ordered calls k queue :
  forallb is_enqueue calls = true →
  Forall (λ e, (tag e < k)%nat) queue →
  StronglySorted by_priority_then_tag queue →
  StronglySorted by_priority_then_tag (run_tagged_from k calls queue).
Proof.
  revert k queue. induction calls as [|[song priority|song_title] calls IH];
    intros k queue Hall Hk Hs; simpl in *; [done| |done].
  assert (StronglySorted (PySort.desc snd) queue) as Hd.
  { eapply StronglySorted_weaken; [|exact Hs]. by intros x y [? _]. }
  destruct (enqueue_split (song, k) priority queue Hd)
    as (hi & lo & -> & -> & Hhi & Hlo).
  apply Forall_app in Hk as [Hkhi Hklo].
  apply StronglySorted_app in Hs as (Hcross & Hshi & Hslo).
  apply IH; [done|..].
  - rewrite Forall_app, Forall_cons. unfold tag in *. simpl.
    split; [|split; [lia|]].
    + eapply Forall_impl; [exact Hkhi|]. simpl. intros. lia.
    + eapply Forall_impl; [exact Hklo|]. simpl. intros. lia.
  - apply StronglySorted_app. split; [|split; [done|]].
    + intros x y Hx Hy. apply elem_of_cons in Hy as [->|Hy]; [|by apply Hcross].
      rewrite Forall_forall in Hhi, Hkhi.
      specialize (Hhi x Hx). specialize (Hkhi x Hx).
      unfold by_priority_then_tag, prio, tag in *. simpl. split; [exact Hhi|done].
    + constructor; [done|].
      eapply Forall_impl; [exact Hlo|]. intros [[s n] p] Hy.
      unfold by_priority_then_tag, prio. simpl in *. lia.
Qed.

(** C1, as the code has it.  After any sequence of [enqueue] and [upvote]
    calls from the empty queue the stored sequence is non-increasing by
    priority.  Entries of equal priority are in insertion order when the
    sequence has enqueues only.  A successful upvote moves the first entry
    whose title matches to the end of its new priority class, behind the
    entries that already have that priority, and keeps the order of all
    the others. *)
Theorem party_queue_order (calls : list call) :
  let queue := run_tagged calls in
  untag <$> queue = run calls
  ∧ (∀ i j x y, (i < j)%nat → queue !! i = Some x → queue !! j = Some y →
       prio y ≤ prio x)
  ∧ (forallb is_enqueue calls = true →
     ∀ i j x y, (i < j)%nat → queue !! i = Some x → queue !! j = Some y →
       prio x = prio y → (tag x < tag y)%nat)
  ∧ (∀ song_title queue',
       PriorityQueueOver.upvote tagged_title song_title queue = (true, queue') →
       ∃ hi mid s p lo,
         queue = hi ++ mid ++ (s, p) :: lo
         ∧ queue' = hi ++ (s, p + 1) :: mid ++ lo
         ∧ Forall (λ e, p + 1 ≤ prio e) hi
         ∧ Forall (λ e, prio e = p) mid
         ∧ Text.eq_nocase (tagged_title s) song_title = true
         ∧ Forall (λ e, Text.eq_nocase (tagged_title e.1) song_title = false)
             (hi ++ mid)).
Proof.
  intros queue. subst queue. unfold run_tagged, run.
  assert (StronglySorted (PySort.desc snd) (run_tagged_from 0 calls [])) as Hs
    by (apply run_tagged_from_sorted; constructor).
  split; [|split; [|split]].
  - by rewrite run_tagged_from_untag.
  - intros i j x y Hij Hi Hj.
    exact (StronglySorted_lookup _ _ i j x y Hs Hij Hi Hj).
  - intros Hall i j x y Hij Hi Hj.
    assert (StronglySorted by_priority_then_tag (run_tagged_from 0 calls []))
      as Ht by (apply run_enqueues_ordered; [done|constructor..]).
    by destruct (StronglySorted_lookup _ _ i j x y Ht Hij Hi Hj).
  - intros song_title queue' Hup. by apply upvote_moves.
Qed.

Lemma party_queue_order_witness :
  run_tagged [Enqueue Sample.sun 0; Enqueue Sample.moon 0;
              Enqueue Sample.star 5]
  = [((Sample.star, 2%nat), 5); ((Sample.sun, 0%nat), 0);
     ((Sample.moon, 1%nat), 0)]
  ∧ ∀ i j x y, (i < j)%nat →
      run_tagged [Enqueue Sample.sun 0; Enqueue Sample.moon 0;
                  Enqueue Sample.star 5] !! i = Some x →
      run_tagged [Enqueue Sample.sun 0; Enqueue Sample.moon 0;
                  Enqueue Sample.star 5] !! j = Some y →
      prio x = prio y → (tag x < tag y)%nat.
Proof.
  split; [reflexivity|].
  apply (party_queue_order
           [Enqueue Sample.sun 0; Enqueue Sample.moon 0; Enqueue Sample.star 5]).
  reflexivity.
Defined.

(** C1 as stated fails: an upvote puts an entry behind one that was
    enqueued after it.  Sun is enqueued first at priority 0, Moon second at
    priority 1; after upvoting Sun both have priority 1 and Moon, the later
    insertion, is stored first. *)
Lemma upvote_breaks_insertion_order :
  let queue := run_tagged [Enqueue Sample.sun 0; Enqueue Sample.moon 1;
                           Upvote "sun"] in
  queue = [((Sample.moon, 1%nat), 1); ((Sample.sun, 0%nat), 1)]
  ∧ ¬ (∀ i j x y, (i < j)%nat → queue !! i = Some x → queue !! j = Some y →
         prio x = prio y → (tag x < tag y)%nat).
Proof.
  split; [reflexivity|].
  intros Hord.
  specialize (Hord 0%nat 1%nat _ _ ltac:(lia) eq_refl eq_refl eq_refl).
  unfold tag in Hord. simpl in Hord. lia.
Qed.

(** ** Playlists: doubly-linked chains in the arena *)

Import LinkedListPlaylist Shape.

Lemma node_at_lookup h a n : h !! a = Some n → node_at h a = Ok n.
Proof. unfold node_at. by intros ->. Qed.

Lemma set_next_lookup h a n v :
  h !! a = Some n →
  set_next h a v = Ok (<[a := mkNode (song_data n) v (previous n)]> h).
Proof. intros Hn. unfold set_next. by rewrite (node_at_lookup _ _ _ Hn). Qed.

Lemma set_previous_lookup h a n v :
  h !! a = Some n →
  set_previous h a v = Ok (<[a := mkNode (song_data n) (next n) v]> h).
Proof. intros Hn. unfold set_previous. by rewrite (node_at_lookup _ _ _ Hn). Qed.

Lemma first_app l1 l2 q : first (l1 ++ l2) q = first l1 (first l2 q).
Proof. by destruct l1. Qed.

Lemma lastp_app p l1 l2 : lastp p (l1 ++ l2) = lastp (lastp p l1) l2.
Proof. revert p. induction l1 as [|e l1 IH]; intros p; simpl; [done|apply IH]. Qed.

Lemma lastp_snoc p l e : lastp p (l ++ [e]) = Some e.1.
Proof. by rewrite lastp_app. Qed.

Lemma lastp_elem p l a : lastp p l = Some a → p = Some a ∨ a ∈ l.*1.
Proof.
  revert p. induction l as [|e l IH]; intros p; simpl; [by left|].
  intros Hl. right. destruct (IH _ Hl) as [[= ->]|Hin]; [left|by right].
Qed.

Lemma dseg_bound h p l q :
  dseg h p l q → Forall (λ e, (e.1 < length h)%nat) l.
Proof.
  revert p. induction l as [|e l IH]; intros p; simpl; [done|].
  intros [He Hl]. constructor; [by eapply lookup_lt_Some|by eapply IH].
Qed.

Lemma dseg_fresh h p l q : dseg h p l q → length h ∉ l.*1.
Proof.
  intros Hd Hin. apply dseg_bound in Hd. rewrite Forall_forall in Hd.
  apply list_elem_of_fmap in Hin as (e & Heq & He). specialize (Hd e He). lia.
Qed.

Lemma dseg_alloc h n p l q : dseg h p l q → dseg (h ++ [n]) p l q.
Proof.
  revert p. induction l as [|e l IH]; intros p; simpl; [done|].
  intros [He Hl]. split; [|by apply IH].
  by apply lookup_app_l_Some.
Qed.

Lemma dseg_frame h a n p l q :
  a ∉ l.*1 → dseg h p l q → dseg (<[a := n]> h) p l q.
Proof.
  revert p. induction l as [|e l IH]; intros p; simpl; [done|].
  intros Hnot [He Hl]. apply not_elem_of_cons in Hnot as [Hne Hnot].
  split; [|by apply IH]. by rewrite list_lookup_insert_ne.
Qed.

Lemma dseg_app h p l1 l2 q :
  dseg h p (l1 ++ l2) q
  ↔ dseg h p l1 (first l2 q) ∧ dseg h (lastp p l1) l2 q.
Proof.
  revert p. induction l1 as [|e l1 IH]; intros p; simpl.
  - tauto.
  - rewrite IH, first_app. tauto.
Qed.

(** Redirecting the [next] link of the last node of a chain. *)
Lemma dseg_set_q h p l e q q' :
  dseg h p (l ++ [e]) q → NoDup (l ++ [e]).*1 →
  dseg (<[e.1 := mkNode e.2 q' (lastp p l)]> h) p (l ++ [e]) q'.
Proof.
  intros Hd Hnd. apply dseg_app in Hd as [Hl [He _]]. simpl in *.
  rewrite fmap_app in Hnd. apply NoDup_app in Hnd as (_ & Hdisj & _).
  apply dseg_app. simpl. split; [|split; [|done]].
  - apply dseg_frame; [|done]. intros Hin. apply (Hdisj _ Hin). by left.
  - apply list_lookup_insert_eq. by eapply lookup_lt_Some.
Qed.

(** Redirecting the [previous] link of the first node of a chain. *)
Lemma dseg_set_p h p p' l e q :
  dseg h p (e :: l) q → NoDup (e :: l).*1 →
  dseg (<[e.1 := mkNode e.2 (first l q) p']> h) p' (e :: l) q.
Proof.
  simpl. intros [He Hl] Hnd. apply NoDup_cons in Hnd as [Hnot _]. split.
  - apply list_lookup_insert_eq. by eapply lookup_lt_Some.
  - by apply dseg_frame.
Qed.

Lemma walk_next_dseg fuel h p l :
  dseg h p l None → (length l < fuel)%nat →
  walk next fuel h (first l None) = Ok l.
Proof.
  revert fuel p. induction l as [|[a s] l IH]; intros fuel p Hd Hf.
  - by destruct fuel.
  - destruct fuel as [|fuel]; simpl in Hf; [lia|].
    destruct Hd as [He Hl]. simpl in *.
    rewrite (node_at_lookup _ _ _ He). simpl.
    rewrite (IH fuel (Some a)) by (done || lia). done.
Qed.

Lemma walk_previous_dseg fuel h l q :
  dseg h None l q → (length l < fuel)%nat →
  walk previous fuel h (lastp None l) = Ok (reverse l).
Proof.
  revert fuel q. induction l as [|[a s] l IH] using rev_ind; intros fuel q Hd Hf.
  - by destruct fuel.
  - rewrite length_app in Hf. simpl in Hf.
    destruct fuel as [|fuel]; [lia|].
    apply dseg_app in Hd as [Hl [He _]]. simpl in *.
    rewrite lastp_snoc. simpl.
    rewrite (node_at_lookup _ _ _ He). simpl.
    rewrite (IH fuel (Some a)) by (done || lia). simpl.
    by rewrite reverse_snoc.
Qed.

Lemma find_title_dseg fuel song_title h p l :
  dseg h p l None → (length l < fuel)%nat →
  (no_match song_title l →
   find_title fuel song_title h (first l None) = Ok None)
  ∧ (∀ l1 e l2, l = l1 ++ e :: l2 → no_match song_title l1 →
       Text.eq_nocase (title e.2) song_title = true →
       find_title fuel song_title h (first l None) = Ok (Some e.1)).
Proof.
  revert fuel p. induction l as [|[a s] l IH]; intros fuel p Hd Hf.
  - split; [by destruct fuel|]. by intros [|] ? ? ?.
  - destruct fuel as [|fuel]; simpl in Hf; [lia|].
    destruct Hd as [He Hl]. simpl in He, Hl |- *.
    rewrite (node_at_lookup _ _ _ He). simpl.
    destruct (IH fuel (Some a)) as [IHno IHfound]; [done|lia|]. split.
    + intros Hno. apply Forall_cons_1 in Hno as [Hs Hno]. simpl in Hs.
      rewrite Hs. by apply IHno.
    + intros [|e1 l1] e l2 Heq Hno Hm.
      * simpl in Heq. injection Heq as <- <-. simpl in Hm. by rewrite Hm.
      * simpl in Heq. injection Heq as <- ->.
        apply Forall_cons_1 in Hno as [Hs Hno]. simpl in Hs. rewrite Hs.
        by apply (IHfound l1 e l2).
Qed.

(** Each title loop is the shared scan followed by the loop's own body at
    the node the scan stops on. *)
Lemma insert_after_loop_find fuel target song pl current :
  insert_after_loop fuel target song pl current
  = (r ← find_title fuel target (nodes pl) current;
     match r with
     | None => Ok (false, pl)
     | Some c => insert_after_loop 1 target song pl (Some c)
     end).
Proof.
  revert current. induction fuel as [|fuel IH]; intros [cur|]; simpl; try done.
  destruct (node_at (nodes pl) cur) as [n| |] eqn:Hn; simpl; try done.
  destruct (Text.eq_nocase (title (song_data n)) target) eqn:Hm; simpl.
  - rewrite Hn. simpl. by rewrite Hm.
  - apply IH.
Qed.

Lemma insert_before_loop_find fuel target song pl current :
  insert_before_loop fuel target song pl current
  = (r ← find_title fuel target (nodes pl) current;
     match r with
     | None => Ok (false, pl)
     | Some c => insert_before_loop 1 target song pl (Some c)
     end).
Proof.
  revert current. induction fuel as [|fuel IH]; intros [cur|]; simpl; try done.
  destruct (node_at (nodes pl) cur) as [n| |] eqn:Hn; simpl; try done.
  destruct (Text.eq_nocase (title (song_data n)) target) eqn:Hm; simpl.
  - rewrite Hn. simpl. by rewrite Hm.
  - apply IH.
Qed.

Lemma remove_loop_find fuel song_title pl current :
  remove_loop fuel song_title pl current
  = (r ← find_title fuel song_title (nodes pl) current;
     match r with
     | None => Ok (false, pl)
     | Some c => remove_loop 1 song_title pl (Some c)
     end).
Proof.
  revert current. induction fuel as [|fuel IH]; intros [cur|]; simpl; try done.
  destruct (node_at (nodes pl) cur) as [n| |] eqn:Hn; simpl; try done.
  destruct (Text.eq_nocase (title (song_data n)) song_title) eqn:Hm; simpl.
  - rewrite Hn. simpl. by rewrite Hm.
  - apply IH.
Qed.

Lemma wf_is_empty pl l : wf pl l → is_empty pl = bool_decide (l = []).
Proof.
  intros (_ & _ & Hh & _). unfold is_empty. rewrite Hh.
  by destruct l.
Qed.

Lemma wf_init : wf init [].
Proof. repeat split. constructor. Qed.

(** *** Adding at either end *)

Lemma add_song_at_end_wf song pl l :
  wf pl l →
  ∃ pl', add_song_at_end song pl = Ok pl'
    ∧ wf pl' (l ++ [(length (nodes pl), song)])
    ∧ current_node pl'
      = (if bool_decide (l = []) then Some (length (nodes pl))
         else current_node pl)
    ∧ length (nodes pl') = S (length (nodes pl)).
Proof.
  intros Hwf. pose proof (wf_is_empty _ _ Hwf) as Hemp.
  destruct Hwf as (Hd & Hnd & Hh & Ht & Hs).
  unfold add_song_at_end. rewrite Hemp.
  pose proof (dseg_fresh _ _ _ _ Hd) as Hfresh.
  destruct l as [|e0 l0] using rev_ind.
  - simpl. eexists. split; [done|]. simpl. split; [|by rewrite length_app, Nat.add_1_r].
    split; [|split; [|split; [|split]]]; simpl; try done.
    + split; [|done]. by rewrite lookup_app_r, Nat.sub_diag.
    + apply NoDup_singleton.
    + simpl in Hs. lia.
  - clear IHl0. rewrite bool_decide_eq_false_2 by (by destruct l0).
    set (a := length (nodes pl)) in *.
    rewrite lastp_snoc in Ht. rewrite Ht. simpl.
    assert (Hnew : (nodes pl ++ [mkNode song None None]) !! a
                   = Some (mkNode song None None))
      by (by rewrite lookup_app_r, Nat.sub_diag).
    rewrite (set_previous_lookup _ _ _ _ Hnew). simpl.
    pose proof (dseg_alloc _ (mkNode song None None) _ _ _ Hd) as Hd1.
    pose proof Hd1 as Hd1'. apply dseg_app in Hd1' as [_ [He0 _]]. simpl in He0.
    assert (Hne : e0.1 ≠ a).
    { intros Heq. apply Hfresh. rewrite fmap_app, elem_of_app. right.
      rewrite <- Heq. by left. }
    rewrite (set_next_lookup _ _ (mkNode e0.2 None (lastp None l0)))
      by (by rewrite list_lookup_insert_ne).
    simpl. eexists. split; [done|]. simpl.
    split; [|split; [done|by rewrite !length_insert, length_app, Nat.add_1_r]].
    split; [|split; [|split; [|split]]]; simpl.
    + apply dseg_app. split.
      * simpl. apply (dseg_set_q _ _ _ e0 None (Some a)); [|done].
        by apply dseg_frame.
      * simpl. rewrite lastp_snoc. split; [|done].
        rewrite list_lookup_insert_ne by done.
        apply list_lookup_insert_eq. rewrite length_app. simpl. lia.
    + rewrite fmap_app. apply NoDup_app. split; [done|]. split.
      * intros x Hx Hin. apply list_elem_of_singleton in Hin as ->. done.
      * apply NoDup_singleton.
    + rewrite Hh. by rewrite !first_app.
    + by rewrite lastp_snoc.
    + rewrite !length_app in *. simpl in *. lia.
Qed.

Lemma add_song_at_beginning_wf song pl l :
  wf pl l →
  ∃ pl', add_song_at_beginning song pl = Ok pl'
    ∧ wf pl' ((length (nodes pl), song) :: l)
    ∧ current_node pl'
      = (if bool_decide (l = []) then Some (length (nodes pl))
         else current_node pl)
    ∧ length (nodes pl') = S (length (nodes pl)).
Proof.
  intros Hwf. pose proof (wf_is_empty _ _ Hwf) as Hemp.
  destruct Hwf as (Hd & Hnd & Hh & Ht & Hs).
  unfold add_song_at_beginning. rewrite Hemp.
  pose proof (dseg_fresh _ _ _ _ Hd) as Hfresh.
  set (a := length (nodes pl)) in *.
  assert (Hnew : (nodes pl ++ [mkNode song None None]) !! a
                 = Some (mkNode song None None))
    by (by rewrite lookup_app_r, Nat.sub_diag).
  destruct l as [|e0 l0].
  - simpl. eexists. split; [done|]. simpl.
    split; [|by rewrite length_app, Nat.add_1_r].
    split; [|split; [|split; [|split]]]; simpl; try done.
    + apply NoDup_singleton.
    + simpl in Hs. lia.
  - rewrite bool_decide_eq_false_2 by done.
    simpl in Hh. rewrite Hh. simpl.
    rewrite (set_next_lookup _ _ _ _ Hnew). simpl.
    pose proof (dseg_alloc _ (mkNode song None None) _ _ _ Hd) as Hd1.
    assert (Hne : e0.1 ≠ a).
    { intros Heq. apply Hfresh. rewrite <- Heq. by left. }
    pose proof Hd1 as [He0 _]. simpl in He0.
    rewrite (set_previous_lookup _ _ (mkNode e0.2 (first l0 None) None))
      by (by rewrite list_lookup_insert_ne).
    simpl. eexists. split; [done|]. simpl.
    split; [|split; [done|by rewrite !length_insert, length_app, Nat.add_1_r]].
    split; [|split; [|split; [|split]]]; simpl.
    + split.
      * rewrite list_lookup_insert_ne by done.
        apply list_lookup_insert_eq. rewrite length_app. simpl. lia.
      * apply (dseg_set_p _ None (Some a) l0 e0 None); [|done].
        by apply dseg_frame.
    + apply NoDup_cons. done.
    + done.
    + by rewrite Ht.
    + simpl in Hs. lia.
Qed.

(** *** Splicing a node in *)

Lemma insert_after_splice target song pl l1 e l2 :
  wf pl (l1 ++ e :: l2) →
  Text.eq_nocase (title e.2) target = true →
  ∃ pl', insert_after_loop 1 target song pl (Some e.1) = Ok (true, pl')
    ∧ wf pl' (l1 ++ e :: (length (nodes pl), song) :: l2)
    ∧ current_node pl' = current_node pl
    ∧ length (nodes pl') = S (length (nodes pl)).
Proof.
  intros (Hd & Hnd & Hh & Ht & Hs) Hm.
  pose proof (dseg_fresh _ _ _ _ Hd) as Hfresh.
  set (a := length (nodes pl)) in *.
  pose proof Hd as Hparts. apply dseg_app in Hparts as [Hl1 [He Hl2]].
  simpl in He, Hl2.
  simpl. rewrite (node_at_lookup _ _ _ He). simpl. rewrite Hm.
  set (new := mkNode song (first l2 None) (Some e.1)).
  assert (Hnew : (nodes pl ++ [new]) !! a = Some new)
    by (by rewrite lookup_app_r, Nat.sub_diag).
  assert (Hne : e.1 ≠ a).
  { intros Heq. apply Hfresh. rewrite fmap_app, elem_of_app. right.
    rewrite <- Heq. by left. }
  assert (Hnd' : NoDup (l1 ++ [e]).*1 ∧ NoDup l2.*1
                 ∧ ∀ x, x ∈ (l1 ++ [e]).*1 → x ∉ l2.*1).
  { rewrite (cons_middle e l1 l2), app_assoc, fmap_app in Hnd.
    apply NoDup_app in Hnd. tauto. }
  destruct Hnd' as (Hnd1 & Hnd2 & Hdisj).
  assert (Hal2 : a ∉ l2.*1).
  { intros Hin. apply Hfresh. rewrite fmap_app, elem_of_app. right. by right. }
  assert (Hal1 : a ∉ (l1 ++ [e]).*1).
  { intros Hin. apply Hfresh. rewrite (cons_middle e l1 l2), app_assoc, fmap_app.
    rewrite elem_of_app. by left. }
  assert (Hseg1 : dseg (nodes pl ++ [new]) None (l1 ++ [e]) (first l2 None)).
  { apply dseg_alloc. apply dseg_app. simpl. done. }
  assert (Hseg2 : dseg (nodes pl ++ [new]) (Some e.1) l2 None)
    by (by apply dseg_alloc).
  assert (Hlen : length (nodes pl ++ [new]) = S a)
    by (rewrite length_app; simpl; lia).
  destruct l2 as [|d l2].
  - simpl.
    rewrite (set_next_lookup _ _ (mkNode e.2 None (lastp None l1)))
      by (by apply lookup_app_l_Some).
    simpl. eexists. split; [done|]. simpl.
    split; [|split; [done|by rewrite length_insert]].
    split; [|split; [|split; [|split]]]; simpl.
    + rewrite (cons_middle e l1 [_]), app_assoc. apply dseg_app. split.
      * simpl. by apply (dseg_set_q _ _ _ e None (Some a)).
      * simpl. rewrite lastp_snoc. split; [|done].
        rewrite list_lookup_insert_ne by done. done.
    + rewrite (cons_middle e l1 [_]), app_assoc, fmap_app.
      apply NoDup_app. split; [done|]. split; [|apply NoDup_singleton].
      intros x Hx Hin. apply list_elem_of_singleton in Hin as ->. done.
    + rewrite Hh. by rewrite !first_app.
    + by rewrite lastp_app.
    + rewrite !length_app in *. simpl in *. lia.
  - simpl in Hseg2. destruct Hseg2 as [Hdn Hseg2]. simpl.
    assert (Hda : d.1 ≠ a).
    { intros Heq. apply Hal2. rewrite <- Heq. by left. }
    assert (Hde : d.1 ≠ e.1).
    { intros Heq. apply (Hdisj e.1).
      - rewrite fmap_app, elem_of_app. right. by left.
      - rewrite <- Heq. by left. }
    rewrite (set_previous_lookup _ _ _ _ Hdn). simpl.
    rewrite (set_next_lookup _ _ (mkNode e.2 (Some d.1) (lastp None l1))).
    2:{ rewrite list_lookup_insert_ne by done. by apply lookup_app_l_Some. }
    simpl. eexists. split; [done|]. simpl.
    split; [|split; [done|by rewrite !length_insert]].
    split; [|split; [|split; [|split]]]; simpl.
    + rewrite (cons_middle e l1 (_ :: _)), app_assoc. apply dseg_app. split.
      * simpl. apply (dseg_set_q _ _ _ e (Some d.1) (Some a)); [|done].
        apply dseg_frame; [|done]. intros Hin. by apply (Hdisj d.1 Hin); left.
      * assert (Htail : dseg
                 (<[e.1 := mkNode e.2 (Some a) (lastp None l1)]>
                    (<[d.1 := mkNode d.2 (first l2 None) (Some a)]>
                       (nodes pl ++ [new])))
                 (Some a) (d :: l2) None).
        { apply dseg_frame.
          { intros Hin. apply (Hdisj e.1); [|done].
            rewrite fmap_app, elem_of_app. right. by left. }
          apply (dseg_set_p _ (Some e.1) (Some a) l2 d None); [|done].
          simpl. done. }
        simpl. rewrite lastp_snoc. split; [|exact Htail].
        rewrite !list_lookup_insert_ne by done. done.
    + rewrite (cons_middle e l1 (_ :: _)), app_assoc, fmap_app.
      apply NoDup_app. split; [done|]. split.
      * intros x Hx Hin. apply elem_of_cons in Hin as [->|Hin]; [done|].
        by apply (Hdisj x).
      * simpl. apply NoDup_cons. done.
    + rewrite Hh. by rewrite !first_app.
    + rewrite Ht. rewrite !lastp_app. done.
    + rewrite !length_app in *. simpl in *. lia.
Qed.

Lemma dseg_agree h h' p l q :
  (∀ b, b ∈ l.*1 → h' !! b = h !! b) → dseg h p l q → dseg h' p l q.
Proof.
  revert p. induction l as [|e l IH]; intros p Hag; simpl; [done|].
  intros [He Hl]. split.
  - rewrite Hag; [done|]. by left.
  - apply IH; [|done]. intros b Hb. apply Hag. by right.
Qed.

Lemma lastp_None l : lastp None l = None → l = [].
Proof.
  destruct l as [|e l] using rev_ind; [done|]. by rewrite lastp_snoc.
Qed.

Lemma lastp_nonempty p p' l : l ≠ [] → lastp p l = lastp p' l.
Proof.
  destruct l as [|e l] using rev_ind; [done|]. by rewrite !lastp_snoc.
Qed.

(** Pointing the last node of a chain at [q'], the way the source does it:
    only when there is such a node. *)
Lemma relink_q h p l q q' :
  dseg h p l q → NoDup l.*1 →
  ∃ h', match lastp None l with
        | Some d => set_next h d q'
        | None => Ok h
        end = Ok h'
    ∧ dseg h' p l q'
    ∧ (∀ b, b ∉ l.*1 → h' !! b = h !! b)
    ∧ length h' = length h.
Proof.
  intros Hd Hnd. destruct l as [|e l] using rev_ind.
  - simpl. by exists h.
  - clear IHl. rewrite lastp_snoc.
    pose proof Hd as Hd'. apply dseg_app in Hd' as [_ [He _]]. simpl in He.
    rewrite (set_next_lookup _ _ _ _ He). simpl. eexists. split; [done|].
    split; [by apply (dseg_set_q _ _ _ _ q)|]. split; [|by rewrite length_insert].
    intros b Hb. rewrite list_lookup_insert_ne; [done|].
    intros <-. apply Hb. rewrite fmap_app, elem_of_app. right. by left.
Qed.

(** Pointing the first node of a chain back at [p'], likewise. *)
Lemma relink_p h p p' l q :
  dseg h p l q → NoDup l.*1 →
  ∃ h', match first l None with
        | Some d => set_previous h d p'
        | None => Ok h
        end = Ok h'
    ∧ dseg h' p' l q
    ∧ (∀ b, b ∉ l.*1 → h' !! b = h !! b)
    ∧ length h' = length h.
Proof.
  intros Hd Hnd. destruct l as [|e l].
  - simpl. by exists h.
  - simpl first. pose proof Hd as [He _]. simpl in He.
    rewrite (set_previous_lookup _ _ _ _ He). simpl. eexists. split; [done|].
    split; [by apply (dseg_set_p _ p)|]. split; [|by rewrite length_insert].
    intros b Hb. rewrite list_lookup_insert_ne; [done|].
    intros <-. apply Hb. by left.
Qed.

(** The three parts of a chain around one of its nodes. *)
Lemma wf_split pl l1 e l2 :
  wf pl (l1 ++ e :: l2) →
  dseg (nodes pl) None l1 (Some e.1)
  ∧ nodes pl !! e.1 = Some (mkNode e.2 (first l2 None) (lastp None l1))
  ∧ dseg (nodes pl) (Some e.1) l2 None
  ∧ NoDup (l1.*1) ∧ NoDup (l2.*1)
  ∧ (e.1 ∉ l1.*1) ∧ (e.1 ∉ l2.*1)
  ∧ (∀ x, x ∈ l1.*1 → x ∉ l2.*1).
Proof.
  intros (Hd & Hnd & _). apply dseg_app in Hd as [Hl1 [He Hl2]].
  simpl in *. rewrite fmap_app in Hnd. simpl in Hnd.
  apply NoDup_app in Hnd as (Hnd1 & Hdisj & Hnd2).
  apply NoDup_cons in Hnd2 as [He2 Hnd2].
  repeat split; try done.
  - intros Hin. apply (Hdisj _ Hin). by left.
  - intros x Hx Hin. apply (Hdisj _ Hx). by right.
Qed.

Lemma insert_before_splice target song pl l1 e l2 :
  wf pl (l1 ++ e :: l2) →
  Text.eq_nocase (title e.2) target = true →
  ∃ pl', insert_before_loop 1 target song pl (Some e.1) = Ok (true, pl')
    ∧ wf pl' (l1 ++ (length (nodes pl), song) :: e :: l2)
    ∧ current_node pl' = current_node pl
    ∧ length (nodes pl') = S (length (nodes pl)).
Proof.
  intros Hwf Hm. pose proof (wf_split _ _ _ _ Hwf)
    as (Hl1 & He & Hl2 & Hnd1 & Hnd2 & Hel1 & Hel2 & Hdisj).
  destruct Hwf as (Hd & Hnd & Hh & Ht & Hs).
  pose proof (dseg_fresh _ _ _ _ Hd) as Hfresh.
  rewrite fmap_app, elem_of_app in Hfresh. simpl in Hfresh.
  rewrite elem_of_cons in Hfresh.
  set (a := length (nodes pl)) in *.
  simpl. rewrite (node_at_lookup _ _ _ He). simpl. rewrite Hm. fold a.
  set (new := mkNode song (Some e.1) (lastp None l1)).
  destruct (relink_q (nodes pl ++ [new]) None l1 (Some e.1) (Some a))
    as (h1 & Hset1 & Hd1 & Hag1 & Hlen1); [by apply dseg_alloc|done|].
  assert (He1 : h1 !! e.1
                = Some (mkNode e.2 (first l2 None) (lastp None l1))).
  { rewrite Hag1 by done. by apply lookup_app_l_Some. }
  assert (Ha1 : h1 !! a = Some new).
  { rewrite Hag1 by tauto. by rewrite lookup_app_r, Nat.sub_diag. }
  assert (Hstep1 :
    match lastp None l1 with
    | Some pv => h ← set_next (nodes pl ++ [new]) pv (Some a); Ok (h, head pl)
    | None => Ok (nodes pl ++ [new], Some a)
    end = Ok (h1, first (l1 ++ [(a, song)]) None)).
  { destruct (lastp None l1) as [pv|] eqn:Hlast.
    - rewrite Hset1. simpl. rewrite Hh, !first_app.
      destruct l1; [done|]. done.
    - injection Hset1 as <-. by rewrite (lastp_None _ Hlast). }
  rewrite Hstep1. simpl.
  rewrite (set_previous_lookup _ _ _ _ He1). simpl.
  eexists. split; [done|]. simpl.
  split; [|split; [done|]].
  2:{ rewrite length_insert, Hlen1, length_app. simpl. lia. }
  split; [|split; [|split; [|split]]]; simpl.
  - apply dseg_app. split.
    + apply dseg_frame; done.
    + assert (Htail : dseg
                (<[e.1 := mkNode e.2 (first l2 None) (Some a)]> h1)
                (Some a) (e :: l2) None).
      { apply (dseg_set_p _ (lastp None l1) (Some a) l2 e None).
        - simpl. split; [done|].
          apply (dseg_agree (nodes pl ++ [new])).
          + intros b Hb. apply Hag1. intros Hin. by apply (Hdisj b).
          + by apply dseg_alloc.
        - simpl. by apply NoDup_cons. }
      split; [|exact Htail].
      rewrite list_lookup_insert_ne by (intros Heq; apply Hfresh; by right; left).
      done.
  - rewrite fmap_app. simpl. apply NoDup_app. split; [done|]. split.
    + intros x Hx Hin. apply elem_of_cons in Hin as [->|Hin]; [tauto|].
      apply elem_of_cons in Hin as [->|Hin]; [done|]. by apply (Hdisj x).
    + apply NoDup_cons. split.
      * rewrite elem_of_cons. tauto.
      * by apply NoDup_cons.
  - by rewrite !first_app.
  - rewrite Ht, !lastp_app. done.
  - rewrite !length_app in *. simpl in *. lia.
Qed.

(** *** Unlinking a node *)

Lemma remove_splice song_title pl l1 e l2 :
  wf pl (l1 ++ e :: l2) →
  Text.eq_nocase (title e.2) song_title = true →
  ∃ pl', remove_loop 1 song_title pl (Some e.1) = Ok (true, pl')
    ∧ wf pl' (l1 ++ l2)
    ∧ current_node pl'
      = (if bool_decide (current_node pl = Some e.1)
         then first l2 (lastp None l1) else current_node pl)
    ∧ length (nodes pl') = length (nodes pl).
Proof.
  intros Hwf Hm. pose proof (wf_split _ _ _ _ Hwf)
    as (Hl1 & He & Hl2 & Hnd1 & Hnd2 & Hel1 & Hel2 & Hdisj).
  destruct Hwf as (Hd & Hnd & Hh & Ht & Hs).
  simpl. rewrite (node_at_lookup _ _ _ He). simpl. rewrite Hm.
  destruct (relink_q (nodes pl) None l1 (Some e.1) (first l2 None))
    as (h1 & Hset1 & Hd1 & Hag1 & Hlen1); [done..|].
  assert (Hstep1 :
    match lastp None l1 with
    | Some pv => h ← set_next (nodes pl) pv (first l2 None); Ok (h, head pl)
    | None => Ok (nodes pl, first l2 None)
    end = Ok (h1, first (l1 ++ l2) None)).
  { destruct (lastp None l1) as [pv|] eqn:Hlast.
    - rewrite Hset1. simpl. rewrite Hh, !first_app.
      destruct l1; [done|]. done.
    - injection Hset1 as <-. by rewrite (lastp_None _ Hlast). }
  rewrite Hstep1. simpl.
  assert (He1 : h1 !! e.1
                = Some (mkNode e.2 (first l2 None) (lastp None l1)))
    by (by rewrite Hag1).
  rewrite (node_at_lookup _ _ _ He1). simpl.
  destruct (relink_p h1 (Some e.1) (lastp None l1) l2 None)
    as (h2 & Hset2 & Hd2 & Hag2 & Hlen2); [|done|].
  { apply (dseg_agree (nodes pl)); [|done].
    intros b Hb. apply Hag1. intros Hin. by apply (Hdisj b). }
  assert (Hstep2 :
    match first l2 None with
    | Some nx => h ← set_previous h1 nx (lastp None l1); Ok (h, tail pl)
    | None => Ok (h1, lastp None l1)
    end = Ok (h2, lastp None (l1 ++ l2))).
  { rewrite lastp_app. destruct l2 as [|d l2].
    - simpl in *. by injection Hset2 as <-.
    - change (first (d :: l2) None) with (Some d.1) in *.
      cbv beta iota in Hset2 |- *.
      rewrite Hset2. simpl. rewrite Ht, lastp_app.
      by rewrite (lastp_nonempty (lastp None l1) (Some d.1)). }
  rewrite Hstep2. simpl.
  eexists. split; [done|]. simpl.
  split; [|split; [|congruence]].
  - split; [|split; [|split; [|split]]]; simpl; [| |done|done|].
    + apply dseg_app. split; [|done].
      apply (dseg_agree h1); [|done].
      intros b Hb. apply Hag2. by apply Hdisj.
    + rewrite fmap_app. apply NoDup_app. done.
    + rewrite !length_app in *. simpl in *. lia.
  - case_bool_decide; [|done].
    destruct l2 as [|d l2]; simpl; [|done]. by destruct (lastp None l1).
Qed.

(** *** The five editing calls on a well-formed playlist *)

Lemma insert_song_after_not_found fuel target song pl l :
  wf pl l → (length l < fuel)%nat → no_match target l →
  insert_song_after fuel target song pl = Ok (false, pl).
Proof.
  intros Hwf Hf Hno. unfold insert_song_after.
  destruct (is_empty pl); [done|].
  rewrite insert_after_loop_find.
  destruct Hwf as (Hd & _ & Hh & _). rewrite Hh.
  destruct (find_title_dseg fuel target _ _ _ Hd Hf) as [-> _]; done.
Qed.

Lemma insert_song_after_found fuel target song pl l1 e l2 :
  wf pl (l1 ++ e :: l2) → (length (l1 ++ e :: l2) < fuel)%nat →
  no_match target l1 → Text.eq_nocase (title e.2) target = true →
  ∃ pl', insert_song_after fuel target song pl = Ok (true, pl')
    ∧ wf pl' (l1 ++ e :: (length (nodes pl), song) :: l2)
    ∧ current_node pl' = current_node pl
    ∧ length (nodes pl') = S (length (nodes pl)).
Proof.
  intros Hwf Hf Hno Hm. unfold insert_song_after.
  rewrite (wf_is_empty _ _ Hwf), bool_decide_eq_false_2 by (by destruct l1).
  rewrite insert_after_loop_find.
  pose proof Hwf as (Hd & _ & Hh & _). rewrite Hh.
  destruct (find_title_dseg fuel target _ _ _ Hd Hf) as [_ Hfound].
  rewrite (Hfound l1 e l2) by done.
  by apply insert_after_splice.
Qed.

Lemma insert_song_before_not_found fuel target song pl l :
  wf pl l → (length l < fuel)%nat → no_match target l →
  insert_song_before fuel target song pl = Ok (false, pl).
Proof.
  intros Hwf Hf Hno. unfold insert_song_before.
  destruct (is_empty pl); [done|].
  rewrite insert_before_loop_find.
  destruct Hwf as (Hd & _ & Hh & _). rewrite Hh.
  destruct (find_title_dseg fuel target _ _ _ Hd Hf) as [-> _]; done.
Qed.

Lemma insert_song_before_found fuel target song pl l1 e l2 :
  wf pl (l1 ++ e :: l2) → (length (l1 ++ e :: l2) < fuel)%nat →
  no_match target l1 → Text.eq_nocase (title e.2) target = true →
  ∃ pl', insert_song_before fuel target song pl = Ok (true, pl')
    ∧ wf pl' (l1 ++ (length (nodes pl), song) :: e :: l2)
    ∧ current_node pl' = current_node pl
    ∧ length (nodes pl') = S (length (nodes pl)).
Proof.
  intros Hwf Hf Hno Hm. unfold insert_song_before.
  rewrite (wf_is_empty _ _ Hwf), bool_decide_eq_false_2 by (by destruct l1).
  rewrite insert_before_loop_find.
  pose proof Hwf as (Hd & _ & Hh & _). rewrite Hh.
  destruct (find_title_dseg fuel target _ _ _ Hd Hf) as [_ Hfound].
  rewrite (Hfound l1 e l2) by done.
  by apply insert_before_splice.
Qed.

Lemma remove_song_not_found fuel song_title pl l :
  wf pl l → (length l < fuel)%nat → no_match song_title l →
  remove_song fuel song_title pl = Ok (false, pl).
Proof.
  intros Hwf Hf Hno. unfold remove_song.
  destruct (is_empty pl); [done|].
  rewrite remove_loop_find.
  destruct Hwf as (Hd & _ & Hh & _). rewrite Hh.
  destruct (find_title_dseg fuel song_title _ _ _ Hd Hf) as [-> _]; done.
Qed.

Lemma remove_song_found fuel song_title pl l1 e l2 :
  wf pl (l1 ++ e :: l2) → (length (l1 ++ e :: l2) < fuel)%nat →
  no_match song_title l1 → Text.eq_nocase (title e.2) song_title = true →
  ∃ pl', remove_song fuel song_title pl = Ok (true, pl')
    ∧ wf pl' (l1 ++ l2)
    ∧ current_node pl'
      = (if bool_decide (current_node pl = Some e.1)
         then first l2 (lastp None l1) else current_node pl)
    ∧ length (nodes pl') = length (nodes pl).
Proof.
  intros Hwf Hf Hno Hm. unfold remove_song.
  rewrite (wf_is_empty _ _ Hwf), bool_decide_eq_false_2 by (by destruct l1).
  rewrite remove_loop_find.
  pose proof Hwf as (Hd & _ & Hh & _). rewrite Hh.
  destruct (find_title_dseg fuel song_title _ _ _ Hd Hf) as [_ Hfound].
  rewrite (Hfound l1 e l2) by done.
  by apply remove_splice.
Qed.

(** Either no entry has the title or there is a first one that has it. *)
Lemma first_match song_title (l : list (addr * Song)) :
  no_match song_title l
  ∨ ∃ l1 e l2, l = l1 ++ e :: l2 ∧ no_match song_title l1
      ∧ Text.eq_nocase (title e.2) song_title = true.
Proof.
  induction l as [|e l IH]; [left; constructor|].
  destruct (Text.eq_nocase (title e.2) song_title) eqn:Hm.
  - right. exists [], e, l. split; [done|]. split; [constructor|done].
  - destruct IH as [Hno|(l1 & e' & l2 & -> & Hno & Hm')].
    + left. by constructor.
    + right. exists (e :: l1), e', l2. split; [done|]. split; [|done].
      by constructor.
Qed.

Lemma forward_wf fuel pl l :
  wf pl l → (length l < fuel)%nat → forward fuel pl = Ok l.
Proof.
  intros (Hd & _ & Hh & _) Hf. unfold forward. rewrite Hh.
  by apply (walk_next_dseg _ _ None).
Qed.

Lemma backward_wf fuel pl l :
  wf pl l → (length l < fuel)%nat → backward fuel pl = Ok (reverse l).
Proof.
  intros (Hd & _ & _ & Ht & _) Hf. unfold backward. rewrite Ht.
  by apply (walk_previous_dseg _ _ _ None).
Qed.

Lemma road_trip_wf : wf Sample.road_trip Sample.road_trip_chain.
Proof.
  repeat split. simpl. compute_done.
Qed.

Lemma road_trip_run :
  PlaylistTrace.run 0
    [PlaylistTrace.AddAtEnd Sample.sun; PlaylistTrace.AddAtEnd Sample.moon;
     PlaylistTrace.AddAtEnd Sample.star] = Ok Sample.road_trip.
Proof. reflexivity. Qed.

(** *** insert_song_after (C6) *)

(** C6. On a well-formed playlist whose forward traversal is [l]:
    when no title in [l] equals the target without regard to case (so
    also when [l] is empty), [insert_song_after] returns false and the
    playlist, arena included, is unchanged; otherwise it returns true
    and the forward traversal afterwards has the new song right behind the
    first node whose title matches, and the tail is the new node exactly
    when that node was the last one. *)
Theorem insert_song_after_spec (fuel : nat) (target : string) (song : Song)
    (pl : LinkedListPlaylist.t) (l : list (nat * Song)) :
  wf pl l → (length l < fuel)%nat →
  forward fuel pl = Ok l
  ∧ (no_match target l →
     insert_song_after fuel target song pl = Ok (false, pl))
  ∧ (∀ l1 e l2, l = l1 ++ e :: l2 → no_match target l1 →
       Text.eq_nocase (title e.2) target = true →
       ∃ pl', insert_song_after fuel target song pl = Ok (true, pl')
         ∧ forward (S fuel) pl'
           = Ok (l1 ++ e :: (length (nodes pl), song) :: l2)
         ∧ wf pl' (l1 ++ e :: (length (nodes pl), song) :: l2)
         ∧ (l2 = [] → tail pl' = Some (length (nodes pl)))
         ∧ (l2 ≠ [] → tail pl' = tail pl)
         ∧ head pl' = head pl
         ∧ current_node pl' = current_node pl).
Proof.
  intros Hwf Hf. split; [by apply forward_wf|].
  split; [by apply insert_song_after_not_found|].
  intros l1 e l2 -> Hno Hm.
  destruct (insert_song_after_found fuel target song pl l1 e l2)
    as (pl' & Heq & Hwf' & Hcur & Hlen); [done..|].
  exists pl'. split; [done|].
  split; [apply forward_wf; [done|]|].
  { rewrite !length_app in *. simpl in *. lia. }
  split; [done|].
  destruct Hwf as (_ & _ & Hh & Ht & _).
  destruct Hwf' as (_ & _ & Hh' & Ht' & _).
  rewrite Hh, Hh', Ht, Ht', !first_app, !lastp_app. simpl.
  split; [by intros ->|]. split; [|done].
  intros Hne. by apply lastp_nonempty.
Qed.

Lemma insert_song_after_spec_witness :
  ∃ pl', insert_song_after 4 "MOON" Sample.comet Sample.road_trip
         = Ok (true, pl')
    ∧ forward 5 pl'
      = Ok [(0%nat, Sample.sun); (1%nat, Sample.moon); (3%nat, Sample.comet);
            (2%nat, Sample.star)]
    ∧ wf pl' [(0%nat, Sample.sun); (1%nat, Sample.moon); (3%nat, Sample.comet);
              (2%nat, Sample.star)]
    ∧ ([(2%nat, Sample.star)] = [] → tail pl' = Some 3%nat)
    ∧ ([(2%nat, Sample.star)] ≠ [] → tail pl' = tail Sample.road_trip)
    ∧ head pl' = head Sample.road_trip
    ∧ current_node pl' = current_node Sample.road_trip.
Proof.
  refine (proj2 (proj2 (insert_song_after_spec 4 "MOON" Sample.comet
            Sample.road_trip Sample.road_trip_chain road_trip_wf _))
            [(0%nat, Sample.sun)] (1%nat, Sample.moon) [(2%nat, Sample.star)]
            eq_refl _ eq_refl).
  - simpl. lia.
  - repeat constructor.
Defined.

(** *** remove_song (C3) *)

(** C3. On a well-formed playlist whose forward traversal is [l]:
    when no title in [l] equals the given one without regard to case (so
    also when [l] is empty), [remove_song] returns false and leaves the
    playlist as it is; otherwise it returns true, the first node whose
    title matches is gone from the chain, head and tail are the ends of
    what remains, and the cursor moves only if it was on the removed node:
    to the successor if there is one, else to the predecessor, else it
    becomes unset. *)
Theorem remove_song_spec (fuel : nat) (song_title : string)
    (pl : LinkedListPlaylist.t) (l : list (nat * Song)) :
  wf pl l → (length l < fuel)%nat →
  forward fuel pl = Ok l
  ∧ (no_match song_title l →
     remove_song fuel song_title pl = Ok (false, pl))
  ∧ (∀ l1 e l2, l = l1 ++ e :: l2 → no_match song_title l1 →
       Text.eq_nocase (title e.2) song_title = true →
       ∃ pl', remove_song fuel song_title pl = Ok (true, pl')
         ∧ forward fuel pl' = Ok (l1 ++ l2)
         ∧ backward fuel pl' = Ok (reverse (l1 ++ l2))
         ∧ wf pl' (l1 ++ l2)
         ∧ head pl' = first (l1 ++ l2) None
         ∧ tail pl' = lastp None (l1 ++ l2)
         ∧ (current_node pl = Some e.1 →
            current_node pl'
            = match l2 with
              | successor :: _ => Some successor.1
              | [] => lastp None l1
              end)
         ∧ (current_node pl ≠ Some e.1 →
            current_node pl' = current_node pl)).
Proof.
  intros Hwf Hf. split; [by apply forward_wf|].
  split; [by apply remove_song_not_found|].
  intros l1 e l2 -> Hno Hm.
  destruct (remove_song_found fuel song_title pl l1 e l2)
    as (pl' & Heq & Hwf' & Hcur & Hlen); [done..|].
  assert (length (l1 ++ l2) < fuel)%nat as Hf'
    by (rewrite !length_app in *; simpl in *; lia).
  exists pl'. split; [done|].
  split; [by apply forward_wf|]. split; [by apply backward_wf|].
  split; [done|].
  pose proof Hwf' as (_ & _ & Hh' & Ht' & _).
  split; [done|]. split; [done|]. rewrite Hcur. split.
  - intros Hc. rewrite bool_decide_eq_true_2 by done. by destruct l2.
  - intros Hc. by rewrite bool_decide_eq_false_2.
Qed.

Lemma remove_song_spec_witness :
  ∃ pl', remove_song 4 "sun" Sample.road_trip = Ok (true, pl')
    ∧ forward 4 pl' = Ok [(1%nat, Sample.moon); (2%nat, Sample.star)]
    ∧ backward 4 pl' = Ok (reverse [(1%nat, Sample.moon); (2%nat, Sample.star)])
    ∧ wf pl' [(1%nat, Sample.moon); (2%nat, Sample.star)]
    ∧ head pl' = Some 1%nat
    ∧ tail pl' = Some 2%nat
    ∧ (current_node Sample.road_trip = Some 0%nat →
       current_node pl' = Some 1%nat)
    ∧ (current_node Sample.road_trip ≠ Some 0%nat →
       current_node pl' = current_node Sample.road_trip).
Proof.
  refine (proj2 (proj2 (remove_song_spec 4 "sun" Sample.road_trip
            Sample.road_trip_chain road_trip_wf _))
            [] (0%nat, Sample.sun) [(1%nat, Sample.moon); (2%nat, Sample.star)]
            eq_refl _ eq_refl).
  - simpl. lia.
  - constructor.
Defined.

(** ** Playlists: what every call keeps true *)

Lemma chain_split (l : list (nat * Song)) c :
  c ∈ l.*1 → ∃ l1 e l2, l = l1 ++ e :: l2 ∧ e.1 = c.
Proof.
  intros Hin. apply list_elem_of_fmap in Hin as (e & -> & He).
  apply list_elem_of_split in He as (l1 & l2 & ->). by exists l1, e, l2.
Qed.

Lemma wf_with_current pl l c : wf pl l → wf (with_current pl c) l.
Proof. by intros (? & ? & ? & ? & ?). Qed.

Lemma add_song_at_end_inv song pl l :
  wf pl l → cursor_ok pl l →
  ∃ pl', add_song_at_end song pl = Ok pl'
    ∧ wf pl' (l ++ [(length (nodes pl), song)])
    ∧ cursor_ok pl' (l ++ [(length (nodes pl), song)]).
Proof.
  intros Hwf Hc. destruct (add_song_at_end_wf song pl l Hwf)
    as (pl' & Heq & Hwf' & Hcur & _).
  exists pl'. split; [done|]. split; [done|].
  unfold cursor_ok in *. rewrite Hcur. case_bool_decide as Hl.
  - subst l. simpl. by left.
  - destruct (current_node pl) as [c|]; [|done].
    rewrite fmap_app, elem_of_app. by left.
Qed.

Lemma add_song_at_beginning_inv song pl l :
  wf pl l → cursor_ok pl l →
  ∃ pl', add_song_at_beginning song pl = Ok pl'
    ∧ wf pl' ((length (nodes pl), song) :: l)
    ∧ cursor_ok pl' ((length (nodes pl), song) :: l).
Proof.
  intros Hwf Hc. destruct (add_song_at_beginning_wf song pl l Hwf)
    as (pl' & Heq & Hwf' & Hcur & _).
  exists pl'. split; [done|]. split; [done|].
  unfold cursor_ok in *. rewrite Hcur. case_bool_decide as Hl.
  - subst l. simpl. by left.
  - destruct (current_node pl) as [c|]; [|done]. by right.
Qed.

Lemma insert_song_after_inv fuel target song pl l :
  wf pl l → cursor_ok pl l → (length l < fuel)%nat →
  ∃ r l', insert_song_after fuel target song pl = Ok r
    ∧ wf r.2 l' ∧ cursor_ok r.2 l' ∧ (length l' ≤ S (length l))%nat.
Proof.
  intros Hwf Hc Hf.
  destruct (first_match target l) as [Hno|(l1 & e & l2 & -> & Hno & Hm)].
  - exists (false, pl), l.
    rewrite (insert_song_after_not_found fuel target song pl l) by done.
    split; [done|]. split; [done|]. split; [done|lia].
  - destruct (insert_song_after_found fuel target song pl l1 e l2)
      as (pl' & Heq & Hwf' & Hcur & _); [done..|].
    exists (true, pl'), (l1 ++ e :: (length (nodes pl), song) :: l2).
    split; [done|]. split; [done|]. split.
    + unfold cursor_ok in *. simpl. rewrite Hcur.
      destruct (current_node pl) as [c|]; [|by destruct l1].
      rewrite fmap_app, elem_of_app in Hc |- *. simpl in *.
      rewrite !elem_of_cons in *. tauto.
    + rewrite !length_app. simpl. lia.
Qed.

Lemma insert_song_before_inv fuel target song pl l :
  wf pl l → cursor_ok pl l → (length l < fuel)%nat →
  ∃ r l', insert_song_before fuel target song pl = Ok r
    ∧ wf r.2 l' ∧ cursor_ok r.2 l' ∧ (length l' ≤ S (length l))%nat.
Proof.
  intros Hwf Hc Hf.
  destruct (first_match target l) as [Hno|(l1 & e & l2 & -> & Hno & Hm)].
  - exists (false, pl), l.
    rewrite (insert_song_before_not_found fuel target song pl l) by done.
    split; [done|]. split; [done|]. split; [done|lia].
  - destruct (insert_song_before_found fuel target song pl l1 e l2)
      as (pl' & Heq & Hwf' & Hcur & _); [done..|].
    exists (true, pl'), (l1 ++ (length (nodes pl), song) :: e :: l2).
    split; [done|]. split; [done|]. split.
    + unfold cursor_ok in *. simpl. rewrite Hcur.
      destruct (current_node pl) as [c|]; [|by destruct l1].
      rewrite fmap_app, elem_of_app in Hc |- *. simpl in *.
      rewrite !elem_of_cons in *. tauto.
    + rewrite !length_app. simpl. lia.
Qed.

Lemma remove_song_inv fuel song_title pl l :
  wf pl l → cursor_ok pl l → (length l < fuel)%nat →
  ∃ r l', remove_song fuel song_title pl = Ok r
    ∧ wf r.2 l' ∧ cursor_ok r.2 l' ∧ (length l' ≤ S (length l))%nat.
Proof.
  intros Hwf Hc Hf.
  destruct (first_match song_title l) as [Hno|(l1 & e & l2 & -> & Hno & Hm)].
  - exists (false, pl), l.
    rewrite (remove_song_not_found fuel song_title pl l) by done.
    split; [done|]. split; [done|]. split; [done|lia].
  - destruct (remove_song_found fuel song_title pl l1 e l2)
      as (pl' & Heq & Hwf' & Hcur & _); [done..|].
    exists (true, pl'), (l1 ++ l2).
    split; [done|]. split; [done|]. split.
    + unfold cursor_ok in *. simpl. rewrite Hcur. case_bool_decide as Hce.
      * destruct l2 as [|d l2]; simpl.
        -- rewrite app_nil_r. destruct (lastp None l1) as [c|] eqn:Hlast.
           ++ by destruct (lastp_elem _ _ _ Hlast).
           ++ by apply lastp_None.
        -- rewrite fmap_app, elem_of_app. right. by left.
      * destruct (current_node pl) as [c|]; [|by destruct l1].
        rewrite fmap_app, elem_of_app in Hc |- *. simpl in *.
        rewrite elem_of_cons in Hc.
        destruct Hc as [?|[->|?]]; [by left|done|by right].
    + rewrite !length_app. simpl. lia.
Qed.

(** *** Moving the cursor *)

Lemma wf_lookup pl l c :
  wf pl l → c ∈ l.*1 →
  ∃ l1 e l2, l = l1 ++ e :: l2 ∧ e.1 = c
    ∧ nodes pl !! c = Some (mkNode e.2 (first l2 None) (lastp None l1)).
Proof.
  intros Hwf Hin. destruct (chain_split l c Hin) as (l1 & e & l2 & -> & <-).
  exists l1, e, l2. split; [done|]. split; [done|].
  by destruct (wf_split _ _ _ _ Hwf) as (_ & He & _).
Qed.

Lemma next_song_inv pl l :
  wf pl l → cursor_ok pl l →
  ∃ r, next_song pl = Ok r ∧ wf r.2 l ∧ cursor_ok r.2 l.
Proof.
  intros Hwf Hc0. pose proof Hc0 as Hc. unfold next_song.
  unfold cursor_ok in Hc.
  destruct (current_node pl) as [c|] eqn:Hcur; [|by exists (None, pl)].
  destruct (wf_lookup pl l c Hwf Hc) as (l1 & e & l2 & -> & <- & He).
  rewrite (node_at_lookup _ _ _ He). simpl.
  destruct l2 as [|d l2]; simpl.
  - by exists (None, pl).
  - destruct (wf_lookup pl (l1 ++ e :: d :: l2) d.1 Hwf)
      as (l1' & e' & l2' & _ & _ & Hd).
    { rewrite fmap_app, elem_of_app. right. right. by left. }
    rewrite (node_at_lookup _ _ _ Hd). simpl. eexists. split; [done|].
    split; [by apply wf_with_current|].
    unfold cursor_ok. simpl. rewrite fmap_app, elem_of_app. right. right. by left.
Qed.

Lemma previous_song_inv pl l :
  wf pl l → cursor_ok pl l →
  ∃ r, previous_song pl = Ok r ∧ wf r.2 l ∧ cursor_ok r.2 l.
Proof.
  intros Hwf Hc0. pose proof Hc0 as Hc. unfold previous_song.
  unfold cursor_ok in Hc.
  destruct (current_node pl) as [c|] eqn:Hcur; [|by exists (None, pl)].
  destruct (wf_lookup pl l c Hwf Hc) as (l1 & e & l2 & -> & <- & He).
  rewrite (node_at_lookup _ _ _ He). simpl.
  destruct (lastp None l1) as [pv|] eqn:Hlast.
  - assert (pv ∈ l1.*1) as Hpv by (by destruct (lastp_elem _ _ _ Hlast)).
    destruct (wf_lookup pl (l1 ++ e :: l2) pv Hwf)
      as (l1' & e' & l2' & _ & _ & Hd).
    { rewrite fmap_app, elem_of_app. by left. }
    rewrite (node_at_lookup _ _ _ Hd). simpl. eexists. split; [done|].
    split; [by apply wf_with_current|].
    unfold cursor_ok. simpl. rewrite fmap_app, elem_of_app. by left.
  - by exists (None, pl).
Qed.

Lemma go_to_first_song_inv pl l :
  wf pl l → cursor_ok pl l →
  ∃ r, go_to_first_song pl = Ok r ∧ wf r.2 l ∧ cursor_ok r.2 l.
Proof.
  intros Hwf Hc. unfold go_to_first_song.
  rewrite (wf_is_empty _ _ Hwf). case_bool_decide as Hl.
  - by exists (None, pl).
  - destruct l as [|e l]; [done|].
    pose proof Hwf as (Hd & _ & Hh & _). simpl in Hh, Hd.
    destruct Hd as [He _]. rewrite Hh. simpl.
    rewrite (node_at_lookup _ _ _ He). simpl. eexists. split; [done|].
    split; [by apply wf_with_current|].
    unfold cursor_ok. simpl. by left.
Qed.

Lemma go_to_last_song_inv pl l :
  wf pl l → cursor_ok pl l →
  ∃ r, go_to_last_song pl = Ok r ∧ wf r.2 l ∧ cursor_ok r.2 l.
Proof.
  intros Hwf Hc. unfold go_to_last_song.
  rewrite (wf_is_empty _ _ Hwf). case_bool_decide as Hl.
  - by exists (None, pl).
  - destruct l as [|e l] using rev_ind; [done|]. clear IHl.
    pose proof Hwf as (_ & _ & _ & Ht & _). rewrite lastp_snoc in Ht.
    rewrite Ht. simpl.
    destruct (wf_lookup pl (l ++ [e]) e.1 Hwf) as (l1 & e' & l2 & _ & _ & He).
    { rewrite fmap_app, elem_of_app. right. by left. }
    rewrite (node_at_lookup _ _ _ He). simpl. eexists. split; [done|].
    split; [by apply wf_with_current|].
    unfold cursor_ok. simpl. rewrite fmap_app, elem_of_app. right. by left.
Qed.

(** *** Shuffling *)

Lemma swap_items_length i j songs :
  (i < length songs)%nat → (j < length songs)%nat →
  ∃ songs', swap_items i j songs = Ok songs' ∧ length songs' = length songs.
Proof.
  intros Hi Hj. unfold swap_items.
  destruct (lookup_lt_is_Some_2 songs j Hj) as [sj ->].
  destruct (lookup_lt_is_Some_2 songs i Hi) as [si ->].
  eexists. split; [done|]. by rewrite !length_insert.
Qed.

Lemma swap_loop_length rnd n count k songs :
  (0 < n)%nat → length songs = n →
  ∃ songs', swap_loop rnd n count k songs = Ok songs' ∧ length songs' = n.
Proof.
  intros Hn. revert k songs. induction count as [|count IH]; intros k songs Hlen.
  - by exists songs.
  - simpl. case_bool_decide as Hij.
    + destruct (swap_items_length (rnd k `mod` n) (rnd (S k) `mod` n) songs)
        as (songs1 & -> & Hlen1).
      * rewrite Hlen. apply Nat.mod_upper_bound. lia.
      * rewrite Hlen. apply Nat.mod_upper_bound. lia.
      * simpl. apply IH. congruence.
    + simpl. by apply IH.
Qed.

Lemma add_all_wf songs pl l :
  wf pl l →
  ∃ pl' l', add_all songs pl = Ok pl' ∧ wf pl' (l ++ l')
    ∧ l'.*2 = songs.
Proof.
  revert pl l. induction songs as [|song songs IH]; intros pl l Hwf.
  - exists pl, []. by rewrite app_nil_r.
  - simpl. destruct (add_song_at_end_wf song pl l Hwf)
      as (pl1 & -> & Hwf1 & _ & _). simpl.
    destruct (IH pl1 _ Hwf1) as (pl' & l' & -> & Hwf' & Hsongs).
    exists pl', ((length (nodes pl), song) :: l').
    split; [done|]. split.
    + by rewrite (cons_middle _ l l'), app_assoc.
    + csimpl. by rewrite Hsongs.
Qed.

Lemma shuffle_playlist_inv rnd fuel pl l :
  wf pl l → cursor_ok pl l → (length l < fuel)%nat →
  ∃ pl' l', shuffle_playlist rnd fuel pl = Ok pl'
    ∧ wf pl' l' ∧ cursor_ok pl' l' ∧ length l' = length l.
Proof.
  intros Hwf Hc Hf. unfold shuffle_playlist.
  destruct (Z.leb_spec (size pl) 1) as [Hle|Hgt]; [by exists pl, l|].
  pose proof Hwf as (Hd & _ & Hh & _ & Hs).
  rewrite Hh, (walk_next_dseg fuel _ None l) by done. simpl.
  destruct (swap_loop_length rnd (Z.to_nat (size pl)) (Z.to_nat (size pl * 2))
              0 (l.*2)) as (songs & -> & Hlen); [lia|rewrite length_fmap; lia|].
  simpl.
  destruct (add_all_wf songs (mk (nodes pl) None None (current_node pl) 0) [])
    as (pl' & l' & -> & Hwf' & Hsongs).
  { repeat split. constructor. }
  simpl in Hwf' |- *.
  assert (length l' = length l) as Hlen'.
  { rewrite <- (length_fmap snd l'), Hsongs, Hlen. lia. }
  exists (with_current pl' (head pl')), l'.
  split; [done|]. split; [by apply wf_with_current|]. split; [|done].
  unfold cursor_ok. simpl. destruct Hwf' as (_ & _ & -> & _).
  destruct l' as [|e l']; [simpl in Hlen'; lia|]. simpl. by left.
Qed.

(** *** Any sequence of calls without a reverse *)

Import PlaylistTrace.

Lemma run_call_inv fuel c pl l :
  is_reverse c = false →
  wf pl l → cursor_ok pl l → (length l < fuel)%nat →
  ∃ pl' l', run_call fuel c pl = Ok pl'
    ∧ wf pl' l' ∧ cursor_ok pl' l'
    ∧ (length l' ≤ (if is_edit c then S (length l) else length l))%nat.
Proof.
  intros Hrev Hwf Hc Hf. destruct c; simpl in *; try done.
  - destruct (add_song_at_end_inv song pl l) as (pl' & -> & ? & ?); [done..|].
    eexists _, _. split; [done|]. split; [done|]. split; [done|].
    rewrite length_app. simpl. lia.
  - destruct (add_song_at_beginning_inv song pl l) as (pl' & -> & ? & ?);
      [done..|].
    eexists _, _. split; [done|]. split; [done|]. split; [done|]. simpl. lia.
  - destruct (insert_song_after_inv fuel target_song_title song pl l)
      as (r & l' & -> & ? & ? & ?); [done..|]. by exists r.2, l'.
  - destruct (insert_song_before_inv fuel target_song_title song pl l)
      as (r & l' & -> & ? & ? & ?); [done..|]. by exists r.2, l'.
  - destruct (remove_song_inv fuel song_title pl l)
      as (r & l' & -> & ? & ? & ?); [done..|]. by exists r.2, l'.
  - destruct (next_song_inv pl l) as (r & -> & ? & ?); [done..|].
    by exists r.2, l.
  - destruct (previous_song_inv pl l) as (r & -> & ? & ?); [done..|].
    by exists r.2, l.
  - destruct (go_to_first_song_inv pl l) as (r & -> & ? & ?); [done..|].
    by exists r.2, l.
  - destruct (go_to_last_song_inv pl l) as (r & -> & ? & ?); [done..|].
    by exists r.2, l.
  - destruct (shuffle_playlist_inv rnd fuel pl l) as (pl' & l' & -> & ? & ? & ?);
      [done..|].
    exists pl', l'. split; [done|]. split; [done|]. split; [done|]. lia.
Qed.

Lemma run_from_inv fuel calls pl l :
  Forall (λ c, is_reverse c = false) calls →
  wf pl l → cursor_ok pl l →
  (length l + length (filter (λ c, is_edit c = true) calls) < fuel)%nat →
  ∃ pl' l', run_from fuel calls pl = Ok pl'
    ∧ wf pl' l' ∧ cursor_ok pl' l'
    ∧ (length l'
       ≤ length l + length (filter (λ c, is_edit c = true) calls))%nat.
Proof.
  revert pl l. induction calls as [|c calls IH];
    intros pl l Hall Hwf Hc Hf.
  - exists pl, l. simpl. split; [done|]. split; [done|]. split; [done|lia].
  - apply Forall_cons_1 in Hall as [Hrev Hall].
    rewrite filter_cons in Hf |- *.
    destruct (run_call_inv fuel c pl l) as (pl1 & l1 & Heq & Hwf1 & Hc1 & Hlen1);
      [done..| |].
    { destruct (decide (is_edit c = true)); simpl in Hf; lia. }
    simpl. rewrite Heq. simpl.
    destruct (IH pl1 l1) as (pl' & l' & -> & Hwf' & Hc' & Hlen'); [done..| |].
    { destruct (decide (is_edit c = true)) as [He|He]; simpl in Hf.
      - rewrite He in Hlen1. lia.
      - apply not_true_is_false in He. rewrite He in Hlen1. lia. }
    exists pl', l'. split; [done|]. split; [done|]. split; [done|].
    destruct (decide (is_edit c = true)) as [He|He]; simpl.
    + rewrite He in Hlen1. lia.
    + apply not_true_is_false in He. rewrite He in Hlen1. lia.
Qed.

(** *** Size (C7) *)

Lemma edits_have_no_reverse calls :
  forallb is_edit calls = true → Forall (λ c, is_reverse c = false) calls.
Proof.
  induction calls as [|c calls IH]; simpl; [constructor|].
  intros [Hc Hall]%andb_true_iff. constructor; [by destruct c|by apply IH].
Qed.

(** C7. After any sequence of adds (at the end, at the beginning, after or
    before a title) and removes from the empty playlist, with fuel for the
    loops, every call returns, both traversals return, and [size] is the
    number of nodes the forward traversal from [head] visits and the number
    the backward traversal from [tail] visits. *)
Theorem size_counts_both_ways (fuel : nat) (calls : list call) :
  forallb is_edit calls = true → (length calls < fuel)%nat →
  ∃ pl fwd bwd, run fuel calls = Ok pl
    ∧ forward fuel pl = Ok fwd
    ∧ backward fuel pl = Ok bwd
    ∧ get_size pl = Z.of_nat (length fwd)
    ∧ get_size pl = Z.of_nat (length bwd)
    ∧ bwd = reverse fwd.
Proof.
  intros Hedit Hf.
  assert (length (filter (λ c, is_edit c = true) calls) ≤ length calls)%nat
    as Hle by apply length_filter.
  destruct (run_from_inv fuel calls init [])
    as (pl & l & Hrun & Hwf & _ & Hlen).
  - by apply edits_have_no_reverse.
  - apply wf_init.
  - done.
  - simpl. lia.
  - simpl in Hlen. exists pl, l, (reverse l). split; [done|].
    split; [apply forward_wf; [done|lia]|].
    split; [apply backward_wf; [done|lia]|].
    destruct Hwf as (_ & _ & _ & _ & Hs). unfold get_size.
    by rewrite length_reverse.
Qed.

Lemma size_counts_both_ways_witness :
  ∃ pl fwd bwd,
    run 6 [AddAtEnd Sample.sun; AddAtEnd Sample.moon;
           InsertAfter "SUN" Sample.comet; Remove "moon";
           AddAtBeginning Sample.star] = Ok pl
    ∧ forward 6 pl = Ok fwd
    ∧ backward 6 pl = Ok bwd
    ∧ get_size pl = Z.of_nat (length fwd)
    ∧ get_size pl = Z.of_nat (length bwd)
    ∧ bwd = reverse fwd.
Proof.
  apply (size_counts_both_ways 6
           [AddAtEnd Sample.sun; AddAtEnd Sample.moon;
            InsertAfter "SUN" Sample.comet; Remove "moon";
            AddAtBeginning Sample.star]).
  - reflexivity.
  - simpl. lia.
Defined.

(** *** The cursor without reverse *)

Lemma reaches_dseg h p l q c :
  dseg h p l q → c ∈ l.*1 → reaches h (first l q) c.
Proof.
  revert p. induction l as [|e l IH]; intros p Hd Hin; simpl in *.
  - by apply elem_of_nil in Hin.
  - destruct Hd as [He Hl]. apply elem_of_cons in Hin as [->|Hin].
    + constructor.
    + eapply reaches_next; [exact He|]. simpl. destruct l as [|d l].
      * by apply elem_of_nil in Hin.
      * by apply (IH (Some e.1)).
Qed.

(** As long as no call is a reverse, the cursor is unset exactly on the
    empty playlist and otherwise on a node that the forward traversal from
    [head] reaches. *)
Lemma cursor_kept_without_reverse fuel calls :
  Forall (λ c, is_reverse c = false) calls → (length calls < fuel)%nat →
  ∃ pl l, run fuel calls = Ok pl
    ∧ forward fuel pl = Ok l
    ∧ (current_node pl = None ↔ l = [])
    ∧ (∀ c, current_node pl = Some c →
         c ∈ l.*1 ∧ reaches (nodes pl) (head pl) c).
Proof.
  intros Hall Hf.
  assert (length (filter (λ c, is_edit c = true) calls) ≤ length calls)%nat
    as Hle by apply length_filter.
  destruct (run_from_inv fuel calls init [])
    as (pl & l & Hrun & Hwf & Hc & Hlen);
    [done|apply wf_init|done|simpl; lia|].
  simpl in Hlen. exists pl, l. split; [done|].
  split; [apply forward_wf; [done|lia]|].
  unfold cursor_ok in Hc. destruct (current_node pl) as [c|]; split.
  - split; [done|]. intros ->. by apply elem_of_nil in Hc.
  - intros c' [= <-]. split; [done|].
    destruct Hwf as (Hd & _ & -> & _). by apply (reaches_dseg _ None).
  - done.
  - done.
Qed.

(** ** reverse_playlist (C4, C9) *)

(** The link-flipping loop of [reverse_playlist] starts at the old tail
    and moves on through the link that, after the swap, holds the old
    [next] of the node: [None] for the tail.  It stops after one node. *)
Lemma flip_loop_road_trip fuel :
  flip_loop (S fuel) (nodes Sample.road_trip) (Some 2%nat)
  = Ok Sample.road_trip_flipped.
Proof. destruct fuel; reflexivity. Qed.

(** From the new head the [next] links now run Star, Moon, Star, Moon, ...:
    a scan for Sun's record never ends. *)
Lemma rescan_road_trip fuel :
  rescan_loop fuel Sample.road_trip_flipped 0%nat (Some 2%nat) = Timeout
  ∧ rescan_loop fuel Sample.road_trip_flipped 0%nat (Some 1%nat) = Timeout.
Proof.
  induction fuel as [|fuel [IH2 IH1]]; [done|].
  split.
  - change (rescan_loop (S fuel) Sample.road_trip_flipped 0%nat (Some 2%nat))
      with (rescan_loop fuel Sample.road_trip_flipped 0%nat (Some 1%nat)).
    exact IH1.
  - change (rescan_loop (S fuel) Sample.road_trip_flipped 0%nat (Some 1%nat))
      with (rescan_loop fuel Sample.road_trip_flipped 0%nat (Some 2%nat)).
    exact IH2.
Qed.

Lemma walk_duo_reversed fuel :
  walk next fuel (nodes Sample.duo_reversed) (Some 1%nat) = Timeout
  ∧ walk next fuel (nodes Sample.duo_reversed) (Some 0%nat) = Timeout.
Proof.
  induction fuel as [|fuel [IH1 IH0]]; [done|].
  split; simpl.
  - simpl in IH0. by rewrite IH0.
  - simpl in IH1. by rewrite IH1.
Qed.

Lemma flip_loop_None fuel h : flip_loop fuel h None = Ok h.
Proof. by destruct fuel. Qed.

(** The same on any well-formed playlist: when the cursor's song is
    neither of the last two songs, [reverse_playlist] does not return. *)
Lemma reverse_playlist_hangs fuel pl l e1 e2 c n :
  wf pl (l ++ [e1; e2]) →
  current_node pl = Some c → nodes pl !! c = Some n →
  song_data n ≠ e1.2 → song_data n ≠ e2.2 →
  reverse_playlist fuel pl = Timeout.
Proof.
  intros Hwf Hcur Hn Hs1 Hs2.
  destruct (wf_split pl (l ++ [e1]) e2 []) as (_ & He2 & _).
  { by rewrite <- app_assoc. }
  destruct (wf_split pl l e1 [e2] Hwf) as (_ & He1 & _ & _ & _ & _ & Hne & _).
  rewrite lastp_snoc in He2. simpl in He1, He2.
  assert (e1.1 ≠ e2.1) as Hne12.
  { intros Heq. apply Hne. rewrite Heq. by left. }
  assert (c ≠ e2.1) as Hc2. { intros ->. rewrite He2 in Hn. by injection Hn as <-. }
  destruct Hwf as (_ & _ & _ & Ht & Hsz).
  rewrite lastp_app in Ht. simpl in Ht.
  rewrite length_app in Hsz. simpl in Hsz.
  unfold reverse_playlist.
  destruct (Z.leb_spec (size pl) 1) as [Hle|_]; [lia|].
  rewrite Ht. destruct fuel as [|fuel]; [done|].
  simpl flip_loop. rewrite (node_at_lookup _ _ _ He2). simpl.
  set (h' := <[e2.1 := mkNode e2.2 (Some e1.1) None]> (nodes pl)).
  assert (h' !! e2.1 = Some (mkNode e2.2 (Some e1.1) None)) as He2'.
  { apply list_lookup_insert_eq. by eapply lookup_lt_Some. }
  assert (h' !! e1.1 = Some (mkNode e1.2 (Some e2.1) (lastp None l))) as He1'.
  { unfold h'. by rewrite list_lookup_insert_ne. }
  assert (h' !! c = Some n) as Hn'.
  { unfold h'. by rewrite list_lookup_insert_ne. }
  rewrite (node_at_lookup _ _ _ He2'). simpl. rewrite flip_loop_None.
  rewrite Hcur. simpl.
  assert (∀ k, rescan_loop k h' c (Some e2.1) = Timeout
               ∧ rescan_loop k h' c (Some e1.1) = Timeout) as Hloop.
  { induction k as [|k [IH2 IH1]]; [done|]. simpl.
    rewrite (node_at_lookup _ _ _ He2'), (node_at_lookup _ _ _ He1'),
      (node_at_lookup _ _ _ Hn'). simpl.
    rewrite !bool_decide_eq_false_2 by congruence. done. }
  destruct (Hloop (S fuel)) as [Hl _].
  change (rescan_loop (S fuel) h' c (Some e2.1)) with
    (n0 ← node_at h' e2.1; c0 ← node_at h' c;
     if bool_decide (song_data n0 = song_data c0) then Ok e2.1
     else rescan_loop fuel h' c (next n0)) in Hl.
  by rewrite Hl.
Qed.

(** C4 fails on the code.  On the playlist Sun, Moon, Star with the cursor
    on Sun (where three [add_song_at_end] calls leave it) [reverse_playlist]
    does not return, whatever the fuel.  On the playlist Sun, Moon one
    [reverse_playlist] returns, but the result is not the reversed list:
    its [next] links form a cycle and the forward traversal from [head]
    does not end. *)
Theorem reverse_playlist_diverges (fuel : nat) :
  run fuel [AddAtEnd Sample.sun; AddAtEnd Sample.moon; AddAtEnd Sample.star]
  = Ok Sample.road_trip
  ∧ current_node Sample.road_trip = Some 0%nat
  ∧ forward (4 + fuel) Sample.road_trip
    = Ok [(0%nat, Sample.sun); (1%nat, Sample.moon); (2%nat, Sample.star)]
  ∧ reverse_playlist fuel Sample.road_trip = Timeout
  ∧ run fuel [AddAtEnd Sample.sun; AddAtEnd Sample.moon] = Ok Sample.duo
  ∧ reverse_playlist (2 + fuel) Sample.duo = Ok Sample.duo_reversed
  ∧ forward fuel Sample.duo_reversed = Timeout.
Proof.
  split; [reflexivity|]. split; [reflexivity|]. split; [reflexivity|].
  split; [|split; [reflexivity|split; [destruct fuel; reflexivity|]]].
  - destruct fuel as [|fuel]; [reflexivity|].
    unfold reverse_playlist.
    change (size Sample.road_trip <=? 1) with false. cbv iota.
    change (tail Sample.road_trip) with (Some 2%nat).
    rewrite flip_loop_road_trip.
    change (current_node Sample.road_trip) with (Some 0%nat).
    cbn [mbind result_bind].
    destruct (rescan_road_trip (S fuel)) as [-> _]. reflexivity.
  - apply walk_duo_reversed.
Qed.

(** After Sun, Moon, Star are added, the cursor is sent to the last song
    and the playlist is reversed, [head] is Star and the [next] links run
    Star, Moon, Star, ...; [next_song] and [previous_song] then walk the
    cursor to Sun, which that chain does not contain. *)
Lemma reaches_after_reverse start a :
  reaches Sample.road_trip_flipped start a →
  start = Some 1%nat ∨ start = Some 2%nat → a = 1%nat ∨ a = 2%nat.
Proof.
  induction 1 as [a|a n b Hn Hreach IH]; intros Hstart.
  - destruct Hstart as [[= ->]|[= ->]]; [by left|by right].
  - apply IH. destruct Hstart as [[= ->]|[= ->]];
      simpl in Hn; injection Hn as <-; simpl; [by right|by left].
Qed.

(** C9 fails on the code, through the same loop of [reverse_playlist].
    The calls below are all public; afterwards the cursor is on Sun, and
    Sun cannot be reached from [head] by following [next]. *)
Theorem cursor_lost_after_reverse (fuel : nat) :
  ∃ pl,
    run (1 + fuel)
      [AddAtEnd Sample.sun; AddAtEnd Sample.moon; AddAtEnd Sample.star;
       GoToLast; Reverse; Next; Previous] = Ok pl
    ∧ nodes pl = Sample.road_trip_flipped
    ∧ head pl = Some 2%nat
    ∧ current_node pl = Some 0%nat
    ∧ ¬ reaches (nodes pl) (head pl) 0%nat.
Proof.
  exists (mk Sample.road_trip_flipped (Some 2%nat) (Some 0%nat) (Some 0%nat) 3).
  split; [destruct fuel; reflexivity|]. simpl.
  split; [done|]. split; [done|]. split; [done|].
  intros Hreach. apply reaches_after_reverse in Hreach; [|by right].
  by destruct Hreach.
Qed.

(** * Further properties of the code *)

(** ** Playlist: adding and inserting *)

(** X1. [add_song_at_end] on a well-formed playlist: the new node is the last
    one of the forward traversal and the first one of the backward
    traversal, it is the tail, the size grows by one, and the cursor is
    set to the new node exactly when the playlist was empty. *)
Theorem add_song_at_end_appends (song : Song) (pl : LinkedListPlaylist.t)
    (l : list (nat * Song)) :
  wf pl l →
  ∃ pl', add_song_at_end song pl = Ok pl'
    ∧ forward (2 + length l) pl' = Ok (l ++ [(length (nodes pl), song)])
    ∧ backward (2 + length l) pl'
      = Ok ((length (nodes pl), song) :: reverse l)
    ∧ tail pl' = Some (length (nodes pl))
    ∧ get_size pl' = get_size pl + 1
    ∧ (l = [] → current_node pl' = Some (length (nodes pl)))
    ∧ (l ≠ [] → current_node pl' = current_node pl ∧ head pl' = head pl).
Proof.
  intros Hwf.
  destruct (add_song_at_end_wf song pl l Hwf) as (pl' & Heq & Hwf' & Hcur & _).
  exists pl'. split; [done|].
  assert (length (l ++ [(length (nodes pl), song)]) < 2 + length l)%nat as Hf
    by (rewrite length_app; simpl; lia).
  split; [by apply forward_wf|].
  split; [by rewrite (backward_wf _ _ _ Hwf' Hf), reverse_snoc|].
  destruct Hwf as (_ & _ & Hh & _ & Hs).
  destruct Hwf' as (_ & _ & Hh' & Ht' & Hs').
  split; [by rewrite Ht', lastp_snoc|].
  split; [unfold get_size; rewrite Hs', Hs, length_app; simpl; lia|].
  rewrite Hcur. split.
  - intros ->. done.
  - intros Hne. rewrite bool_decide_eq_false_2 by done. split; [done|].
    rewrite Hh, Hh', first_app. by destruct l.
Qed.

Lemma add_song_at_end_appends_witness :
  ∃ pl', add_song_at_end Sample.comet Sample.road_trip = Ok pl'
    ∧ forward 5 pl' = Ok (Sample.road_trip_chain ++ [(3%nat, Sample.comet)])
    ∧ backward 5 pl'
      = Ok ((3%nat, Sample.comet) :: reverse Sample.road_trip_chain)
    ∧ tail pl' = Some 3%nat
    ∧ get_size pl' = get_size Sample.road_trip + 1
    ∧ (Sample.road_trip_chain = [] → current_node pl' = Some 3%nat)
    ∧ (Sample.road_trip_chain ≠ [] →
       current_node pl' = current_node Sample.road_trip
       ∧ head pl' = head Sample.road_trip).
Proof.
  exact (add_song_at_end_appends Sample.comet Sample.road_trip
           Sample.road_trip_chain road_trip_wf).
Defined.

(** X2. [add_song_at_beginning] on a well-formed playlist: the new node is the
    first one of the forward traversal, it is the head, the size grows by
    one, and the cursor is set to the new node exactly when the playlist
    was empty: on a playlist with songs the cursor stays on its node, so
    the song that is current does not change. *)
Theorem add_song_at_beginning_prepends (song : Song)
    (pl : LinkedListPlaylist.t) (l : list (nat * Song)) :
  wf pl l →
  ∃ pl', add_song_at_beginning song pl = Ok pl'
    ∧ forward (2 + length l) pl' = Ok ((length (nodes pl), song) :: l)
    ∧ backward (2 + length l) pl'
      = Ok (reverse l ++ [(length (nodes pl), song)])
    ∧ head pl' = Some (length (nodes pl))
    ∧ get_size pl' = get_size pl + 1
    ∧ (l = [] → current_node pl' = Some (length (nodes pl)))
    ∧ (l ≠ [] → current_node pl' = current_node pl ∧ tail pl' = tail pl).
Proof.
  intros Hwf.
  destruct (add_song_at_beginning_wf song pl l Hwf)
    as (pl' & Heq & Hwf' & Hcur & _).
  exists pl'. split; [done|].
  assert (length ((length (nodes pl), song) :: l) < 2 + length l)%nat as Hf
    by (simpl; lia).
  split; [by apply forward_wf|].
  split; [by rewrite (backward_wf _ _ _ Hwf' Hf), reverse_cons|].
  destruct Hwf as (_ & _ & _ & Ht & Hs).
  destruct Hwf' as (_ & _ & Hh' & Ht' & Hs').
  split; [done|].
  split; [unfold get_size; rewrite Hs', Hs; simpl; lia|].
  rewrite Hcur. split.
  - intros ->. done.
  - intros Hne. rewrite bool_decide_eq_false_2 by done. split; [done|].
    rewrite Ht, Ht'. simpl. by apply lastp_nonempty.
Qed.

Lemma add_song_at_beginning_prepends_witness :
  ∃ pl', add_song_at_beginning Sample.comet Sample.road_trip = Ok pl'
    ∧ forward 5 pl' = Ok ((3%nat, Sample.comet) :: Sample.road_trip_chain)
    ∧ backward 5 pl'
      = Ok (reverse Sample.road_trip_chain ++ [(3%nat, Sample.comet)])
    ∧ head pl' = Some 3%nat
    ∧ get_size pl' = get_size Sample.road_trip + 1
    ∧ (Sample.road_trip_chain = [] → current_node pl' = Some 3%nat)
    ∧ (Sample.road_trip_chain ≠ [] →
       current_node pl' = current_node Sample.road_trip
       ∧ tail pl' = tail Sample.road_trip).
Proof.
  exact (add_song_at_beginning_prepends Sample.comet Sample.road_trip
           Sample.road_trip_chain road_trip_wf).
Defined.

(** X3. [insert_song_before] on a well-formed playlist whose forward traversal
    is [l]: with no matching title (so also on the empty playlist) it
    returns false and changes nothing; otherwise it returns true, the new
    node is right in front of the first node whose title matches, the head
    is the new node exactly when that node was the first one, and the
    cursor and the tail stay. *)
Theorem insert_song_before_spec (fuel : nat) (target : string) (song : Song)
    (pl : LinkedListPlaylist.t) (l : list (nat * Song)) :
  wf pl l → (length l < fuel)%nat →
  (no_match target l →
   insert_song_before fuel target song pl = Ok (false, pl))
  ∧ (∀ l1 e l2, l = l1 ++ e :: l2 → no_match target l1 →
       Text.eq_nocase (title e.2) target = true →
       ∃ pl', insert_song_before fuel target song pl = Ok (true, pl')
         ∧ forward (S fuel) pl'
           = Ok (l1 ++ (length (nodes pl), song) :: e :: l2)
         ∧ backward (S fuel) pl'
           = Ok (reverse (l1 ++ (length (nodes pl), song) :: e :: l2))
         ∧ (l1 = [] → head pl' = Some (length (nodes pl)))
         ∧ (l1 ≠ [] → head pl' = head pl)
         ∧ tail pl' = tail pl
         ∧ current_node pl' = current_node pl
         ∧ get_size pl' = get_size pl + 1).
Proof.
  intros Hwf Hf. split; [by apply insert_song_before_not_found|].
  intros l1 e l2 -> Hno Hm.
  destruct (insert_song_before_found fuel target song pl l1 e l2)
    as (pl' & Heq & Hwf' & Hcur & Hlen); [done..|].
  exists pl'. split; [done|].
  assert (length (l1 ++ (length (nodes pl), song) :: e :: l2) < S fuel)%nat
    as Hf' by (rewrite !length_app in *; simpl in *; lia).
  split; [by apply forward_wf|]. split; [by apply backward_wf|].
  destruct Hwf as (_ & _ & Hh & Ht & Hs).
  destruct Hwf' as (_ & _ & Hh' & Ht' & Hs').
  rewrite Hh, Hh', Ht, Ht', !first_app, !lastp_app. simpl.
  split; [by intros ->|]. split; [by destruct l1|].
  split; [done|]. split; [done|].
  unfold get_size. rewrite Hs, Hs', !length_app. simpl. lia.
Qed.

Lemma insert_song_before_spec_witness :
  ∃ pl', insert_song_before 4 "sun" Sample.comet Sample.road_trip
         = Ok (true, pl')
    ∧ forward 5 pl'
      = Ok ([] ++ (3%nat, Sample.comet) :: (0%nat, Sample.sun)
              :: [(1%nat, Sample.moon); (2%nat, Sample.star)])
    ∧ backward 5 pl'
      = Ok (reverse ([] ++ (3%nat, Sample.comet) :: (0%nat, Sample.sun)
                       :: [(1%nat, Sample.moon); (2%nat, Sample.star)]))
    ∧ (@nil (nat * Song) = [] → head pl' = Some 3%nat)
    ∧ (@nil (nat * Song) ≠ [] → head pl' = head Sample.road_trip)
    ∧ tail pl' = tail Sample.road_trip
    ∧ current_node pl' = current_node Sample.road_trip
    ∧ get_size pl' = get_size Sample.road_trip + 1.
Proof.
  refine (proj2 (insert_song_before_spec 4 "sun" Sample.comet
            Sample.road_trip Sample.road_trip_chain road_trip_wf _)
            [] (0%nat, Sample.sun) [(1%nat, Sample.moon); (2%nat, Sample.star)]
            eq_refl _ eq_refl).
  - simpl. lia.
  - constructor.
Defined.

(** ** Playlist: moving the cursor *)

Lemma with_current_same pl : with_current pl (current_node pl) = pl.
Proof. by destruct pl. Qed.

Lemma with_current_twice pl c c' :
  with_current (with_current pl c) c' = with_current pl c'.
Proof. done. Qed.

Lemma next_song_at pl l1 e l2 :
  wf pl (l1 ++ e :: l2) → current_node pl = Some e.1 →
  next_song pl
  = Ok (match l2 with
        | [] => (None, pl)
        | d :: _ => (Some d.2, with_current pl (Some d.1))
        end).
Proof.
  intros Hwf Hcur. unfold next_song. rewrite Hcur.
  destruct (wf_split _ _ _ _ Hwf) as (_ & He & _).
  rewrite (node_at_lookup _ _ _ He). simpl.
  destruct l2 as [|d l2]; [done|]. simpl.
  destruct (wf_split pl (l1 ++ [e]) d l2) as (_ & Hd & _).
  { by rewrite <- app_assoc. }
  by rewrite (node_at_lookup _ _ _ Hd).
Qed.

Lemma previous_song_at pl l1 e l2 :
  wf pl (l1 ++ e :: l2) → current_node pl = Some e.1 →
  previous_song pl
  = Ok (match reverse l1 with
        | [] => (None, pl)
        | d :: _ => (Some d.2, with_current pl (Some d.1))
        end).
Proof.
  intros Hwf Hcur. unfold previous_song. rewrite Hcur.
  destruct (wf_split _ _ _ _ Hwf) as (_ & He & _).
  rewrite (node_at_lookup _ _ _ He). simpl.
  destruct l1 as [|d l1 _] using rev_ind; [done|].
  rewrite lastp_snoc, reverse_snoc.
  destruct (wf_split pl l1 d (e :: l2)) as (_ & Hd & _).
  { by rewrite <- app_assoc in Hwf. }
  by rewrite (node_at_lookup _ _ _ Hd).
Qed.

Lemma get_current_song_at pl l1 e l2 :
  wf pl (l1 ++ e :: l2) → current_node pl = Some e.1 →
  get_current_song pl = Ok (Some e.2).
Proof.
  intros Hwf Hcur. unfold get_current_song. rewrite Hcur.
  destruct (wf_split _ _ _ _ Hwf) as (_ & He & _).
  by rewrite (node_at_lookup _ _ _ He).
Qed.

(** X4. With the cursor on a node of a well-formed playlist, [next_song] moves
    it to the successor and returns that song, [previous_song] moves it to
    the predecessor and returns that song, and at either end the call
    returns [None] and leaves the playlist as it is: the cursor does not
    wrap around.  [get_current_song] returns the cursor's song. *)
Theorem next_previous_song_step (pl : LinkedListPlaylist.t)
    (l1 : list (nat * Song)) (e : nat * Song) (l2 : list (nat * Song)) :
  wf pl (l1 ++ e :: l2) → current_node pl = Some e.1 →
  get_current_song pl = Ok (Some e.2)
  ∧ next_song pl
    = Ok (match l2 with
          | [] => (None, pl)
          | successor :: _ =>
              (Some successor.2, with_current pl (Some successor.1))
          end)
  ∧ previous_song pl
    = Ok (match reverse l1 with
          | [] => (None, pl)
          | predecessor :: _ =>
              (Some predecessor.2, with_current pl (Some predecessor.1))
          end).
Proof.
  intros Hwf Hcur. split; [|split].
  - by apply (get_current_song_at pl l1 e l2).
  - by apply (next_song_at pl l1 e l2).
  - by apply (previous_song_at pl l1 e l2).
Qed.

Lemma next_previous_song_step_witness :
  get_current_song Sample.road_trip = Ok (Some Sample.sun)
  ∧ next_song Sample.road_trip
    = Ok (Some Sample.moon, with_current Sample.road_trip (Some 1%nat))
  ∧ previous_song Sample.road_trip = Ok (None, Sample.road_trip).
Proof.
  exact (next_previous_song_step Sample.road_trip [] (0%nat, Sample.sun)
           [(1%nat, Sample.moon); (2%nat, Sample.star)] road_trip_wf eq_refl).
Defined.

(** X5. On a well-formed playlist whose cursor is unset or on one of its
    nodes, a [next_song] that returns a song is undone by [previous_song],
    and a [previous_song] that returns a song is undone by [next_song]: the
    second call returns the song that was current and the playlist is the
    one before the first call. *)
Theorem next_previous_song_undo (pl pl' : LinkedListPlaylist.t)
    (l : list (nat * Song)) (song : Song) :
  wf pl l → cursor_ok pl l →
  (next_song pl = Ok (Some song, pl') →
   ∃ current, get_current_song pl = Ok (Some current)
     ∧ previous_song pl' = Ok (Some current, pl))
  ∧ (previous_song pl = Ok (Some song, pl') →
     ∃ current, get_current_song pl = Ok (Some current)
       ∧ next_song pl' = Ok (Some current, pl)).
Proof.
  intros Hwf Hc. unfold cursor_ok in Hc.
  destruct (current_node pl) as [c|] eqn:Hcur.
  2:{ unfold next_song, previous_song. rewrite Hcur. by split. }
  destruct (chain_split l c Hc) as (l1 & e & l2 & -> & <-).
  pose proof (get_current_song_at pl l1 e l2 Hwf Hcur) as Hget.
  split.
  - rewrite (next_song_at pl l1 e l2) by done.
    destruct l2 as [|d l2]; [done|]. intros [= <- <-].
    exists e.2. split; [done|].
    rewrite (previous_song_at _ (l1 ++ [e]) d l2).
    + rewrite reverse_snoc, with_current_twice, <- Hcur.
      by rewrite with_current_same.
    + apply wf_with_current. by rewrite <- app_assoc.
    + done.
  - rewrite (previous_song_at pl l1 e l2) by done.
    destruct l1 as [|d l1 _] using rev_ind; [done|].
    rewrite reverse_snoc. intros [= <- <-].
    exists e.2. split; [done|].
    rewrite (next_song_at _ l1 d (e :: l2)).
    + rewrite with_current_twice, <- Hcur. by rewrite with_current_same.
    + apply wf_with_current. by rewrite <- app_assoc in Hwf.
    + done.
Qed.

Lemma road_trip_cursor_ok : cursor_ok Sample.road_trip Sample.road_trip_chain.
Proof. unfold cursor_ok. simpl. by left. Qed.

Lemma next_previous_song_undo_witness :
  ∃ current, get_current_song Sample.road_trip = Ok (Some current)
    ∧ previous_song (with_current Sample.road_trip (Some 1%nat))
      = Ok (Some current, Sample.road_trip).
Proof.
  exact (proj1 (next_previous_song_undo Sample.road_trip
                  (with_current Sample.road_trip (Some 1%nat))
                  Sample.road_trip_chain Sample.moon
                  road_trip_wf road_trip_cursor_ok) eq_refl).
Defined.

(** X6. [go_to_first_song] and [go_to_last_song] on a well-formed playlist:
    on the empty playlist they return [None] and change nothing; otherwise
    they put the cursor on the first (last) node of the forward traversal
    and return its song, and from there [previous_song] ([next_song])
    returns [None] and stays. *)
Theorem go_to_first_last_song_spec (pl : LinkedListPlaylist.t)
    (l : list (nat * Song)) :
  wf pl l →
  (l = [] →
   go_to_first_song pl = Ok (None, pl) ∧ go_to_last_song pl = Ok (None, pl))
  ∧ (∀ e l', l = e :: l' →
       go_to_first_song pl = Ok (Some e.2, with_current pl (Some e.1))
       ∧ previous_song (with_current pl (Some e.1))
         = Ok (None, with_current pl (Some e.1)))
  ∧ (∀ l' e, l = l' ++ [e] →
       go_to_last_song pl = Ok (Some e.2, with_current pl (Some e.1))
       ∧ next_song (with_current pl (Some e.1))
         = Ok (None, with_current pl (Some e.1))).
Proof.
  intros Hwf. pose proof (wf_is_empty _ _ Hwf) as Hemp.
  split; [|split].
  - intros ->. unfold go_to_first_song, go_to_last_song. by rewrite Hemp.
  - intros e l' ->. split.
    + unfold go_to_first_song. rewrite Hemp, bool_decide_eq_false_2 by done.
      destruct (wf_split pl [] e l' Hwf) as (_ & He & _).
      destruct Hwf as (_ & _ & -> & _). simpl.
      by rewrite (node_at_lookup _ _ _ He).
    + by rewrite (previous_song_at _ [] e l')
        by (done || by apply wf_with_current).
  - intros l' e ->. split.
    + unfold go_to_last_song.
      rewrite Hemp, bool_decide_eq_false_2 by (by destruct l').
      destruct (wf_split pl l' e [] Hwf) as (_ & He & _).
      destruct Hwf as (_ & _ & _ & -> & _). rewrite lastp_snoc. simpl.
      by rewrite (node_at_lookup _ _ _ He).
    + by rewrite (next_song_at _ l' e [])
        by (done || by apply wf_with_current).
Qed.

Lemma go_to_first_last_song_spec_witness :
  go_to_last_song Sample.road_trip
  = Ok (Some Sample.star, with_current Sample.road_trip (Some 2%nat))
  ∧ next_song (with_current Sample.road_trip (Some 2%nat))
    = Ok (None, with_current Sample.road_trip (Some 2%nat)).
Proof.
  exact (proj2 (proj2 (go_to_first_last_song_spec Sample.road_trip
                         Sample.road_trip_chain road_trip_wf))
           [(0%nat, Sample.sun); (1%nat, Sample.moon)] (2%nat, Sample.star)
           eq_refl).
Defined.

(** ** Playlist: search *)

Lemma search_loop_dseg fuel query h p l :
  dseg h p l None → (length l < fuel)%nat →
  (Forall (λ e, ListeningHistoryStack.matches query e.2 = false) l →
   LinkedListPlaylist.search_loop fuel query h (first l None) = Ok None)
  ∧ (∀ l1 e l2, l = l1 ++ e :: l2 →
       Forall (λ e, ListeningHistoryStack.matches query e.2 = false) l1 →
       ListeningHistoryStack.matches query e.2 = true →
       LinkedListPlaylist.search_loop fuel query h (first l None)
       = Ok (Some e.1)).
Proof.
  revert fuel p. induction l as [|[a s] l IH]; intros fuel p Hd Hf.
  - split; [by destruct fuel|]. by intros [|] ? ? ?.
  - destruct fuel as [|fuel]; simpl in Hf; [lia|].
    destruct Hd as [He Hl]. simpl in He, Hl |- *.
    rewrite (node_at_lookup _ _ _ He). simpl.
    change (Text.py_in (Text.lower query) (Text.lower (title s))
            || Text.py_in (Text.lower query) (Text.lower (artist s)))
      with (ListeningHistoryStack.matches query s).
    destruct (IH fuel (Some a)) as [IHno IHfound]; [done|lia|]. split.
    + intros Hno. apply Forall_cons_1 in Hno as [Hs Hno]. simpl in Hs.
      rewrite Hs. by apply IHno.
    + intros [|e1 l1] e l2 Heq Hno Hm.
      * simpl in Heq. injection Heq as <- <-. simpl in Hm. by rewrite Hm.
      * simpl in Heq. injection Heq as <- ->.
        apply Forall_cons_1 in Hno as [Hs Hno]. simpl in Hs. rewrite Hs.
        by apply (IHfound l1 e l2).
Qed.

Lemma search_loop_lower fuel query h current :
  LinkedListPlaylist.search_loop fuel (Text.lower query) h current
  = LinkedListPlaylist.search_loop fuel query h current.
Proof.
  revert current. induction fuel as [|fuel IH]; intros [cur|]; simpl; try done.
  rewrite lower_idemp. destruct (node_at h cur) as [n| |]; simpl; try done.
  by rewrite IH.
Qed.

(** X7. [search_song] on a well-formed playlist returns the first node of the
    forward traversal whose title or artist contains the query, both
    lowercased, and [None] when there is none (so also on the empty
    playlist); the case of the query does not matter. *)
Theorem search_song_finds_first (fuel : nat) (query : string)
    (pl : LinkedListPlaylist.t) (l : list (nat * Song)) :
  wf pl l → (length l < fuel)%nat →
  (Forall (λ e, ListeningHistoryStack.matches query e.2 = false) l →
   search_song fuel query pl = Ok None)
  ∧ (∀ l1 e l2, l = l1 ++ e :: l2 →
       Forall (λ e, ListeningHistoryStack.matches query e.2 = false) l1 →
       ListeningHistoryStack.matches query e.2 = true →
       search_song fuel query pl = Ok (Some e.1)
       ∧ (song_data <$> nodes pl !! e.1) = Some e.2
       ∧ (Text.Contains (Text.lower query) (Text.lower (title e.2))
          ∨ Text.Contains (Text.lower query) (Text.lower (artist e.2))))
  ∧ search_song fuel (Text.lower query) pl = search_song fuel query pl.
Proof.
  intros Hwf Hf. pose proof Hwf as (Hd & _ & Hh & _).
  destruct (search_loop_dseg fuel query _ _ _ Hd Hf) as [Hno Hfound].
  unfold search_song. split; [|split].
  - intros Hall. destruct (is_empty pl); [done|]. rewrite Hh. by apply Hno.
  - intros l1 e l2 -> Hall Hm.
    rewrite (wf_is_empty _ _ Hwf), bool_decide_eq_false_2 by (by destruct l1).
    rewrite Hh. split; [by apply (Hfound l1 e l2)|]. split.
    + destruct (wf_split _ _ _ _ Hwf) as (_ & -> & _). done.
    + unfold ListeningHistoryStack.matches in Hm.
      by rewrite orb_true_iff, !py_in_Contains in Hm.
  - destruct (is_empty pl); [done|]. apply search_loop_lower.
Qed.

Lemma search_song_finds_first_witness :
  search_song 4 "OO" Sample.road_trip = Ok (Some 1%nat)
  ∧ (song_data <$> nodes Sample.road_trip !! 1%nat) = Some Sample.moon
  ∧ (Text.Contains (Text.lower "OO") (Text.lower (title Sample.moon))
     ∨ Text.Contains (Text.lower "OO") (Text.lower (artist Sample.moon))).
Proof.
  refine (proj1 (proj2 (search_song_finds_first 4 "OO" Sample.road_trip
            Sample.road_trip_chain road_trip_wf _))
            [(0%nat, Sample.sun)] (1%nat, Sample.moon) [(2%nat, Sample.star)]
            eq_refl _ eq_refl).
  - simpl. lia.
  - by repeat constructor.
Defined.

(** ** Playlist: shuffle *)

Lemma swap_items_perm i j songs :
  (i < length songs)%nat → (j < length songs)%nat →
  ∃ songs', swap_items i j songs = Ok songs' ∧ songs' ≡ₚ songs.
Proof.
  intros Hi Hj. unfold swap_items.
  destruct (lookup_lt_is_Some_2 songs j Hj) as [sj Hsj].
  destruct (lookup_lt_is_Some_2 songs i Hi) as [si Hsi].
  rewrite Hsj, Hsi. eexists. split; [done|].
  apply Permutation_inj. split; [by rewrite !length_insert|].
  exists (λ k, if decide (k = j) then i else if decide (k = i) then j else k).
  split.
  - intros a b. repeat case_decide; intros; subst; congruence.
  - intros k. destruct (decide (k = j)) as [->|Hkj].
    + rewrite list_lookup_insert_eq by (by rewrite length_insert). done.
    + rewrite list_lookup_insert_ne by done.
      destruct (decide (k = i)) as [->|Hki].
      * by rewrite list_lookup_insert_eq.
      * by rewrite list_lookup_insert_ne.
Qed.

Lemma swap_loop_perm rnd n count k songs :
  (0 < n)%nat → length songs = n →
  ∃ songs', swap_loop rnd n count k songs = Ok songs' ∧ songs' ≡ₚ songs.
Proof.
  intros Hn. revert k songs. induction count as [|count IH]; intros k songs Hlen.
  - by exists songs.
  - simpl. case_bool_decide as Hij.
    + destruct (swap_items_perm (rnd k `mod` n) (rnd (S k) `mod` n) songs)
        as (songs1 & -> & Hperm1).
      * rewrite Hlen. apply Nat.mod_upper_bound. lia.
      * rewrite Hlen. apply Nat.mod_upper_bound. lia.
      * simpl. destruct (IH (S (S k)) songs1) as (songs' & -> & Hperm).
        { by rewrite (Permutation_length Hperm1). }
        exists songs'. split; [done|]. by rewrite Hperm.
    + simpl. by apply IH.
Qed.

Lemma add_all_fresh songs pl l :
  wf pl l →
  ∃ pl' l', add_all songs pl = Ok pl' ∧ wf pl' (l ++ l')
    ∧ l'.*2 = songs
    ∧ Forall (λ e, (length (nodes pl) ≤ e.1)%nat) l'
    ∧ length (nodes pl') = (length (nodes pl) + length songs)%nat.
Proof.
  revert pl l. induction songs as [|song songs IH]; intros pl l Hwf.
  - exists pl, []. rewrite app_nil_r. simpl.
    split; [done|]. split; [done|]. split; [done|]. split; [constructor|lia].
  - simpl. destruct (add_song_at_end_wf song pl l Hwf)
      as (pl1 & -> & Hwf1 & _ & Hlen1). simpl.
    destruct (IH pl1 _ Hwf1) as (pl' & l' & -> & Hwf' & Hsongs & Hfresh & Hlen).
    exists pl', ((length (nodes pl), song) :: l').
    split; [done|]. split; [by rewrite (cons_middle _ l l'), app_assoc|].
    split; [csimpl; by rewrite Hsongs|]. split; [|lia].
    constructor; [done|]. eapply Forall_impl; [exact Hfresh|].
    simpl. intros. lia.
Qed.

(** X8. [shuffle_playlist] on a well-formed playlist, for any random draws:
    with at most one song nothing changes; otherwise the call returns a
    well-formed playlist of freshly made nodes that holds the same songs,
    each as often as before, in some order, the size is the same and the
    cursor is on the new head. *)
Theorem shuffle_playlist_keeps_songs (rnd : nat → nat) (fuel : nat)
    (pl : LinkedListPlaylist.t) (l : list (nat * Song)) :
  wf pl l → (length l < fuel)%nat →
  ∃ pl' l', shuffle_playlist rnd fuel pl = Ok pl'
    ∧ wf pl' l'
    ∧ forward fuel pl' = Ok l'
    ∧ l'.*2 ≡ₚ l.*2
    ∧ get_size pl' = get_size pl
    ∧ ((length l ≤ 1)%nat → pl' = pl)
    ∧ ((1 < length l)%nat →
       current_node pl' = head pl'
       ∧ Forall (λ e, (length (nodes pl) ≤ e.1)%nat) l').
Proof.
  intros Hwf Hf. unfold shuffle_playlist.
  pose proof Hwf as (Hd & _ & Hh & _ & Hs).
  destruct (Z.leb_spec (size pl) 1) as [Hle|Hgt].
  { exists pl, l. split; [done|]. split; [done|].
    split; [by apply forward_wf|]. split; [done|]. split; [done|].
    split; [done|lia]. }
  rewrite Hh, (walk_next_dseg fuel _ None l) by done. simpl.
  destruct (swap_loop_perm rnd (Z.to_nat (size pl)) (Z.to_nat (size pl * 2))
              0 (l.*2)) as (songs & -> & Hperm);
    [lia|rewrite length_fmap; lia|].
  simpl.
  destruct (add_all_fresh songs (mk (nodes pl) None None (current_node pl) 0) [])
    as (pl' & l' & -> & Hwf' & Hsongs & Hfresh & _).
  { repeat split. constructor. }
  simpl in Hwf', Hfresh |- *.
  assert (length l' = length l) as Hlen'.
  { rewrite <- (length_fmap snd l'), Hsongs, (Permutation_length Hperm).
    by rewrite length_fmap. }
  exists (with_current pl' (head pl')), l'.
  split; [done|]. split; [by apply wf_with_current|].
  split; [apply forward_wf; [by apply wf_with_current|lia]|].
  split; [by rewrite Hsongs|].
  destruct Hwf' as (_ & _ & _ & _ & Hs'). unfold get_size. simpl.
  split; [lia|]. split; [lia|done].
Qed.

Lemma shuffle_playlist_keeps_songs_witness :
  ∃ pl' l', shuffle_playlist (λ k, 7 * k + 2)%nat 4 Sample.road_trip = Ok pl'
    ∧ wf pl' l'
    ∧ forward 4 pl' = Ok l'
    ∧ l'.*2 ≡ₚ Sample.road_trip_chain.*2
    ∧ get_size pl' = get_size Sample.road_trip
    ∧ ((length Sample.road_trip_chain ≤ 1)%nat → pl' = Sample.road_trip)
    ∧ ((1 < length Sample.road_trip_chain)%nat →
       current_node pl' = head pl'
       ∧ Forall (λ e, (length (nodes Sample.road_trip) ≤ e.1)%nat) l').
Proof.
  apply (shuffle_playlist_keeps_songs (λ k, 7 * k + 2)%nat 4 Sample.road_trip
           Sample.road_trip_chain road_trip_wf).
  simpl. lia.
Defined.

(** ** Playlist: insert and remove together *)

Lemma eq_nocase_refl s : Text.eq_nocase s s = true.
Proof. unfold Text.eq_nocase. apply String.eqb_refl. Qed.

(** X9. Inserting a song after a title and then removing the song by its own
    title gives back the playlist as it was seen from outside, provided no
    song already in the playlist has the new song's title: the forward
    traversal, head, tail, size and cursor are the ones before the two
    calls. *)
Theorem insert_after_then_remove (fuel : nat) (target : string) (song : Song)
    (pl pl1 : LinkedListPlaylist.t) (l : list (nat * Song)) :
  wf pl l → cursor_ok pl l → (S (length l) < fuel)%nat →
  no_match (title song) l →
  insert_song_after fuel target song pl = Ok (true, pl1) →
  ∃ pl2, remove_song fuel (title song) pl1 = Ok (true, pl2)
    ∧ forward fuel pl2 = Ok l
    ∧ head pl2 = head pl
    ∧ tail pl2 = tail pl
    ∧ get_size pl2 = get_size pl
    ∧ current_node pl2 = current_node pl.
Proof.
  intros Hwf Hc Hf Hnew Hins.
  destruct (first_match target l) as [Hno|(l1 & e & l2 & -> & Hno & Hm)].
  { rewrite (insert_song_after_not_found fuel target song pl l) in Hins
      by (done || lia). discriminate. }
  destruct (insert_song_after_found fuel target song pl l1 e l2)
    as (pl' & Heq & Hwf1 & Hcur1 & _); [done|lia|done..|].
  rewrite Heq in Hins. injection Hins as ->.
  set (a := length (nodes pl)) in *.
  apply Forall_app in Hnew as [Hnew1 Hnew2].
  apply Forall_cons_1 in Hnew2 as [Hnewe Hnew2].
  destruct (remove_song_found fuel (title song) pl1 (l1 ++ [e]) (a, song) l2)
    as (pl2 & Hrem & Hwf2 & Hcur2 & _).
  - by rewrite <- app_assoc.
  - rewrite !length_app in *. simpl in *. lia.
  - apply Forall_app. split; [done|]. by repeat constructor.
  - apply eq_nocase_refl.
  - rewrite <- app_assoc in Hwf2. simpl in Hwf2.
    exists pl2. split; [done|]. split; [apply forward_wf; [done|lia]|].
    destruct Hwf as (Hd & _ & Hh & Ht & Hs).
    destruct Hwf2 as (_ & _ & Hh2 & Ht2 & Hs2).
    split; [congruence|]. split; [congruence|].
    split; [unfold get_size; congruence|].
    rewrite Hcur2, Hcur1. rewrite bool_decide_eq_false_2; [done|].
    intros Hca. unfold cursor_ok in Hc. rewrite Hca in Hc.
    by apply (dseg_fresh _ _ _ _ Hd).
Qed.

Lemma insert_after_then_remove_witness :
  ∃ pl2,
    remove_song 5 (title Sample.comet)
      (mk [mkNode Sample.sun (Some 1%nat) None;
           mkNode Sample.moon (Some 3%nat) (Some 0%nat);
           mkNode Sample.star None (Some 3%nat);
           mkNode Sample.comet (Some 2%nat) (Some 1%nat)]
          (Some 0%nat) (Some 2%nat) (Some 0%nat) 4) = Ok (true, pl2)
    ∧ forward 5 pl2 = Ok Sample.road_trip_chain
    ∧ head pl2 = head Sample.road_trip
    ∧ tail pl2 = tail Sample.road_trip
    ∧ get_size pl2 = get_size Sample.road_trip
    ∧ current_node pl2 = current_node Sample.road_trip.
Proof.
  refine (insert_after_then_remove 5 "moon" Sample.comet Sample.road_trip _
            Sample.road_trip_chain road_trip_wf road_trip_cursor_ok _ _
            eq_refl).
  - simpl. lia.
  - by repeat constructor.
Defined.

(** ** Catalog *)

Lemma add_all_spec songs pl l :
  wf pl l → cursor_ok pl l →
  ∃ pl' l', add_all songs pl = Ok pl' ∧ wf pl' (l ++ l')
    ∧ cursor_ok pl' (l ++ l')
    ∧ l'.*2 = songs
    ∧ (l ≠ [] → current_node pl' = current_node pl ∧ head pl' = head pl)
    ∧ (l = [] → songs ≠ [] → current_node pl' = head pl').
Proof.
  revert pl l. induction songs as [|song songs IH]; intros pl l Hwf Hc.
  - exists pl, []. rewrite app_nil_r. simpl.
    split; [done|]. split; [done|]. split; [done|]. split; [done|].
    by split.
  - simpl. destruct (add_song_at_end_wf song pl l Hwf)
      as (pl1 & Heq1 & Hwf1 & Hcur1 & _).
    destruct (add_song_at_end_inv song pl l Hwf Hc) as (pl1' & Heq1' & _ & Hc1).
    rewrite Heq1 in Heq1'. injection Heq1' as <-. rewrite Heq1. simpl.
    destruct (IH pl1 _ Hwf1 Hc1)
      as (pl' & l' & -> & Hwf' & Hc' & Hsongs & Hkeep & _).
    destruct Hkeep as [Hcur' Hh']; [by destruct l|].
    exists pl', ((length (nodes pl), song) :: l').
    rewrite (cons_middle _ l l'), app_assoc.
    split; [done|]. split; [done|]. split; [done|].
    split; [csimpl; by rewrite Hsongs|].
    destruct Hwf as (_ & _ & Hh & _). destruct Hwf1 as (_ & _ & Hh1 & _).
    rewrite Hcur', Hh', Hcur1, Hh1, Hh, first_app. split.
    + intros Hne. rewrite bool_decide_eq_false_2 by done. by destruct l.
    + intros -> _. done.
Qed.

(** X10. [delete_playlist]: on a name that is not a key it returns false and
    changes nothing; otherwise it returns true, the name is no key any
    more, the other entries stay, and the selection is cleared exactly when
    it was the deleted name. *)
Theorem delete_playlist_spec (name : string) (pm : PlaylistManager.t) :
  (PlaylistManager.playlists pm !! name = None →
   PlaylistManager.delete_playlist name pm = (false, pm))
  ∧ (is_Some (PlaylistManager.playlists pm !! name) →
     ∃ pm', PlaylistManager.delete_playlist name pm = (true, pm')
       ∧ PlaylistManager.playlists pm' !! name = None
       ∧ (∀ other, other ≠ name →
            PlaylistManager.playlists pm' !! other
            = PlaylistManager.playlists pm !! other)
       ∧ (PlaylistManager.current_playlist_name pm = Some name →
          PlaylistManager.current_playlist_name pm' = None)
       ∧ (PlaylistManager.current_playlist_name pm ≠ Some name →
          PlaylistManager.current_playlist_name pm'
          = PlaylistManager.current_playlist_name pm)).
Proof.
  unfold PlaylistManager.delete_playlist. split.
  - by intros ->.
  - intros [pl ->]. eexists. split; [done|]. simpl.
    split; [by rewrite lookup_delete_eq|].
    split; [by intros other Hne; rewrite lookup_delete_ne|].
    split; intros Hc.
    + by rewrite bool_decide_eq_true_2.
    + by rewrite bool_decide_eq_false_2.
Qed.

Lemma delete_playlist_spec_witness :
  ∃ pm', PlaylistManager.delete_playlist "Road Trip" Sample.catalog
         = (true, pm')
    ∧ PlaylistManager.playlists pm' !! "Road Trip" = None
    ∧ (∀ other, other ≠ "Road Trip" →
         PlaylistManager.playlists pm' !! other
         = PlaylistManager.playlists Sample.catalog !! other)
    ∧ (PlaylistManager.current_playlist_name Sample.catalog
       = Some "Road Trip" →
       PlaylistManager.current_playlist_name pm' = None)
    ∧ (PlaylistManager.current_playlist_name Sample.catalog
       ≠ Some "Road Trip" →
       PlaylistManager.current_playlist_name pm'
       = PlaylistManager.current_playlist_name Sample.catalog).
Proof.
  apply (proj2 (delete_playlist_spec "Road Trip" Sample.catalog)).
  simpl. rewrite lookup_singleton_eq. eauto.
Defined.

(** X11. Creating a playlist under a new name and deleting it again gives back
    the mapping as it was, but not the selection: afterwards no playlist is
    current, whatever was selected before. *)
Theorem create_then_delete_playlist (name description : string)
    (pm : PlaylistManager.t) :
  PlaylistManager.playlists pm !! name = None →
  ∃ pm1, PlaylistManager.create_playlist name description pm = (true, pm1)
    ∧ PlaylistManager.delete_playlist name pm1
      = (true, PlaylistManager.mk (PlaylistManager.playlists pm) None).
Proof.
  intros Hnone. unfold PlaylistManager.create_playlist. rewrite Hnone.
  eexists. split; [done|]. unfold PlaylistManager.delete_playlist. simpl.
  rewrite lookup_insert_eq, bool_decide_eq_true_2 by done.
  by rewrite delete_insert_id.
Qed.

Lemma create_then_delete_playlist_witness :
  ∃ pm1,
    PlaylistManager.create_playlist "Gym" "" Sample.catalog = (true, pm1)
    ∧ PlaylistManager.delete_playlist "Gym" pm1
      = (true, PlaylistManager.mk
                 (PlaylistManager.playlists Sample.catalog) None).
Proof.
  apply (create_then_delete_playlist "Gym" "" Sample.catalog).
  reflexivity.
Defined.

(** X12. After a successful [create_playlist] the new playlist is the one
    [get_current_playlist] returns, unless its name is the empty string:
    the empty name is created and selected, but [get_current_playlist]
    answers [None] for it, so [add_song_to_current_playlist] refuses every
    song. *)
Theorem current_playlist_after_create (name description : string)
    (pm : PlaylistManager.t) :
  PlaylistManager.playlists pm !! name = None →
  ∃ pm', PlaylistManager.create_playlist name description pm = (true, pm')
    ∧ PlaylistManager.playlists pm' !! name = Some LinkedListPlaylist.init
    ∧ PlaylistManager.current_playlist_name pm' = Some name
    ∧ (name ≠ "" →
       PlaylistManager.get_current_playlist pm' = Some LinkedListPlaylist.init)
    ∧ (name = "" →
       PlaylistManager.get_current_playlist pm' = None
       ∧ ∀ song, PlaylistManager.add_song_to_current_playlist song pm'
                 = Ok (false, pm')).
Proof.
  intros Hnone. unfold PlaylistManager.create_playlist. rewrite Hnone.
  eexists. split; [done|]. simpl. rewrite lookup_insert_eq.
  split; [done|]. split; [done|].
  unfold PlaylistManager.add_song_to_current_playlist,
    PlaylistManager.get_current_playlist. simpl. split.
  - intros Hne. destruct (String.eqb_spec name ""); [done|].
    by rewrite lookup_insert_eq.
  - intros ->. done.
Qed.

Lemma current_playlist_after_create_witness :
  ∃ pm', PlaylistManager.create_playlist "" "nameless" PlaylistManager.init
         = (true, pm')
    ∧ PlaylistManager.playlists pm' !! "" = Some LinkedListPlaylist.init
    ∧ PlaylistManager.current_playlist_name pm' = Some ""
    ∧ ("" ≠ "" →
       PlaylistManager.get_current_playlist pm' = Some LinkedListPlaylist.init)
    ∧ ("" = "" →
       PlaylistManager.get_current_playlist pm' = None
       ∧ ∀ song, PlaylistManager.add_song_to_current_playlist song pm'
                 = Ok (false, pm')).
Proof.
  apply (current_playlist_after_create "" "nameless" PlaylistManager.init).
  reflexivity.
Defined.

(** X13. [add_song_to_current_playlist]: without a current playlist it returns
    false and changes nothing; with one (well-formed, forward traversal
    [l]) it returns true, that playlist has the song appended at its end,
    and the other playlists and the selection stay. *)
Theorem add_song_to_current_playlist_spec (song : Song)
    (pm : PlaylistManager.t) :
  (PlaylistManager.get_current_playlist pm = None →
   PlaylistManager.add_song_to_current_playlist song pm = Ok (false, pm))
  ∧ (∀ name pl l,
       PlaylistManager.current_playlist_name pm = Some name →
       PlaylistManager.get_current_playlist pm = Some pl →
       wf pl l →
       ∃ pm' pl',
         PlaylistManager.add_song_to_current_playlist song pm = Ok (true, pm')
         ∧ PlaylistManager.get_current_playlist pm' = Some pl'
         ∧ forward (2 + length l) pl' = Ok (l ++ [(length (nodes pl), song)])
         ∧ PlaylistManager.current_playlist_name pm' = Some name
         ∧ (∀ other, other ≠ name →
              PlaylistManager.playlists pm' !! other
              = PlaylistManager.playlists pm !! other)).
Proof.
  unfold PlaylistManager.add_song_to_current_playlist. split.
  - by intros ->.
  - intros name pl l Hname Hget Hwf. rewrite Hget, Hname.
    destruct (add_song_at_end_wf song pl l Hwf) as (pl' & -> & Hwf' & _).
    simpl. eexists _, pl'. split; [done|].
    unfold PlaylistManager.get_current_playlist in *. rewrite Hname in *.
    simpl. destruct (String.eqb name ""); [done|].
    rewrite lookup_insert_eq. split; [done|].
    split; [apply forward_wf; [done|rewrite length_app; simpl; lia]|].
    split; [done|]. intros other Hne. by rewrite lookup_insert_ne.
Qed.

Lemma add_song_to_current_playlist_spec_witness :
  ∃ pm' pl',
    PlaylistManager.add_song_to_current_playlist Sample.comet Sample.catalog
    = Ok (true, pm')
    ∧ PlaylistManager.get_current_playlist pm' = Some pl'
    ∧ forward (2 + length Sample.road_trip_chain) pl'
      = Ok (Sample.road_trip_chain
              ++ [(length (nodes Sample.road_trip), Sample.comet)])
    ∧ PlaylistManager.current_playlist_name pm' = Some "Road Trip"
    ∧ (∀ other, other ≠ "Road Trip" →
         PlaylistManager.playlists pm' !! other
         = PlaylistManager.playlists Sample.catalog !! other).
Proof.
  exact (proj2 (add_song_to_current_playlist_spec Sample.comet Sample.catalog)
           "Road Trip" Sample.road_trip Sample.road_trip_chain
           eq_refl eq_refl road_trip_wf).
Defined.

(** [song_library[:max_songs]] is a prefix of the library: the first
    [max_songs] songs (all of them if there are fewer) for a bound that is
    not negative, and all but the last [-max_songs] songs for a negative
    one. *)
Lemma slice_to_prefix max_songs (song_library : list Song) :
  PlaylistManager.slice_to max_songs song_library `prefix_of` song_library
  ∧ (0 ≤ max_songs →
     length (PlaylistManager.slice_to max_songs song_library)
     = (Z.to_nat max_songs `min` length song_library)%nat)
  ∧ (max_songs < 0 →
     length (PlaylistManager.slice_to max_songs song_library)
     = (length song_library - Z.to_nat (- max_songs))%nat).
Proof.
  unfold PlaylistManager.slice_to.
  destruct (Z.leb_spec 0 max_songs) as [Hpos|Hneg].
  - split; [apply prefix_take|]. split; [|lia].
    intros _. apply length_take.
  - split; [apply prefix_take|]. split; [lia|].
    intros _. rewrite length_take. lia.
Qed.

(** X14. [create_playlist_from_library] with a name that is a key returns false
    and changes nothing; with a new name and a library that is not empty it
    returns true, the new playlist is current and holds
    [song_library[:max_songs]] in library order with the cursor on the first
    song, and the other playlists stay.  A bound of zero, or a negative one
    that reaches past the start of the library, gives an empty playlist and
    still true. *)
Theorem create_playlist_from_library_fills (name description : string)
    (song_library : list Song) (max_songs : Z) (pm : PlaylistManager.t) :
  (is_Some (PlaylistManager.playlists pm !! name) →
   PlaylistManager.create_playlist_from_library name song_library max_songs
     description pm = Ok (false, pm))
  ∧ (PlaylistManager.playlists pm !! name = None → song_library ≠ [] →
     ∃ pm' pl l,
       PlaylistManager.create_playlist_from_library name song_library
         max_songs description pm = Ok (true, pm')
       ∧ PlaylistManager.playlists pm' !! name = Some pl
       ∧ PlaylistManager.current_playlist_name pm' = Some name
       ∧ (∀ other, other ≠ name →
            PlaylistManager.playlists pm' !! other
            = PlaylistManager.playlists pm !! other)
       ∧ forward (S (length l)) pl = Ok l
       ∧ l.*2 = PlaylistManager.slice_to max_songs song_library
       ∧ get_size pl = Z.of_nat (length l)
       ∧ current_node pl = head pl
       ∧ l.*2 `prefix_of` song_library
       ∧ (0 ≤ max_songs →
          length l = (Z.to_nat max_songs `min` length song_library)%nat)
       ∧ (max_songs < 0 →
          length l = (length song_library - Z.to_nat (- max_songs))%nat)).
Proof.
  unfold PlaylistManager.create_playlist_from_library,
    PlaylistManager.create_playlist. split.
  - by intros [pl ->].
  - intros Hnone Hlib. rewrite Hnone. simpl.
    destruct song_library as [|s0 lib]; [done|].
    set (library := s0 :: lib) in *. rewrite lookup_insert_eq.
    destruct (add_all_spec (PlaylistManager.slice_to max_songs library) init [])
      as (pl & l & -> & Hwf & Hc & Hsongs & _ & Hcur);
      [apply wf_init|done|].
    simpl in Hwf, Hc |- *. eexists _, pl, l. split; [done|]. simpl.
    rewrite lookup_insert_eq. split; [done|]. split; [done|].
    split; [by intros other Hne; rewrite !lookup_insert_ne|].
    split; [apply forward_wf; [done|lia]|]. split; [done|].
    pose proof Hwf as (_ & _ & Hh & _ & Hs). split; [done|].
    destruct (slice_to_prefix max_songs library) as (Hpre & Hpos & Hneg).
    rewrite <- Hsongs, length_fmap in Hpos, Hneg.
    split; [|by rewrite Hsongs].
    destruct (PlaylistManager.slice_to max_songs library) eqn:Hslice.
    + destruct l; [|done]. unfold cursor_ok in Hc. rewrite Hh.
      by destruct (current_node pl) as [c|]; [apply elem_of_nil in Hc|].
    + by apply Hcur.
Qed.

Lemma create_playlist_from_library_fills_witness :
  ∃ pm' pl l,
    PlaylistManager.create_playlist_from_library "Night"
      [Sample.sun; Sample.moon; Sample.star] (-1) "" Sample.catalog
    = Ok (true, pm')
    ∧ PlaylistManager.playlists pm' !! "Night" = Some pl
    ∧ PlaylistManager.current_playlist_name pm' = Some "Night"
    ∧ (∀ other, other ≠ "Night" →
         PlaylistManager.playlists pm' !! other
         = PlaylistManager.playlists Sample.catalog !! other)
    ∧ forward (S (length l)) pl = Ok l
    ∧ l.*2 = PlaylistManager.slice_to (-1)
               [Sample.sun; Sample.moon; Sample.star]
    ∧ get_size pl = Z.of_nat (length l)
    ∧ current_node pl = head pl
    ∧ l.*2 `prefix_of` [Sample.sun; Sample.moon; Sample.star]
    ∧ (0 ≤ -1 →
       length l
       = (Z.to_nat (-1)
          `min` length [Sample.sun; Sample.moon; Sample.star])%nat)
    ∧ (-1 < 0 →
       length l
       = (length [Sample.sun; Sample.moon; Sample.star]
          - Z.to_nat (- -1))%nat).
Proof.
  apply (proj2 (create_playlist_from_library_fills "Night" ""
                  [Sample.sun; Sample.moon; Sample.star] (-1) Sample.catalog)).
  - reflexivity.
  - done.
Defined.

(** X15. [load_playlist_from_library] returns a well-formed playlist that holds
    [song_library[:max_songs]] in library order, with the cursor on the
    first song; for an empty library it is the empty playlist. *)
Theorem load_playlist_from_library_spec (song_library : list Song)
    (max_songs : Z) :
  ∃ pl l, load_playlist_from_library song_library max_songs = Ok pl
    ∧ wf pl l
    ∧ forward (S (length l)) pl = Ok l
    ∧ l.*2 = PlaylistManager.slice_to max_songs song_library
    ∧ l.*2 `prefix_of` song_library
    ∧ get_size pl = Z.of_nat (length l)
    ∧ current_node pl = head pl
    ∧ (song_library = [] → pl = init).
Proof.
  destruct (add_all_spec (PlaylistManager.slice_to max_songs song_library)
              init []) as (pl & l & Heq & Hwf & Hc & Hsongs & _ & Hcur);
    [apply wf_init|done|].
  simpl in Hwf, Hc. exists pl, l.
  assert (load_playlist_from_library song_library max_songs = Ok pl) as Hload.
  { unfold load_playlist_from_library. destruct song_library; [|done].
    assert (PlaylistManager.slice_to max_songs [] = []) as Hnil
      by (unfold PlaylistManager.slice_to; destruct (0 <=? max_songs);
          apply take_nil).
    by rewrite Hnil in Heq. }
  split; [done|]. split; [done|]. split; [apply forward_wf; [done|lia]|].
  split; [done|].
  split; [rewrite Hsongs; apply slice_to_prefix|].
  pose proof Hwf as (_ & _ & Hh & _ & Hs). split; [done|]. split.
  - destruct (PlaylistManager.slice_to max_songs song_library) eqn:Hslice.
    + destruct l; [|done]. unfold cursor_ok in Hc. rewrite Hh.
      by destruct (current_node pl) as [c|]; [apply elem_of_nil in Hc|].
    + by apply Hcur.
  - intros ->. unfold load_playlist_from_library in Hload. congruence.
Qed.

(** *** What every catalog call keeps true *)

Lemma sound_init : CatalogTrace.sound PlaylistManager.init.
Proof. split; [done|]. intros name pl Hl. simpl in Hl. by rewrite lookup_empty in Hl. Qed.

Lemma sound_insert pm name pl l cur :
  CatalogTrace.sound pm → wf pl l → cursor_ok pl l →
  (cur = Some name ∨ cur = PlaylistManager.current_playlist_name pm) →
  CatalogTrace.sound
    (PlaylistManager.mk (<[name := pl]> (PlaylistManager.playlists pm)) cur).
Proof.
  intros [Hkey Hall] Hwf Hc Hcur. split; simpl.
  - intros n Hn. destruct (decide (n = name)) as [->|Hne].
    + rewrite lookup_insert_eq. eauto.
    + rewrite lookup_insert_ne by done. apply Hkey.
      destruct Hcur as [->| ->]; [congruence|done].
  - intros n pl0. destruct (decide (n = name)) as [->|Hne].
    + rewrite lookup_insert_eq. intros [= <-]. eauto.
    + rewrite lookup_insert_ne by done. apply Hall.
Qed.

Lemma create_playlist_sound name description pm :
  CatalogTrace.sound pm →
  CatalogTrace.sound (PlaylistManager.create_playlist name description pm).2.
Proof.
  intros Hs. unfold PlaylistManager.create_playlist.
  destruct (PlaylistManager.playlists pm !! name); [done|]. simpl.
  apply (sound_insert pm name init []); [done|apply wf_init|done|by left].
Qed.

Lemma run_call_sound c pm :
  CatalogTrace.sound pm →
  ∃ pm', CatalogTrace.run_call c pm = Ok pm' ∧ CatalogTrace.sound pm'.
Proof.
  intros Hs. destruct c as [name d|name|name|song|name lib max_songs d]; simpl.
  - eexists. split; [done|]. by apply create_playlist_sound.
  - eexists. split; [done|]. unfold PlaylistManager.delete_playlist.
    destruct (PlaylistManager.playlists pm !! name) eqn:Hl; [|done]. simpl.
    destruct Hs as [Hkey Hall]. split; simpl.
    + intros n. case_bool_decide as Hc; [done|]. intros Hn.
      rewrite lookup_delete_ne by congruence. by apply Hkey.
    + intros n pl0 Hn. apply lookup_delete_Some in Hn as [_ Hn].
      by apply (Hall n).
  - eexists. split; [done|]. unfold PlaylistManager.switch_playlist.
    destruct (PlaylistManager.playlists pm !! name) eqn:Hl; [|done]. simpl.
    destruct Hs as [Hkey Hall]. split; simpl; [|done].
    intros n [= <-]. by rewrite Hl.
  - unfold PlaylistManager.add_song_to_current_playlist.
    destruct (PlaylistManager.get_current_playlist pm) as [pl|] eqn:Hget;
      [|by exists pm].
    destruct (PlaylistManager.current_playlist_name pm) as [name|] eqn:Hname;
      [|by exists pm].
    assert (PlaylistManager.playlists pm !! name = Some pl) as Hl.
    { unfold PlaylistManager.get_current_playlist in Hget.
      rewrite Hname in Hget. by destruct (String.eqb name ""). }
    destruct Hs as [Hkey Hall]. destruct (Hall name pl Hl) as (l & Hwf & Hc).
    destruct (add_song_at_end_inv song pl l Hwf Hc) as (pl' & -> & Hwf' & Hc').
    simpl. eexists. split; [done|].
    eapply sound_insert; [by split|done..|]. right. done.
  - unfold PlaylistManager.create_playlist_from_library.
    pose proof (create_playlist_sound name d pm Hs) as Hs1.
    destruct (PlaylistManager.create_playlist name d pm) as [created pm1] eqn:Hcr.
    simpl in Hs1. destruct created; simpl; [|by exists pm1].
    destruct lib as [|s0 lib]; [by exists pm1|].
    destruct (PlaylistManager.playlists pm1 !! name) as [pl|] eqn:Hl.
    2:{ unfold PlaylistManager.create_playlist in Hcr.
        destruct (PlaylistManager.playlists pm !! name); [done|].
        injection Hcr as <-. simpl in Hl. by rewrite lookup_insert_eq in Hl. }
    destruct Hs1 as [Hkey Hall]. destruct (Hall name pl Hl) as (l & Hwf & Hc).
    destruct (add_all_spec (PlaylistManager.slice_to max_songs (s0 :: lib))
                pl l Hwf Hc) as (pl' & l' & -> & Hwf' & Hc' & _).
    simpl. eexists. split; [done|].
    eapply sound_insert; [by split|done..|]. by right.
Qed.

(** X16. For every sequence of [create_playlist], [delete_playlist],
    [switch_playlist], [add_song_to_current_playlist] and
    [create_playlist_from_library] calls on a new catalog, every call
    returns, the current name, if set, is a key of the catalog, and every
    playlist in the catalog is a well-formed list whose cursor is unset
    exactly when the playlist is empty and otherwise on one of its nodes. *)
Theorem catalog_stays_sound (calls : list CatalogTrace.call) :
  ∃ pm, CatalogTrace.run calls = Ok pm
    ∧ (∀ name, PlaylistManager.current_playlist_name pm = Some name →
         is_Some (PlaylistManager.playlists pm !! name))
    ∧ (∀ name pl, PlaylistManager.playlists pm !! name = Some pl →
         ∃ l, wf pl l ∧ cursor_ok pl l
           ∧ forward (S (length l)) pl = Ok l
           ∧ get_size pl = Z.of_nat (length l)).
Proof.
  unfold CatalogTrace.run.
  assert (∀ pm0, CatalogTrace.sound pm0 →
            ∃ pm, CatalogTrace.run_from calls pm0 = Ok pm
              ∧ CatalogTrace.sound pm) as Hgen.
  { induction calls as [|c calls IH]; intros pm0 Hs; [by exists pm0|].
    simpl. destruct (run_call_sound c pm0 Hs) as (pm1 & -> & Hs1). simpl.
    by apply IH. }
  destruct (Hgen _ sound_init) as (pm & Hrun & Hkey & Hall).
  exists pm. split; [done|]. split; [done|].
  intros name pl Hl. destruct (Hall name pl Hl) as (l & Hwf & Hc).
  exists l. split; [done|]. split; [done|].
  split; [apply forward_wf; [done|lia]|]. by destruct Hwf as (_ & _ & _ & _ & ?).
Qed.

(** ** Party queue: dequeue and upvote *)

Lemma party_run_from_sorted calls queue :
  StronglySorted (PySort.desc snd) queue →
  StronglySorted (PySort.desc snd) (PartyTrace.run_from calls queue).
Proof.
  revert queue. induction calls as [|[song priority|song_title] calls IH];
    intros queue Hs; simpl; [done|..]; apply IH.
  - apply enqueue_sorted.
  - by apply upvote_sorted.
Qed.

(** X17. After any sequence of [enqueue] and [upvote] calls from the empty
    queue, [dequeue] on the empty queue returns [None] and leaves it empty;
    otherwise it removes and returns the first stored song, whose priority
    is at least that of every entry left behind. *)
Theorem party_dequeue_highest (calls : list PartyTrace.call) :
  (PartyTrace.run calls = [] →
   PrioritySongQueue.dequeue (PartyTrace.run calls) = (None, []))
  ∧ (∀ song priority rest, PartyTrace.run calls = (song, priority) :: rest →
       PrioritySongQueue.dequeue (PartyTrace.run calls) = (Some song, rest)
       ∧ Forall (λ e, e.2 ≤ priority) rest
       ∧ PrioritySongQueue.get_size rest
         = PrioritySongQueue.get_size (PartyTrace.run calls) - 1).
Proof.
  assert (StronglySorted (PySort.desc snd) (PartyTrace.run calls)) as Hs
    by (apply party_run_from_sorted; constructor).
  split.
  - by intros ->.
  - intros song priority rest Heq. rewrite Heq in Hs |- *.
    split; [done|]. apply StronglySorted_inv in Hs as [_ Hall].
    split; [done|]. unfold PrioritySongQueue.get_size. simpl length. lia.
Qed.

Lemma party_dequeue_highest_witness :
  PrioritySongQueue.dequeue
    (PartyTrace.run [Enqueue Sample.sun 0; Enqueue Sample.moon 0;
                     Enqueue Sample.star 5])
  = (Some Sample.star, [(Sample.sun, 0); (Sample.moon, 0)])
  ∧ Forall (λ e, e.2 ≤ 5) [(Sample.sun, 0); (Sample.moon, 0)]
  ∧ PrioritySongQueue.get_size [(Sample.sun, 0); (Sample.moon, 0)]
    = PrioritySongQueue.get_size
        (PartyTrace.run [Enqueue Sample.sun 0; Enqueue Sample.moon 0;
                         Enqueue Sample.star 5]) - 1.
Proof.
  exact (proj2 (party_dequeue_highest
                  [Enqueue Sample.sun 0; Enqueue Sample.moon 0;
                   Enqueue Sample.star 5])
           Sample.star 5 [(Sample.sun, 0); (Sample.moon, 0)] eq_refl).
Defined.

(** X18. [enqueue] and [upvote] never lose or duplicate an entry: the queue
    after [enqueue] is a rearrangement of the old entries and the new one;
    [upvote] keeps the songs, returns true exactly when some stored title
    equals the given one without regard to case, and leaves the queue as it
    is when it returns false. *)
Theorem party_queue_keeps_entries (song : Song) (priority : Z)
    (song_title : string) (queue : list (Song * Z)) :
  PrioritySongQueue.enqueue song priority queue ≡ₚ (song, priority) :: queue
  ∧ (PrioritySongQueue.upvote song_title queue).2.*1 ≡ₚ queue.*1
  ∧ ((PrioritySongQueue.upvote song_title queue).1 = true
     ↔ Exists (λ e, Text.eq_nocase (title e.1) song_title = true) queue)
  ∧ ((PrioritySongQueue.upvote song_title queue).1 = false →
     (PrioritySongQueue.upvote song_title queue).2 = queue).
Proof.
  split.
  { unfold PrioritySongQueue.enqueue, PriorityQueueOver.enqueue.
    rewrite sort_desc_perm. by rewrite <- Permutation_cons_append. }
  unfold PrioritySongQueue.upvote, PriorityQueueOver.upvote.
  destruct (upvote_loop_spec title song_title [] queue) as
    [[Hno Heq]|(mid & s & p & lo & -> & Hno & Hm & Heq)]; [constructor|..];
    simpl in Heq; rewrite Heq; simpl.
  - split; [done|]. split; [|done]. split; [done|].
    intros Hex. apply Exists_exists in Hex as (e & He & Hm).
    rewrite Forall_forall in Hno. by rewrite (Hno e He) in Hm.
  - split; [|split; [|done]].
    + rewrite sort_desc_perm. by rewrite !fmap_app.
    + split; [|done]. intros _. apply Exists_app. right. by left.
Qed.

(** ** Orchestrator: the queues and the history *)

Section PlayerFacts.
Context {M : Type} `{Pygame.Mixer M}.

Lemma play_song_cases (song : Song) (p : MusicPlayerStacksQueues.t M) p' :
  MusicPlayerStacksQueues.play_song song p = Ok p' →
  MusicPlayerStacksQueues.play_next_queue p'
  = MusicPlayerStacksQueues.play_next_queue p
  ∧ MusicPlayerStacksQueues.party_queue p'
    = MusicPlayerStacksQueues.party_queue p
  ∧ (MusicPlayerStacksQueues.currently_playing p' = None
     ∧ MusicPlayerStacksQueues.listening_history p'
       = MusicPlayerStacksQueues.listening_history p
     ∨ MusicPlayerStacksQueues.currently_playing p' = Some song
       ∧ MusicPlayerStacksQueues.listening_history p'
         = MusicPlayerStacksQueues.listening_history p ++ [song]).
Proof.
  unfold MusicPlayerStacksQueues.play_song.
  destruct (Pygame.music_load _ _) as [[|[]] m]; try done.
  - destruct (Pygame.music_play m) as [[|[]] m']; try done;
      intros [= <-]; simpl; auto.
  - intros [= <-]; simpl; auto.
Qed.

Lemma run_call_history c (p p' : MusicPlayerStacksQueues.t M) :
  PlayerTrace.run_call c p = Ok p' → PlayerTrace.playing_is_latest p →
  MusicPlayerStacksQueues.listening_history p
    `prefix_of` MusicPlayerStacksQueues.listening_history p'
  ∧ PlayerTrace.playing_is_latest p'.
Proof.
  assert (∀ song q q', MusicPlayerStacksQueues.play_song song q = Ok q' →
            MusicPlayerStacksQueues.listening_history q
              `prefix_of` MusicPlayerStacksQueues.listening_history q'
            ∧ PlayerTrace.playing_is_latest q') as Hplay.
  { intros song q q' Hq. apply play_song_cases in Hq
      as (_ & _ & [[Hcp Hh]|[Hcp Hh]]); unfold PlayerTrace.playing_is_latest;
      rewrite Hcp, Hh.
    - by split.
    - split; [by apply prefix_app_r|]. intros s [= <-]. by rewrite last_snoc. }
  intros Hrun Hinv. destruct c; simpl in Hrun.
  - by eapply Hplay.
  - injection Hrun as <-. by split.
  - injection Hrun as <-. by split.
  - unfold MusicPlayerStacksQueues.play_next_song in Hrun.
    destruct (SongQueue.dequeue _) as [[song|] queue].
    + by apply Hplay in Hrun.
    + injection Hrun as <-. by split.
  - injection Hrun as <-. by split.
  - unfold MusicPlayerStacksQueues.play_from_party_queue in Hrun.
    destruct (PrioritySongQueue.dequeue _) as [[song|] queue].
    + by apply Hplay in Hrun.
    + injection Hrun as <-. by split.
  - injection Hrun as <-. by split.
Qed.

End PlayerFacts.

(** X19. For every sequence of orchestrator calls that returns, starting from a
    player in which nothing is playing: the history before is a prefix of
    the history after (no entry is ever removed or changed), and a song
    that is playing afterwards is the last entry of the history. *)
Theorem history_only_grows {M : Type} `{Pygame.Mixer M}
    (calls : list PlayerTrace.call) (p p' : MusicPlayerStacksQueues.t M) :
  MusicPlayerStacksQueues.currently_playing p = None →
  PlayerTrace.run_from calls p = Ok p' →
  MusicPlayerStacksQueues.listening_history p
    `prefix_of` MusicPlayerStacksQueues.listening_history p'
  ∧ (∀ song, MusicPlayerStacksQueues.currently_playing p' = Some song →
       last (MusicPlayerStacksQueues.listening_history p') = Some song).
Proof.
  intros Hnone Hrun.
  assert (PlayerTrace.playing_is_latest p) as Hinv
    by (intros song; by rewrite Hnone).
  clear Hnone. revert p Hrun Hinv.
  induction calls as [|c calls IH]; intros p Hrun Hinv.
  - simpl in Hrun. injection Hrun as <-. by split.
  - simpl in Hrun.
    destruct (PlayerTrace.run_call c p) as [p1| |] eqn:Hc; try done.
    simpl in Hrun. destruct (run_call_history c p p1 Hc Hinv) as [Hpre Hinv1].
    destruct (IH p1 Hrun Hinv1) as [Hpre' Hlast]. split; [|done].
    by etrans.
Qed.

Lemma history_only_grows_witness :
  MusicPlayerStacksQueues.listening_history Sample.player
    `prefix_of` MusicPlayerStacksQueues.listening_history
                  (MusicPlayerStacksQueues.mk ["music/X - Sun.mp3"] [] []
                     [Sample.sun] (Some Sample.sun))
  ∧ (∀ song,
       MusicPlayerStacksQueues.currently_playing
         (MusicPlayerStacksQueues.mk ["music/X - Sun.mp3"] [] []
            [Sample.sun] (Some Sample.sun)) = Some song →
       last (MusicPlayerStacksQueues.listening_history
               (MusicPlayerStacksQueues.mk ["music/X - Sun.mp3"] [] []
                  [Sample.sun] (Some Sample.sun))) = Some song).
Proof.
  exact (history_only_grows
           [PlayerTrace.AddToPlayNext Sample.silent;
            PlayerTrace.AddToPlayNext Sample.sun;
            PlayerTrace.PlayNext; PlayerTrace.PlayNext]
           Sample.player
           (MusicPlayerStacksQueues.mk ["music/X - Sun.mp3"] [] []
              [Sample.sun] (Some Sample.sun))
           eq_refl eq_refl).
Defined.

(** X20. [play_next_song] and [play_from_party_queue] on an empty queue return
    without touching the player; otherwise the front song leaves its queue
    whether or not the mixer accepts it: when the mixer raises
    [pygame.error] the song is gone from the queue, is not in the history
    and nothing is playing. *)
Theorem play_next_song_consumes {M : Type} `{Pygame.Mixer M}
    (p : MusicPlayerStacksQueues.t M) :
  (MusicPlayerStacksQueues.play_next_queue p = [] →
   MusicPlayerStacksQueues.play_next_song p = Ok p)
  ∧ (MusicPlayerStacksQueues.party_queue p = [] →
     MusicPlayerStacksQueues.play_from_party_queue p = Ok p)
  ∧ (∀ song rest p',
       MusicPlayerStacksQueues.play_next_queue p = song :: rest →
       MusicPlayerStacksQueues.play_next_song p = Ok p' →
       MusicPlayerStacksQueues.play_next_queue p' = rest
       ∧ MusicPlayerStacksQueues.party_queue p'
         = MusicPlayerStacksQueues.party_queue p
       ∧ (MusicPlayerStacksQueues.currently_playing p' = None
          ∧ MusicPlayerStacksQueues.listening_history p'
            = MusicPlayerStacksQueues.listening_history p
          ∨ MusicPlayerStacksQueues.currently_playing p' = Some song
            ∧ MusicPlayerStacksQueues.listening_history p'
              = MusicPlayerStacksQueues.listening_history p ++ [song]))
  ∧ (∀ song priority rest p',
       MusicPlayerStacksQueues.party_queue p = (song, priority) :: rest →
       MusicPlayerStacksQueues.play_from_party_queue p = Ok p' →
       MusicPlayerStacksQueues.party_queue p' = rest
       ∧ MusicPlayerStacksQueues.play_next_queue p'
         = MusicPlayerStacksQueues.play_next_queue p
       ∧ (MusicPlayerStacksQueues.currently_playing p' = None
          ∧ MusicPlayerStacksQueues.listening_history p'
            = MusicPlayerStacksQueues.listening_history p
          ∨ MusicPlayerStacksQueues.currently_playing p' = Some song
            ∧ MusicPlayerStacksQueues.listening_history p'
              = MusicPlayerStacksQueues.listening_history p ++ [song])).
Proof.
  unfold MusicPlayerStacksQueues.play_next_song,
    MusicPlayerStacksQueues.play_from_party_queue.
  split; [by intros ->|]. split; [by intros ->|]. split.
  - intros song rest p' -> Hplay. simpl in Hplay.
    apply play_song_cases in Hplay as (Hq & Hparty & Hcases). simpl in *.
    done.
  - intros song priority rest p' -> Hplay. simpl in Hplay.
    apply play_song_cases in Hplay as (Hq & Hparty & Hcases). simpl in *.
    done.
Qed.

Lemma play_next_song_consumes_witness :
  MusicPlayerStacksQueues.play_next_queue Sample.player = []
  ∧ MusicPlayerStacksQueues.party_queue Sample.player
    = MusicPlayerStacksQueues.party_queue Sample.player_waiting
  ∧ (MusicPlayerStacksQueues.currently_playing Sample.player = None
     ∧ MusicPlayerStacksQueues.listening_history Sample.player
       = MusicPlayerStacksQueues.listening_history Sample.player_waiting
     ∨ MusicPlayerStacksQueues.currently_playing Sample.player
       = Some Sample.silent
       ∧ MusicPlayerStacksQueues.listening_history Sample.player
         = MusicPlayerStacksQueues.listening_history Sample.player_waiting
           ++ [Sample.silent]).
Proof.
  exact (proj1 (proj2 (proj2 (play_next_song_consumes Sample.player_waiting)))
           Sample.silent (@nil Song) Sample.player eq_refl eq_refl).
Defined.

(** X21. The play-next queue is first in, first out: with a mixer that accepts
    every song, adding songs to an empty play-next queue and then calling
    [play_next_song] once for each of them plays them in the order they
    were added, which is the order they have in the history afterwards. *)
Theorem play_next_is_fifo {M : Type} `{Pygame.Mixer M}
    (songs : list Song) (p : MusicPlayerStacksQueues.t M) :
  (∀ path m, (Pygame.music_load path m).1 = Pygame.returned) →
  (∀ m, (Pygame.music_play m).1 = Pygame.returned) →
  MusicPlayerStacksQueues.play_next_queue p = [] →
  ∃ p',
    PlayerTrace.run_from
      ((PlayerTrace.AddToPlayNext <$> songs)
         ++ replicate (length songs) PlayerTrace.PlayNext) p = Ok p'
    ∧ MusicPlayerStacksQueues.listening_history p'
      = MusicPlayerStacksQueues.listening_history p ++ songs
    ∧ MusicPlayerStacksQueues.play_next_queue p' = []
    ∧ (songs ≠ [] →
       MusicPlayerStacksQueues.currently_playing p' = last songs).
Proof.
  intros Hload Hplay Hempty.
  assert (∀ calls1 calls2 (q : MusicPlayerStacksQueues.t M),
            PlayerTrace.run_from (calls1 ++ calls2) q
            = (q1 ← PlayerTrace.run_from calls1 q;
               PlayerTrace.run_from calls2 q1)) as Happ.
  { induction calls1 as [|c calls1 IH]; intros calls2 q; simpl; [done|].
    destruct (PlayerTrace.run_call c q); simpl; [apply IH|done..]. }
  assert (∀ added (q : MusicPlayerStacksQueues.t M),
            PlayerTrace.run_from (PlayerTrace.AddToPlayNext <$> added) q
            = Ok (MusicPlayerStacksQueues.mk
                    (MusicPlayerStacksQueues.mixer q)
                    (MusicPlayerStacksQueues.play_next_queue q ++ added)
                    (MusicPlayerStacksQueues.party_queue q)
                    (MusicPlayerStacksQueues.listening_history q)
                    (MusicPlayerStacksQueues.currently_playing q))) as Hadd.
  { induction added as [|s added IH]; intros q; csimpl.
    - rewrite app_nil_r. by destruct q.
    - rewrite IH. simpl. unfold SongQueue.enqueue.
      by rewrite <- app_assoc. }
  assert (∀ queue (q : MusicPlayerStacksQueues.t M),
            MusicPlayerStacksQueues.play_next_queue q = queue →
            ∃ q', PlayerTrace.run_from
                    (replicate (length queue) PlayerTrace.PlayNext) q = Ok q'
              ∧ MusicPlayerStacksQueues.listening_history q'
                = MusicPlayerStacksQueues.listening_history q ++ queue
              ∧ MusicPlayerStacksQueues.play_next_queue q' = []
              ∧ MusicPlayerStacksQueues.currently_playing q'
                = match last queue with
                  | Some s => Some s
                  | None => MusicPlayerStacksQueues.currently_playing q
                  end)
    as Hdrain.
  { induction queue as [|s queue IH]; intros q Hq.
    - exists q. simpl. rewrite app_nil_r. done.
    - simpl. unfold MusicPlayerStacksQueues.play_next_song,
        MusicPlayerStacksQueues.play_song. rewrite Hq. simpl.
      pose proof (Hload (file_path s) (MusicPlayerStacksQueues.mixer q)) as Hl.
      destruct (Pygame.music_load _ _) as [o m]. simpl in Hl. subst o.
      pose proof (Hplay m) as Hp.
      destruct (Pygame.music_play m) as [o m']. simpl in Hp. subst o.
      simpl.
      destruct (IH (MusicPlayerStacksQueues.mk m' queue
                      (MusicPlayerStacksQueues.party_queue q)
                      (ListeningHistoryStack.push s
                         (MusicPlayerStacksQueues.listening_history q))
                      (Some s)) eq_refl) as (q' & -> & Hh & Hqueue & Hcp).
      exists q'. split; [done|]. simpl in Hh, Hcp.
      unfold ListeningHistoryStack.push in Hh.
      rewrite <- app_assoc in Hh. split; [done|]. split; [done|].
      rewrite Hcp, last_cons. by destruct (last queue). }
  rewrite Happ, Hadd. simpl. rewrite Hempty. simpl.
  destruct (Hdrain songs
              (MusicPlayerStacksQueues.mk (MusicPlayerStacksQueues.mixer p)
                 songs (MusicPlayerStacksQueues.party_queue p)
                 (MusicPlayerStacksQueues.listening_history p)
                 (MusicPlayerStacksQueues.currently_playing p)) eq_refl)
    as (p' & -> & Hh & Hq & Hcp).
  exists p'. split; [done|]. split; [done|]. split; [done|].
  intros Hne. rewrite Hcp. destruct (last songs) eqn:Hlast; [done|].
  by apply last_None in Hlast.
Qed.

Lemma play_next_is_fifo_witness :
  ∃ p',
    PlayerTrace.run_from
      ((PlayerTrace.AddToPlayNext <$> [Sample.sun; Sample.moon])
         ++ replicate (length [Sample.sun; Sample.moon]) PlayerTrace.PlayNext)
      (MusicPlayerStacksQueues.init (M := unit) ()) = Ok p'
    ∧ MusicPlayerStacksQueues.listening_history p'
      = MusicPlayerStacksQueues.listening_history
          (MusicPlayerStacksQueues.init (M := unit) ())
        ++ [Sample.sun; Sample.moon]
    ∧ MusicPlayerStacksQueues.play_next_queue p' = []
    ∧ ([Sample.sun; Sample.moon] ≠ [] →
       MusicPlayerStacksQueues.currently_playing p'
       = last [Sample.sun; Sample.moon]).
Proof.
  apply (play_next_is_fifo (M := unit) [Sample.sun; Sample.moon]
           (MusicPlayerStacksQueues.init ())); reflexivity.
Defined.

(** ** recursive_playlist_shuffle.py *)

Section RecursiveShuffleFacts.
Context (coin : nat → bool) (sample : nat → list Song → list Song).

Lemma covers_take_left l0 left right result :
  RecursiveShuffle.covers left right result →
  RecursiveShuffle.covers (l0 :: left) right (l0 :: result).
Proof.
  intros (Hl & Hr & Hm & Hin). split; [by constructor|].
  split; [by constructor|]. split; [by constructor|].
  intros song Hs. apply elem_of_cons in Hs as [->|Hs]; [by left|].
  right. by apply Hin.
Qed.

(** Taking the head of [right] and going on with the tail. *)
Lemma covers_take_right r0 left right result :
  RecursiveShuffle.covers left right result →
  RecursiveShuffle.covers left (r0 :: right) (r0 :: result).
Proof.
  intros (Hl & Hr & Hm & Hin). split; [by constructor|].
  split; [by constructor|]. split.
  - rewrite <- Permutation_middle. by constructor.
  - intros song Hs. rewrite elem_of_app, elem_of_cons.
    apply elem_of_cons in Hs as [->|Hs]; [by right; left|].
    apply Hin, elem_of_app in Hs as [?|?]; [by left|by right; right].
Qed.

(** Taking the head of [right] and going on with all of [right], as the
    recursive branch of [merge_with_random_order] does. *)
Lemma covers_repeat_right r0 left right result :
  RecursiveShuffle.covers left (r0 :: right) result →
  RecursiveShuffle.covers left (r0 :: right) (r0 :: result).
Proof.
  intros (Hl & Hr & Hm & Hin). split; [by constructor|].
  split; [by constructor|]. split; [by constructor|].
  intros song Hs. apply elem_of_cons in Hs as [->|Hs]; [|by apply Hin].
  rewrite elem_of_app, elem_of_cons. by right; left.
Qed.

Lemma covers_nil_l right : RecursiveShuffle.covers [] right right.
Proof.
  split; [apply sublist_nil_l|]. split; [done|]. by split.
Qed.

Lemma covers_nil_r left : RecursiveShuffle.covers left [] left.
Proof.
  split; [done|]. split; [apply sublist_nil_l|]. rewrite app_nil_r. by split.
Qed.

Lemma fallback_merge_covers left k right :
  RecursiveShuffle.covers left right
    (RecursiveShuffle.fallback_merge coin left k right).1.
Proof.
  revert k right. induction left as [|l0 left IHl]; intros k right.
  - destruct right; apply covers_nil_l.
  - revert k. induction right as [|r0 right IHr]; intros k.
    + apply covers_nil_r.
    + simpl. destruct (coin k).
      * specialize (IHl (S k) (r0 :: right)).
        destruct (RecursiveShuffle.fallback_merge coin left (S k) (r0 :: right))
          as [result k'].
        by apply covers_take_left.
      * specialize (IHr (S k)). simpl in IHr.
        destruct ((fix same_left (k0 : nat) (right0 : list Song) {struct right0}
                     : list Song * nat := _) (S k) right) as [result k'].
        by apply covers_take_right.
Qed.

Lemma merge_from_covers budget depth k left right :
  RecursiveShuffle.covers left right
    (RecursiveShuffle.merge_from coin budget depth k left right).1.
Proof.
  revert depth k left right.
  induction budget as [|budget IH]; intros depth k left right; simpl;
    (destruct (50 <? depth); [apply fallback_merge_covers|]);
    (destruct left as [|l0 left]; [apply covers_nil_l|]);
    (destruct right as [|r0 right]; [apply covers_nil_r|]).
  - apply fallback_merge_covers.
  - destruct (coin k).
    + specialize (IH (depth + 1) (S k) left (r0 :: right)).
      destruct (RecursiveShuffle.merge_from _ _ _ _ _ _) as [result k'].
      by apply covers_take_left.
    + specialize (IH (depth + 1) (S k) (l0 :: left) (r0 :: right)).
      destruct (RecursiveShuffle.merge_from _ _ _ _ _ _) as [result k'].
      by apply covers_repeat_right.
Qed.

(** The source's equation for the recursive branch of
    [merge_with_random_order]. *)
Lemma merge_with_random_order_step k l0 left r0 right depth :
  depth ≤ 50 →
  RecursiveShuffle.merge_with_random_order coin k (l0 :: left) (r0 :: right)
    depth
  = if coin k then
      let '(result, k') :=
        RecursiveShuffle.merge_with_random_order coin (S k) left (r0 :: right)
          (depth + 1) in
      (l0 :: result, k')
    else
      let '(result, k') :=
        RecursiveShuffle.merge_with_random_order coin (S k) (l0 :: left)
          (r0 :: right) (depth + 1) in
      (r0 :: result, k').
Proof.
  intros Hd. unfold RecursiveShuffle.merge_with_random_order.
  replace (Z.to_nat (51 - depth)) with (S (Z.to_nat (51 - (depth + 1))))
    by lia.
  simpl. destruct (Z.ltb_spec 50 depth); [lia|done].
Qed.

End RecursiveShuffleFacts.

(** X22. [merge_with_random_order], for any random draws and any depth: the
    result holds [left] in its order and [right] in its order, holds every
    song at least as often as the two lists together, and holds no song
    from elsewhere. *)
Theorem merge_with_random_order_covers (coin : nat → bool) (k : nat)
    (left right : list Song) (depth : Z) :
  let result :=
    (RecursiveShuffle.merge_with_random_order coin k left right depth).1 in
  left `sublist_of` result
  ∧ right `sublist_of` result
  ∧ left ++ right ⊆+ result
  ∧ (∀ song, song ∈ result → song ∈ left ++ right)
  ∧ (length left + length right ≤ length result)%nat.
Proof.
  intros result. subst result.
  destruct (merge_from_covers coin (Z.to_nat (51 - depth)) depth k left right)
    as (Hl & Hr & Hm & Hin).
  unfold RecursiveShuffle.merge_with_random_order.
  split; [done|]. split; [done|]. split; [done|]. split; [done|].
  rewrite <- length_app. by apply submseteq_length.
Qed.

(** X23. The recursive branch of [merge_with_random_order] that takes the head
    of [right] goes on with all of [right], not with its tail: whenever the
    draw at a depth of at most 50 picks [right] while both lists have
    songs, the result starts with the head of [right] and is longer than
    the two lists together, so that song is in the result more often than
    in the input. *)
Theorem merge_with_random_order_repeats (coin : nat → bool) (k : nat)
    (left right : list Song) (depth : Z) :
  left ≠ [] → right ≠ [] → depth ≤ 50 → coin k = false →
  let result :=
    (RecursiveShuffle.merge_with_random_order coin k left right depth).1 in
  hd_error result = hd_error right
  ∧ tl result
    = (RecursiveShuffle.merge_with_random_order coin (S k) left right
         (depth + 1)).1
  ∧ (length left + length right < length result)%nat.
Proof.
  intros Hl Hr Hd Hcoin result. subst result.
  destruct left as [|l0 left]; [done|]. destruct right as [|r0 right]; [done|].
  rewrite merge_with_random_order_step, Hcoin by done.
  pose proof (merge_with_random_order_covers coin (S k) (l0 :: left)
                (r0 :: right) (depth + 1)) as (_ & _ & _ & _ & Hlen).
  destruct (RecursiveShuffle.merge_with_random_order coin (S k) (l0 :: left)
              (r0 :: right) (depth + 1)) as [res k'].
  simpl in *. split; [done|]. split; [done|]. lia.
Qed.

Lemma merge_with_random_order_repeats_witness :
  let result :=
    (RecursiveShuffle.merge_with_random_order (λ _, false) 0 [Sample.sun]
       [Sample.moon] 0).1 in
  hd_error result = hd_error [Sample.moon]
  ∧ tl result
    = (RecursiveShuffle.merge_with_random_order (λ _, false) 1 [Sample.sun]
         [Sample.moon] (0 + 1)).1
  ∧ (length [Sample.sun] + length [Sample.moon] < length result)%nat.
Proof.
  apply (merge_with_random_order_repeats (λ _, false) 0 [Sample.sun]
           [Sample.moon] 0); [done|done|lia|done].
Defined.

Section RecursiveShuffleSplit.
Context (coin : nat → bool) (sample : nat → list Song → list Song).

Lemma shuffle_from_eq budget depth k playlist :
  RecursiveShuffle.shuffle_from coin sample budget depth k playlist
  = if 50 <? depth then (sample k playlist, S k)
    else if (length playlist <=? 1)%nat then (playlist, k)
    else if (length playlist =? 2)%nat then
      (if coin k then playlist else reverse playlist, S k)
    else match budget with
      | O => (sample k playlist, S k)
      | S budget' =>
          let mid := (length playlist / 2)%nat in
          let '(shuffled_left, k) :=
            RecursiveShuffle.shuffle_from coin sample budget' (depth + 1) k
              (take mid playlist) in
          let '(shuffled_right, k) :=
            RecursiveShuffle.shuffle_from coin sample budget' (depth + 1) k
              (drop mid playlist) in
          RecursiveShuffle.merge_with_random_order coin k shuffled_left
            shuffled_right (depth + 1)
      end.
Proof. destruct budget; reflexivity. Qed.

(** The source's equation for the dividing branch of
    [recursive_shuffle_playlist]. *)
Lemma recursive_shuffle_playlist_step k playlist depth :
  depth ≤ 50 → (3 ≤ length playlist)%nat →
  RecursiveShuffle.recursive_shuffle_playlist coin sample k playlist depth
  = let mid := (length playlist / 2)%nat in
    let '(shuffled_left, k) :=
      RecursiveShuffle.recursive_shuffle_playlist coin sample k
        (take mid playlist) (depth + 1) in
    let '(shuffled_right, k) :=
      RecursiveShuffle.recursive_shuffle_playlist coin sample k
        (drop mid playlist) (depth + 1) in
    RecursiveShuffle.merge_with_random_order coin k shuffled_left
      shuffled_right (depth + 1).
Proof.
  intros Hd Hlen. unfold RecursiveShuffle.recursive_shuffle_playlist.
  replace (Z.to_nat (51 - depth)) with (S (Z.to_nat (51 - (depth + 1))))
    by lia.
  rewrite shuffle_from_eq.
  destruct (Z.ltb_spec 50 depth); [lia|].
  destruct (Nat.leb_spec (length playlist) 1); [lia|].
  destruct (Nat.eqb_spec (length playlist) 2); [lia|done].
Qed.

Lemma shuffle_from_keeps budget depth k playlist :
  (∀ k l, sample k l ≡ₚ l) →
  let result :=
    (RecursiveShuffle.shuffle_from coin sample budget depth k playlist).1 in
  playlist ⊆+ result
  ∧ (∀ song, song ∈ result → song ∈ playlist)
  ∧ ((length playlist ≤ 2)%nat → result ≡ₚ playlist).
Proof.
  intros Hsample. cbv zeta.
  assert (Hperm : ∀ l l' : list Song, l' ≡ₚ l →
            l ⊆+ l' ∧ (∀ song, song ∈ l' → song ∈ l)
            ∧ ((length l ≤ 2)%nat → l' ≡ₚ l)).
  { intros l l' Hp. split; [by rewrite Hp|]. split; [|done].
    intros song. by rewrite Hp. }
  revert depth k playlist.
  induction budget as [|budget IH]; intros depth k playlist;
    rewrite shuffle_from_eq;
    (destruct (50 <? depth); [apply Hperm, Hsample|]);
    (destruct (Nat.leb_spec (length playlist) 1); [by apply Hperm|]);
    (destruct (Nat.eqb_spec (length playlist) 2);
       [apply Hperm; simpl; destruct (coin k);
          [done|apply reverse_Permutation]|]).
  - apply Hperm, Hsample.
  - cbv zeta.
    pose proof (IH (depth + 1) k (take (length playlist / 2) playlist))
      as (Hl & Hlin & _).
    destruct (RecursiveShuffle.shuffle_from coin sample budget (depth + 1) k
                (take (length playlist / 2) playlist)) as [sl k1].
    pose proof (IH (depth + 1) k1 (drop (length playlist / 2) playlist))
      as (Hr & Hrin & _).
    destruct (RecursiveShuffle.shuffle_from coin sample budget (depth + 1) k1
                (drop (length playlist / 2) playlist)) as [sr k2].
    destruct (merge_from_covers coin (Z.to_nat (51 - (depth + 1))) (depth + 1)
                k2 sl sr) as (_ & _ & Hm & Hin).
    unfold RecursiveShuffle.merge_with_random_order. simpl in *.
    split; [|split; [|lia]].
    + etrans; [|exact Hm].
      rewrite <- (take_drop (length playlist / 2) playlist) at 1.
      by apply submseteq_app.
    + intros song Hs. apply Hin, elem_of_app in Hs.
      rewrite <- (take_drop (length playlist / 2) playlist), elem_of_app.
      destruct Hs; [left; by apply Hlin|right; by apply Hrin].
Qed.

End RecursiveShuffleSplit.

(** X24. [recursive_shuffle_playlist], when [random.sample] of a whole list
    returns a rearrangement of it: whatever the draws and the depth, the
    result holds every song of the playlist at least as often as the
    playlist does and no song from elsewhere; for a playlist of at most two
    songs it is a rearrangement of the playlist. *)
Theorem recursive_shuffle_playlist_keeps_songs (coin : nat → bool)
    (sample : nat → list Song → list Song) (k : nat) (playlist : list Song)
    (depth : Z) :
  (∀ k l, sample k l ≡ₚ l) →
  let result :=
    (RecursiveShuffle.recursive_shuffle_playlist coin sample k playlist
       depth).1 in
  playlist ⊆+ result
  ∧ (∀ song, song ∈ result → song ∈ playlist)
  ∧ ((length playlist ≤ 2)%nat → result ≡ₚ playlist).
Proof.
  intros Hsample. by apply shuffle_from_keeps.
Qed.

Lemma recursive_shuffle_playlist_keeps_songs_witness :
  let result :=
    (RecursiveShuffle.recursive_shuffle_playlist (λ _, false) (λ _ l, l) 0
       [Sample.sun; Sample.moon; Sample.star] 0).1 in
  [Sample.sun; Sample.moon; Sample.star] ⊆+ result
  ∧ (∀ song, song ∈ result → song ∈ [Sample.sun; Sample.moon; Sample.star])
  ∧ ((length [Sample.sun; Sample.moon; Sample.star] ≤ 2)%nat →
     result ≡ₚ [Sample.sun; Sample.moon; Sample.star]).
Proof.
  apply (recursive_shuffle_playlist_keeps_songs (λ _, false) (λ _ l, l) 0
           [Sample.sun; Sample.moon; Sample.star] 0).
  intros k l. reflexivity.
Defined.

(** X25. [recursive_shuffle_playlist] on three or more songs at a depth of at
    most 49, when [random.sample] of a whole list returns a rearrangement
    of it: if the first draw of the final merge picks the right half, the
    returned list is longer than the playlist. *)
Theorem recursive_shuffle_playlist_grows (coin : nat → bool)
    (sample : nat → list Song → list Song) (k : nat) (playlist : list Song)
    (depth : Z) :
  (∀ k l, sample k l ≡ₚ l) →
  (3 ≤ length playlist)%nat → depth ≤ 49 →
  let mid := (length playlist / 2)%nat in
  let k1 :=
    (RecursiveShuffle.recursive_shuffle_playlist coin sample k
       (take mid playlist) (depth + 1)).2 in
  let k2 :=
    (RecursiveShuffle.recursive_shuffle_playlist coin sample k1
       (drop mid playlist) (depth + 1)).2 in
  coin k2 = false →
  (length playlist
   < length (RecursiveShuffle.recursive_shuffle_playlist coin sample k
               playlist depth).1)%nat.
Proof.
  intros Hsample Hlen Hd mid k1 k2 Hcoin. subst k1 k2.
  rewrite recursive_shuffle_playlist_step by (done || lia). cbv zeta.
  fold mid in Hcoin |- *.
  assert (1 ≤ mid)%nat as Hmid1.
  { subst mid. change 1%nat with (2 / 2)%nat. apply Nat.Div0.div_le_mono. lia. }
  assert (mid < length playlist)%nat as Hmid2.
  { subst mid. apply Nat.div_lt; lia. }
  pose proof (shuffle_from_keeps coin sample (Z.to_nat (51 - (depth + 1)))
                (depth + 1) k (take mid playlist) Hsample) as (Hl & _).
  fold (RecursiveShuffle.recursive_shuffle_playlist coin sample k
          (take mid playlist) (depth + 1)) in Hl.
  destruct (RecursiveShuffle.recursive_shuffle_playlist coin sample k
              (take mid playlist) (depth + 1)) as [sl k1].
  simpl in Hcoin, Hl.
  pose proof (shuffle_from_keeps coin sample (Z.to_nat (51 - (depth + 1)))
                (depth + 1) k1 (drop mid playlist) Hsample) as (Hr & _).
  fold (RecursiveShuffle.recursive_shuffle_playlist coin sample k1
          (drop mid playlist) (depth + 1)) in Hr.
  destruct (RecursiveShuffle.recursive_shuffle_playlist coin sample k1
              (drop mid playlist) (depth + 1)) as [sr k2].
  simpl in Hcoin, Hr.
  apply submseteq_length in Hl, Hr.
  rewrite length_take in Hl. rewrite length_drop in Hr.
  destruct sl as [|l0 sl]; [simpl in Hl; lia|].
  destruct sr as [|r0 sr]; [simpl in Hr; lia|].
  rewrite merge_with_random_order_step, Hcoin by lia.
  pose proof (merge_from_covers coin (Z.to_nat (51 - (depth + 1 + 1)))
                (depth + 1 + 1) (S k2) (l0 :: sl) (r0 :: sr))
    as (_ & _ & Hm & _).
  fold (RecursiveShuffle.merge_with_random_order coin (S k2) (l0 :: sl)
          (r0 :: sr) (depth + 1 + 1)) in Hm.
  destruct (RecursiveShuffle.merge_with_random_order coin (S k2) (l0 :: sl)
              (r0 :: sr) (depth + 1 + 1)) as [res k3].
  apply submseteq_length in Hm. rewrite length_app in Hm.
  simpl in *. lia.
Qed.

Lemma recursive_shuffle_playlist_grows_witness :
  (length [Sample.sun; Sample.moon; Sample.star]
   < length (RecursiveShuffle.recursive_shuffle_playlist (λ _, false)
               (λ _ l, l) 0 [Sample.sun; Sample.moon; Sample.star] 0).1)%nat.
Proof.
  apply (recursive_shuffle_playlist_grows (λ _, false) (λ _ l, l) 0
           [Sample.sun; Sample.moon; Sample.star] 0);
    [intros k l; reflexivity|simpl; lia|lia|reflexivity].
Defined.

(** ** Lists_and_Tuples.py *)

Lemma py_in_empty hay : Text.py_in "" hay = true.
Proof. by destruct hay. Qed.

Lemma py_in_refl s : Text.py_in s s = true.
Proof.
  apply py_in_Contains. exists "", "". rewrite append_Empty.
  induction s as [|c s IH]; [done|]. rewrite append_String. by f_equal.
Qed.

Lemma search_songs_filter query song_library :
  MusicPlaylistManager.search_songs query song_library
  = List.filter
      (λ song,
         Text.py_in (Text.lower query) (Text.lower (title song))
         || Text.py_in (Text.lower query) (Text.lower (artist song)))
      song_library.
Proof.
  unfold MusicPlaylistManager.search_songs. cbv zeta.
  set (test := λ song : Song, _ || _).
  enough (∀ results, foldl (λ results song,
                        if test song then results ++ [song] else results)
                       results song_library
                     = results ++ List.filter test song_library) as Hgen
    by apply (Hgen []).
  induction song_library as [|song lib IH]; intros results; simpl.
  - by rewrite app_nil_r.
  - rewrite IH. destruct (test song); [by rewrite <- app_assoc|done].
Qed.

Lemma filter_sublist {A} (f : A → bool) (l : list A) :
  List.filter f l `sublist_of` l.
Proof.
  induction l as [|x l IH]; simpl; [done|].
  destruct (f x); by constructor.
Qed.

Lemma filter_sublist_impl {A} (f g : A → bool) (l : list A) :
  (∀ x, f x = true → g x = true) →
  List.filter f l `sublist_of` List.filter g l.
Proof.
  intros Hfg. induction l as [|x l IH]; simpl; [done|].
  destruct (f x) eqn:Hf.
  - rewrite (Hfg x Hf). by constructor.
  - destruct (g x); [by constructor|done].
Qed.

(** X26. [search_songs]: the result keeps the library's order, and the empty
    query returns the whole library, since the empty text is inside every
    title. *)
Theorem search_songs_empty_query (query : string) (song_library : list Song) :
  MusicPlaylistManager.search_songs query song_library
    `sublist_of` song_library
  ∧ MusicPlaylistManager.search_songs "" song_library = song_library.
Proof.
  rewrite !search_songs_filter. split; [apply filter_sublist|].
  induction song_library as [|song lib IH]; [done|].
  simpl. rewrite py_in_empty. simpl. by f_equal.
Qed.

(** X27. [filter_songs_by_artist] and [search_songs]: every song the filter
    returns for an artist is also found by searching for the same text,
    and in the same order. *)
Theorem filter_songs_by_artist_within_search (artist_name : string)
    (song_library : list Song) :
  MusicPlaylistManager.filter_songs_by_artist artist_name song_library
    `sublist_of` MusicPlaylistManager.search_songs artist_name song_library.
Proof.
  rewrite search_songs_filter. apply filter_sublist_impl. intros song Heq.
  apply String.eqb_eq in Heq. rewrite Heq, py_in_refl. apply orb_true_r.
Qed.

Lemma artist_counts_from (counts : gmap string Z) song_library artist_name :
  foldl
    (λ counts song,
       <[artist song := default 0 (counts !! artist song) + 1]> counts)
    counts song_library !! artist_name
  = match MusicPlaylistManager.credited_to artist_name song_library with
    | [] => counts !! artist_name
    | credited =>
        Some (default 0 (counts !! artist_name) + Z.of_nat (length credited))
    end.
Proof.
  revert counts. unfold MusicPlaylistManager.credited_to.
  induction song_library as [|song lib IH]; intros counts; [done|].
  simpl. rewrite IH. destruct (String.eqb_spec (artist song) artist_name)
    as [->|Hne].
  - rewrite lookup_insert_eq. simpl.
    destruct (List.filter _ lib); simpl; f_equal; lia.
  - by rewrite lookup_insert_ne.
Qed.

(** X28. [get_library_statistics] and [filter_songs_by_artist]: the count the
    statistics keep for an artist is the number of songs credited to
    exactly that name, and there is no entry when there is none; the
    artist filter compares names without regard to case, so it never
    returns fewer songs than that count. *)
Theorem artist_counts_exact (song_library : list Song)
    (artist_name : string) :
  let credited :=
    MusicPlaylistManager.credited_to artist_name song_library in
  MusicPlaylistManager.artist_counts song_library !! artist_name
  = (if decide (credited = []) then None
     else Some (Z.of_nat (length credited)))
  ∧ (length credited
     ≤ length (MusicPlaylistManager.filter_songs_by_artist artist_name
                 song_library))%nat.
Proof.
  intros credited. subst credited. split.
  - unfold MusicPlaylistManager.artist_counts. rewrite artist_counts_from.
    destruct (MusicPlaylistManager.credited_to artist_name song_library);
      [done|].
    rewrite decide_False by done. rewrite lookup_empty. simpl. f_equal.
  - apply sublist_length, filter_sublist_impl. intros song Heq.
    apply String.eqb_eq in Heq. rewrite Heq. apply eq_nocase_refl.
Qed.
